(** * Traffic classification pipeline of [scripts/traffic-capture.py]

    A shallow embedding of the script's tables, classifier, flow line
    parser, aggregator and summary builder, and the properties of the
    specification checked against it.

    Conventions of the embedding:
    - a Python [str] is a list of Unicode code points ([pystr]); the flow
      lines contain the arrow U+2192, so bytes would not do;
    - the ints of the script are counts, sizes and ports read with
      [int] from a run of digits: naturals, in [N]; reading one from a text
      or writing one as a text raises ValueError beyond 4300 digits, the
      limit the interpreter starts with;
    - a Python [dict] is an association list in insertion order: the script
      iterates over its dicts and sorts their items with a stable sort, so
      the order is observable;
    - a Python [set] of ints is a duplicate-free list ([ListSet]);
    - the binary64 arithmetic of the percentage is [SpecFloat]'s. *)

From Stdlib Require Import ZArith NArith List Bool Lia String Ascii ListSet.
From Stdlib Require Import Sorted Permutation DecimalString SpecFloat.
Import ListNotations.

Local Open Scope N_scope.

(** ** Python strings *)

Module PyStr.

Definition char := N.
Definition pystr := list char.

(** UTF-8 decoding of a Rocq string literal, so that texts can be written
    as they appear in the script. *)
Fixpoint utf8_decode (acc : N) (pending : nat) (bs : list N) : pystr :=
  match bs with
  | [] => []
  | b :: bs' =>
      match pending with
      | S n =>
          let acc' := (acc * 64 + b mod 64) in
          match n with
          | O => acc' :: utf8_decode 0 O bs'
          | _ => utf8_decode acc' n bs'
          end
      | O =>
          if (b <? 128) then b :: utf8_decode 0 O bs'
          else if (b <? 224) then utf8_decode (b mod 32) 1%nat bs'
          else if (b <? 240) then utf8_decode (b mod 16) 2%nat bs'
          else utf8_decode (b mod 8) 3%nat bs'
      end
  end.

Definition py (s : string) : pystr :=
  utf8_decode 0 O (map N_of_ascii (list_ascii_of_string s)).

Fixpoint str_eqb (a b : pystr) : bool :=
  match a, b with
  | [], [] => true
  | x :: a', y :: b' => (x =? y) && str_eqb a' b'
  | _, _ => false
  end.

(** [str.lower()] on the ASCII letters; code points outside ASCII are left
    as they are, so this is [str.lower()] on ASCII texts only.  Every
    address the flow line parser yields is made of [a-f0-9:.], every
    service name of the table is ASCII, and no character outside ASCII
    lowers to a character of a signature (two lower to an ASCII letter:
    U+212A to k, U+0130 to i and a combining dot). *)
Definition lower_char (c : char) : char :=
  if ((65 <=? c) && (c <=? 90)) then (c + 32) else c.

Definition lower (s : pystr) : pystr := map lower_char s.

(** [s.startswith(p)] *)
Fixpoint startswith (s p : pystr) {struct p} : bool :=
  match p, s with
  | [], _ => true
  | x :: p', y :: s' => (x =? y) && startswith s' p'
  | _ :: _, [] => false
  end.

(** [p in s] *)
Fixpoint contains (s p : pystr) : bool :=
  startswith s p ||
  match s with
  | [] => false
  | _ :: s' => contains s' p
  end.

(** [sep.join(parts)] *)
Fixpoint join (sep : pystr) (parts : list pystr) : pystr :=
  match parts with
  | [] => []
  | [p] => p
  | p :: rest => p ++ sep ++ join sep rest
  end.

(** [str(n)] for a natural *)
Definition str_of_N (n : N) : pystr :=
  py (NilEmpty.string_of_uint (N.to_uint n)).

End PyStr.
Import PyStr.

(** ** Python dicts: insertion-ordered, a repeated key keeps its place and
    takes the new value *)

Module PyDict.

Section Dict.
Context {V : Type}.

Definition dict := list (pystr * V).

Fixpoint get (d : dict) (k : pystr) : option V :=
  match d with
  | [] => None
  | (k', v) :: d' => if str_eqb k k' then Some v else get d' k
  end.

(** [d[k] = v] *)
Fixpoint set (d : dict) (k : pystr) (v : V) : dict :=
  match d with
  | [] => [(k, v)]
  | (k', v') :: d' =>
      if str_eqb k k' then (k', v) :: d' else (k', v') :: set d' k v
  end.

(** A dict display [{k1: v1, k2: v2, ...}]: the entries are stored from
    left to right. *)
Definition literal (entries : list (pystr * V)) : dict :=
  fold_left (fun d kv => set d (fst kv) (snd kv)) entries [].

Definition items (d : dict) : list (pystr * V) := d.
Definition keys (d : dict) : list pystr := map fst d.

End Dict.
Arguments dict : clear implicits.

End PyDict.

(** ** The two static tables *)

(** The entries of the [SERVICE_SIGNATURES] display, in source order. *)
Definition SERVICE_SIGNATURES_entries : list (pystr * pystr) :=
  [ (py "face:b00c", py "Meta (Facebook/Instagram/WhatsApp)");
    (py "157.240.", py "Meta (Facebook/Instagram/WhatsApp)");
    (py "31.13.", py "Meta (Facebook/Instagram/WhatsApp)");
    (py "69.63.", py "Meta (Facebook)");
    (py "69.171.", py "Meta (Facebook)");
    (py "142.250.", py "Google");
    (py "172.217.", py "Google");
    (py "216.58.", py "Google");
    (py "142.250.", py "Google");
    (py "2a00:1450:", py "Google (IPv6)");
    (py "1.1.1.1", py "Cloudflare DNS");
    (py "1.0.0.1", py "Cloudflare DNS");
    (py "104.16.", py "Cloudflare");
    (py "104.24.", py "Cloudflare");
    (py "2606:4700:", py "Cloudflare (IPv6)");
    (py "17.", py "Apple");
    (py "2620:149:", py "Apple (IPv6)");
    (py "20.", py "Microsoft");
    (py "40.", py "Microsoft/Azure");
    (py "52.", py "Microsoft/Azure");
    (py "2a01:111:", py "Microsoft (IPv6)");
    (py "3.", py "Amazon AWS");
    (py "54.", py "Amazon AWS");
    (py "52.", py "Amazon AWS (shared with MS)");
    (py "140.82.", py "GitHub");
    (py "104.244.", py "Twitter/X");
    (py "162.159.", py "Discord");
    (py "188.114.", py "Discord/Cloudflare");
    (py "149.154.", py "Telegram");
    (py "91.108.", py "Telegram");
    (py "13.107.", py "Signal/Microsoft");
    (py "23.246.", py "Netflix");
    (py "45.57.", py "Netflix");
    (py "35.186.", py "Spotify/Google");
    (py "104.18.", py "OpenAI (Cloudflare)") ].

Definition SERVICE_SIGNATURES : PyDict.dict pystr :=
  Eval vm_compute in PyDict.literal SERVICE_SIGNATURES_entries.

Definition ACTIVITY_CATEGORIES_entries : list (pystr * list pystr) :=
  [ (py "social",
      map py ["meta"; "facebook"; "instagram"; "whatsapp"; "twitter";
              "tiktok"; "snapchat"; "linkedin"]%string);
    (py "communication",
      map py ["whatsapp"; "telegram"; "signal"; "discord"; "slack";
              "messenger"; "gmail"; "outlook"]%string);
    (py "search", map py ["google"; "bing"; "duckduckgo"]%string);
    (py "development",
      map py ["github"; "gitlab"; "bitbucket"; "stackoverflow"; "npmjs";
              "pypi"]%string);
    (py "ai",
      map py ["openai"; "anthropic"; "claude"; "chatgpt"; "perplexity";
              "gemini"; "copilot"]%string);
    (py "media",
      map py ["youtube"; "netflix"; "spotify"; "twitch"; "plex";
              "soundcloud"]%string);
    (py "cloud",
      map py ["cloudflare"; "aws"; "azure"; "gcp"; "digitalocean";
              "amazon"]%string);
    (py "apple", map py ["apple"; "icloud"; "itunes"]%string);
    (py "microsoft", map py ["microsoft"; "office"; "outlook"; "teams"]%string) ].

Definition ACTIVITY_CATEGORIES : PyDict.dict (list pystr) :=
  Eval vm_compute in PyDict.literal ACTIVITY_CATEGORIES_entries.

(** ** Classifier *)

(** The [for signature, service in table.items()] loop of
    [identify_service], over any table. *)
Fixpoint scan_signatures (table : list (pystr * pystr)) (ip_lower : pystr)
  : option pystr :=
  match table with
  | [] => None
  | (signature, service) :: rest =>
      if contains ip_lower signature then Some service
      else scan_signatures rest ip_lower
  end.

Definition identify_service (ip : pystr) : option pystr :=
  let ip_lower := lower ip in
  scan_signatures (PyDict.items SERVICE_SIGNATURES) ip_lower.

(** The inner [for keyword in keywords] loop: does some keyword occur? *)
Fixpoint any_keyword (keywords : list pystr) (service_lower : pystr) : bool :=
  match keywords with
  | [] => false
  | keyword :: rest =>
      if contains service_lower keyword then true
      else any_keyword rest service_lower
  end.

Fixpoint scan_categories (table : list (pystr * list pystr))
  (service_lower : pystr) : pystr :=
  match table with
  | [] => py "other"
  | (category, keywords) :: rest =>
      if any_keyword keywords service_lower then category
      else scan_categories rest service_lower
  end.

Definition categorize_activity (service : pystr) : pystr :=
  let service_lower := lower service in
  scan_categories (PyDict.items ACTIVITY_CATEGORIES) service_lower.

(** ** Regular expressions of [re], as far as the script uses them

    A backtracking matcher with Python's priorities: alternation tries its
    branches from left to right, [*] and [+] are greedy, [re.search] takes
    the leftmost start at which a match exists. *)

Module Re.

Inductive regex : Type :=
| Eps
| Class (p : char -> bool)
| Cat (r1 r2 : regex)
| Or (r1 r2 : regex)
| Star (r : regex)
| Group (i : nat) (r : regex).

Definition Plus (r : regex) : regex := Cat r (Star r).

Fixpoint Lit (s : pystr) : regex :=
  match s with
  | [] => Eps
  | c :: s' => Cat (Class (N.eqb c)) (Lit s')
  end.

(** Captured groups, most recent first. *)
Definition caps := list (nat * pystr).

Fixpoint group (c : caps) (i : nat) : option pystr :=
  match c with
  | [] => None
  | (j, w) :: c' => if Nat.eqb i j then Some w else group c' i
  end.

(** [rmatch r s c k]: match [r] at the head of [s], then hand the rest of
    the text to [k]; when [k] fails the next alternative is tried. *)
Fixpoint rmatch (r : regex) (s : pystr) (c : caps)
  (k : pystr -> caps -> option caps) {struct r} : option caps :=
  match r with
  | Eps => k s c
  | Class p =>
      match s with
      | x :: s' => if p x then k s' c else None
      | [] => None
      end
  | Cat r1 r2 => rmatch r1 s c (fun s' c' => rmatch r2 s' c' k)
  | Or r1 r2 =>
      match rmatch r1 s c k with
      | Some res => Some res
      | None => rmatch r2 s c k
      end
  | Star r1 =>
      (fix loop (fuel : nat) (s : pystr) (c : caps) {struct fuel}
         : option caps :=
         match fuel with
         | O => k s c
         | S fuel' =>
             match
               rmatch r1 s c
                 (fun s' c' =>
                    if (List.length s' <? List.length s)%nat
                    then loop fuel' s' c' else None)
             with
             | Some res => Some res
             | None => k s c
             end
         end) (List.length s) s c
  | Group i r1 =>
      rmatch r1 s c
        (fun s' c' =>
           k s' ((i, firstn (List.length s - List.length s') s) :: c'))
  end.

Definition match_here (r : regex) (s : pystr) : option caps :=
  rmatch r s [] (fun _ c => Some c).

(** [re.search(r, s)] *)
Fixpoint search (r : regex) (s : pystr) : option caps :=
  match match_here r s with
  | Some c => Some c
  | None =>
      match s with
      | [] => None
      | _ :: s' => search r s'
      end
  end.

(** What a match is, declaratively: [matches r w c c'] when [r] can consume
    exactly [w], turning the groups [c] into [c']. *)
Inductive matches : regex -> pystr -> caps -> caps -> Prop :=
| M_eps c : matches Eps [] c c
| M_class p x c : p x = true -> matches (Class p) [x] c c
| M_cat r1 r2 w1 w2 c c' c'' :
    matches r1 w1 c c' -> matches r2 w2 c' c'' ->
    matches (Cat r1 r2) (w1 ++ w2) c c''
| M_or_l r1 r2 w c c' : matches r1 w c c' -> matches (Or r1 r2) w c c'
| M_or_r r1 r2 w c c' : matches r2 w c c' -> matches (Or r1 r2) w c c'
| M_star_nil r c : matches (Star r) [] c c
| M_star_cons r w1 w2 c c' c'' :
    matches r w1 c c' -> matches (Star r) w2 c' c'' ->
    matches (Star r) (w1 ++ w2) c c''
| M_group i r w c c' :
    matches r w c c' -> matches (Group i r) w c ((i, w) :: c').

(** *** Character classes *)

(** [[a-f0-9:.]] *)
Definition is_addr_char (c : char) : bool :=
  ((97 <=? c) && (c <=? 102) || (48 <=? c) && (c <=? 57)
   || (c =? 58) || (c =? 46)).

(** [\s] on a [str] pattern: the characters for which [str.isspace()]
    holds. *)
Definition is_space (c : char) : bool :=
  ((9 <=? c) && (c <=? 13) || (28 <=? c) && (c <=? 32)
   || (c =? 133) || (c =? 160) || (c =? 5760)
   || (8192 <=? c) && (c <=? 8202)
   || (c =? 8232) || (c =? 8233) || (c =? 8239) || (c =? 8287)
   || (c =? 12288)).

(** The zero of every run of decimal digits of Unicode 14 (category Nd);
    each run has its ten digits in order. *)
Definition Nd_zeros : list N :=
  [ 48; 1632; 1776; 1984; 2406; 2534; 2662; 2790; 2918; 3046; 3174; 3302;
    3430; 3558; 3664; 3792; 3872; 4160; 4240; 6112; 6160; 6470; 6608; 6784;
    6800; 6992; 7088; 7232; 7248; 42528; 43216; 43264; 43472; 43504; 43600;
    44016; 65296; 66720; 68912; 69734; 69872; 69942; 70096; 70384; 70736;
    70864; 71248; 71360; 71472; 71904; 72016; 72784; 73040; 73120; 92768;
    92864; 93008; 120782; 120792; 120802; 120812; 120822; 123200; 123632;
    125264; 130032 ].

(** The decimal value of a digit character, in any script. *)
Definition digit_value (c : char) : option N :=
  match find (fun z => (z <=? c) && (c <? z + 10)) Nd_zeros with
  | Some z => Some (c - z)
  | None => None
  end.

(** [\d] on a [str] pattern *)
Definition is_digit (c : char) : bool :=
  match digit_value c with Some _ => true | None => false end.

Definition arrow : char := 8594.

End Re.
Import Re.

(** The most digits a number may have when it is read from a text or
    written as one ([sys.get_int_max_str_digits()] as the interpreter
    starts), and the messages of the ValueError raised beyond it: by [int],
    and by [str], an f-string and [json.dump]. *)
Definition int_max_str_digits : N := 4300.

Definition int_limit_error (digits : nat) : pystr :=
  py "Exceeds the limit (4300 digits) for integer string conversion: value has "
  ++ str_of_N (N.of_nat digits)
  ++ py " digits; use sys.set_int_max_str_digits() to increase the limit".

Definition str_limit_error : pystr :=
  py "Exceeds the limit (4300 digits) for integer string conversion; use sys.set_int_max_str_digits() to increase the limit".

(** [int(s)] for a text of decimal digits.  [None] stands for ValueError:
    the text is empty, holds something else than digits, or has more digits
    than the limit, leading zeros counted.  The script only ever passes a
    [\d+] group, so signs, blanks and underscores, which [int] would also
    take, are left out. *)
Fixpoint int_digits (acc : N) (s : pystr) : option N :=
  match s with
  | [] => Some acc
  | c :: s' =>
      match digit_value c with
      | Some d => int_digits (10 * acc + d) s'
      | None => None
      end
  end.

Definition py_int (s : pystr) : option N :=
  match s with
  | [] => None
  | _ =>
      if int_max_str_digits <? N.of_nat (List.length s) then None
      else int_digits 0 s
  end.

(** An int can be written as a text when it has no more digits than the
    limit. *)
Definition int_fits (n : N) : bool := n <? 10 ^ int_max_str_digits.

(** ** Flow line parser: the body of the read loop of [capture_traffic] *)

Record FlowRecord : Type := mkFlow {
  src_ip : pystr;
  dst_ip : pystr;
  dst_port : N;
  protocol : pystr;
  size : N
}.

(** [([a-f0-9:.]+)\s*→\s*([a-f0-9:.]+)] *)
Definition re_addr : regex :=
  Cat (Group 1 (Plus (Class is_addr_char)))
   (Cat (Star (Class is_space))
     (Cat (Class (N.eqb arrow))
       (Cat (Star (Class is_space))
            (Group 2 (Plus (Class is_addr_char)))))).

(** [(TCP|UDP|SSL|TLS|HTTP|QUIC)\s+(\d+)] *)
Definition re_proto : regex :=
  Cat (Group 1
         (Or (Lit (py "TCP")) (Or (Lit (py "UDP")) (Or (Lit (py "SSL"))
           (Or (Lit (py "TLS")) (Or (Lit (py "HTTP")) (Lit (py "QUIC"))))))))
   (Cat (Plus (Class is_space))
        (Group 2 (Plus (Class is_digit)))).

(** [→\s*(\d+)] *)
Definition re_port : regex :=
  Cat (Class (N.eqb arrow))
   (Cat (Star (Class is_space))
        (Group 1 (Plus (Class is_digit)))).

(** The outcome of the loop body on one line; an exception is its
    message. *)
Inductive parsed : Type :=
| Accepted (r : FlowRecord)
| Rejected
| Raised (e : pystr).

(** What [int] raises in the loop body: it is given a [\d+] group, which
    only the limit on digits can make it refuse. *)
Definition int_error (t : pystr) : pystr := int_limit_error (List.length t).

(** A group that took no part in a match would read as [None], which [int]
    refuses.  The groups of the three expressions take part in every
    match, so this is never raised. *)
Definition none_error : pystr :=
  py "int() argument must be a string, a bytes-like object or a real number, not 'NoneType'".

Definition parse_line (line : pystr) : parsed :=
  match search re_addr line with
  | None => Rejected
  | Some m =>
      match group m 1, group m 2 with
      | Some src, Some dst =>
          match search re_proto line with
          | None => Rejected
          | Some proto_match =>
              match group proto_match 1, group proto_match 2 with
              | Some proto, Some size_text =>
                  match py_int size_text with
                  | None => Raised (int_error size_text)
                  | Some sz =>
                      match search re_port line with
                      | Some port_match =>
                          match group port_match 1 with
                          | Some t =>
                              match py_int t with
                              | Some p =>
                                  Accepted (mkFlow src dst p proto sz)
                              | None => Raised (int_error t)
                              end
                          | None => Raised none_error
                          end
                      | None => Accepted (mkFlow src dst 0 proto sz)
                      end
                  end
              | _, _ => Raised none_error
              end
          end
      | _, _ => Raised none_error
      end
  end.

(** ** Binary64 arithmetic of the percentage *)

Module Float64.

Definition prec : Z := 53%Z.
Definition emax : Z := 1024%Z.

(** The value of an int as an exact binary number. *)
Definition of_pos (p : positive) : spec_float := S754_finite false p 0%Z.

(** [a / b] on positive ints: the quotient rounded once, to nearest even. *)
Definition true_div (a b : positive) : spec_float :=
  SFdiv prec emax (of_pos a) (of_pos b).

(** [x * n] for a float [x] and a positive int [n] that a float holds
    exactly. *)
Definition mul_int (x : spec_float) (n : positive) : spec_float :=
  SFmul prec emax x (of_pos n).

(** [x > 1], on the exact value of [x]. *)
Definition gt_one (x : spec_float) : bool :=
  match x with
  | S754_finite false m e =>
      match e with
      | Zneg k => (Z.pow 2 (Zpos k) <? Zpos m)%Z
      | _ => (1 <? Zpos m * Z.pow 2 e)%Z
      end
  | S754_infinity false => true
  | _ => false
  end.

(** The exact value of a finite magnitude rounded to an integer, ties to
    even. *)
Definition round_half_even (m : positive) (e : Z) : N :=
  match e with
  | Zneg k =>
      let d := Z.pow 2 (Zpos k) in
      let q := (Zpos m / d)%Z in
      let r := (Zpos m mod d)%Z in
      Z.to_N
        (match (2 * r ?= d)%Z with
         | Lt => q
         | Gt => (q + 1)%Z
         | Eq => if Z.even q then q else (q + 1)%Z
         end)
  | _ => Z.to_N (Zpos m * Z.pow 2 e)
  end.

(** [f"{x:.0f}"] *)
Definition format_0f (x : spec_float) : pystr :=
  match x with
  | S754_zero s => (if s then py "-" else []) ++ py "0"
  | S754_infinity s => (if s then py "-" else []) ++ py "inf"
  | S754_nan => py "nan"
  | S754_finite s m e =>
      (if s then py "-" else []) ++ str_of_N (round_half_even m e)
  end.

End Float64.

(** ** Aggregator *)

Record DestinationStats : Type := mkStats {
  st_packets : N;
  st_bytes : N;
  st_ports : set N
}.

(** The default of the [defaultdict]. *)
Definition default_stats : DestinationStats :=
  mkStats 0 0 (empty_set N).

Definition is_outbound (pkt : FlowRecord) : bool :=
  startswith (src_ip pkt) (py "fd42:42:42:")
  || startswith (src_ip pkt) (py "10.66.66.").

(** The body of the [for pkt in packets] loop. *)
Definition count_packet (ip_stats : PyDict.dict DestinationStats)
  (pkt : FlowRecord) : PyDict.dict DestinationStats :=
  if is_outbound pkt then
    let dst := dst_ip pkt in
    let st :=
      match PyDict.get ip_stats dst with
      | Some st => st
      | None => default_stats
      end in
    PyDict.set ip_stats dst
      (mkStats (st_packets st + 1) (st_bytes st + size pkt)
               (set_add N.eq_dec (dst_port pkt) (st_ports st)))
  else ip_stats.

Definition aggregate (packets : list FlowRecord)
  : PyDict.dict DestinationStats :=
  fold_left count_packet packets [].

(** ** Summary builder *)

(** [sorted(l, key=key, reverse=True)]: descending, and stable (elements
    with equal keys keep their order). *)
Section SortedDesc.
Context {A : Type} (key : A -> N).

Fixpoint insert_desc (x : A) (l : list A) : list A :=
  match l with
  | [] => [x]
  | y :: l' => if key x <? key y then y :: insert_desc x l' else x :: y :: l'
  end.

Fixpoint sorted_desc (l : list A) : list A :=
  match l with
  | [] => []
  | x :: l' => insert_desc x (sorted_desc l')
  end.

End SortedDesc.

(** [sorted(list(ports))] *)
Fixpoint insert_asc (x : N) (l : list N) : list N :=
  match l with
  | [] => [x]
  | y :: l' => if y <? x then y :: insert_asc x l' else x :: y :: l'
  end.

Fixpoint sorted_asc (l : list N) : list N :=
  match l with
  | [] => []
  | x :: l' => insert_asc x (sorted_asc l')
  end.

Record ConnectionSummary : Type := mkConn {
  ip : pystr;
  service : pystr;
  category : pystr;
  packets : N;
  bytes : N;
  ports : list N
}.

Record TrafficSummary : Type := mkSummary {
  generated_at : pystr;
  total_packets : N;
  total_bytes : N;
  unique_destinations : N;
  connections : list ConnectionSummary;
  activity_summary : pystr
}.

(** The body of the "identify services" loop. *)
Definition resolve (entry : pystr * DestinationStats) : ConnectionSummary :=
  let (ip, stats) := entry in
  let service :=
    match identify_service ip with
    | None | Some [] => py "Unknown"
    | Some s => s
    end in
  let category := categorize_activity service in
  mkConn ip service category (st_packets stats) (st_bytes stats)
         (sorted_asc (st_ports stats)).

(** Every destination resolved, ranked by bytes. *)
Definition all_connections (ip_stats : PyDict.dict DestinationStats)
  : list ConnectionSummary :=
  map resolve (sorted_desc (fun e => st_bytes (snd e)) (PyDict.items ip_stats)).

(** [category_bytes[conn["category"]] += conn["bytes"]] *)
Definition add_category (category_bytes : PyDict.dict N)
  (conn : ConnectionSummary) : PyDict.dict N :=
  let old :=
    match PyDict.get category_bytes (category conn) with
    | Some b => b
    | None => 0
    end in
  PyDict.set category_bytes (category conn) (old + bytes conn).

Definition category_totals (conns : list ConnectionSummary) : PyDict.dict N :=
  fold_left add_category conns [].

Definition sum_bytes (conns : list ConnectionSummary) : N :=
  fold_right (fun c acc => bytes c + acc) 0 conns.

(** [pct = bytes_count / total_bytes * 100] *)
Definition percent (bytes_count total : positive) : spec_float :=
  Float64.mul_int (Float64.true_div bytes_count total) 100.

(** The guard of the loop over the ranked categories: the percentage of a
    category that is displayed, if it is. *)
Definition shown_percent (total bytes_count : N) : option spec_float :=
  match bytes_count, total with
  | Npos b, Npos t =>
      let pct := percent b t in
      if Float64.gt_one pct then Some pct else None
  | _, _ => None
  end.

(** [f"{cat}: {pct:.0f}%"] *)
Definition part_text (cat : pystr) (pct : spec_float) : pystr :=
  cat ++ py ": " ++ Float64.format_0f pct ++ py "%".

(** One turn of that loop: the text appended to [activity_parts], if any. *)
Definition activity_part (total : N) (entry : pystr * N) : option pystr :=
  let (cat, bytes_count) := entry in
  match shown_percent total bytes_count with
  | Some pct => Some (part_text cat pct)
  | None => None
  end.

Fixpoint activity_parts (total : N) (ranked : list (pystr * N))
  : list pystr :=
  match ranked with
  | [] => []
  | entry :: rest =>
      match activity_part total entry with
      | Some text => text :: activity_parts total rest
      | None => activity_parts total rest
      end
  end.

(** [summarize_traffic]; [now] is the text of [datetime.now().isoformat()]. *)
Definition summarize_traffic (now : pystr) (pkts : list FlowRecord)
  : TrafficSummary :=
  match pkts with
  | [] => mkSummary now 0 0 0 [] (py "No traffic captured")
  | _ =>
      let ip_stats := aggregate pkts in
      let conns := all_connections ip_stats in
      let category_bytes := category_totals conns in
      let total := sum_bytes conns in
      let parts :=
        activity_parts total (sorted_desc snd (PyDict.items category_bytes)) in
      let text :=
        match parts with
        | [] => py "Minimal activity"
        | _ => join (py " | ") parts
        end in
      mkSummary now (N.of_nat (List.length pkts)) total
        (N.of_nat (List.length ip_stats)) (firstn 20 conns) text
  end.

(** ** Capture source adapter and entry point

    The child process is seen through what the script observes of it:
    whether [Popen] raises, the lines read, whether the deadline had passed
    when a line arrived, and whether reading raises.  An exception is its
    message. *)

Inductive stream_event : Type :=
| Line (expired : bool) (text : pystr)
| ReadError (e : pystr).

Inductive popen_outcome : Type :=
| StartFails (e : pystr)
| Started (out : list stream_event).

Record capture_result : Type := mkCapture {
  cap_packets : list FlowRecord;
  cap_stderr : list pystr;
  cap_terminated : bool
}.

Definition capture_error (packets : list FlowRecord) (e : pystr)
  : capture_result :=
  mkCapture packets [py "Error capturing traffic: " ++ e] false.

(** The [for line in proc.stdout] loop inside the [try]. *)
Fixpoint read_loop (events : list stream_event) (packets : list FlowRecord)
  : capture_result :=
  match events with
  | [] => mkCapture packets [] true
  | ReadError e :: _ => capture_error packets e
  | Line true _ :: _ => mkCapture packets [] true
  | Line false text :: rest =>
      match parse_line text with
      | Accepted r => read_loop rest (packets ++ [r])
      | Rejected => read_loop rest packets
      | Raised e => capture_error packets e
      end
  end.

Definition capture_traffic (proc : popen_outcome) : capture_result :=
  match proc with
  | StartFails e => capture_error [] e
  | Started out => read_loop out []
  end.

(** What the run meets outside the script: the error of making the log
    directory, the child process, the clock, and the error of opening or
    writing the output file. *)
Record world : Type := mkWorld {
  mkdir_error : option pystr;
  popen : popen_outcome;
  clock : pystr;
  write_error : option pystr
}.

Inductive run : Type :=
| Crashed (e : pystr) (stdout stderr : list pystr)
| Completed (stdout stderr : list pystr) (written : TrafficSummary).

Definition OUTPUT_FILE : pystr :=
  py "/opt/drofbot/.drofbot/traffic/traffic-context.json".

(** The ints that [json.dump] writes for a summary.  Writing one with more
    digits than the limit raises ValueError. *)
Definition summary_ints (s : TrafficSummary) : list N :=
  [total_packets s; total_bytes s; unique_destinations s]
  ++ flat_map (fun c => [packets c; bytes c] ++ ports c) (connections s).

Definition json_dump_error (s : TrafficSummary) : option pystr :=
  if forallb int_fits (summary_ints s) then None else Some str_limit_error.

(** [main].  The f-string of the second line writes the number of packets
    as a text, and so does [json.dump] with the ints of the summary.  When
    the file fails, its error is the one that leaves [main], also when an
    int is too long: the file is closed on the way out. *)
Definition main (w : world) : run :=
  match mkdir_error w with
  | Some e => Crashed e [] []
  | None =>
      let out1 := py "Capturing traffic on wg0 for 60 seconds..." in
      let cap := capture_traffic (popen w) in
      let packets := cap_packets cap in
      let count := N.of_nat (List.length packets) in
      if int_fits count then
        let out2 := py "Captured " ++ str_of_N count ++ py " packets" in
        let summary := summarize_traffic (clock w) packets in
        match write_error w with
        | Some e => Crashed e [out1; out2] (cap_stderr cap)
        | None =>
            match json_dump_error summary with
            | Some e => Crashed e [out1; out2] (cap_stderr cap)
            | None =>
                Completed
                  [out1; out2; py "Activity: " ++ activity_summary summary;
                   py "Output written to " ++ OUTPUT_FILE]
                  (cap_stderr cap) summary
            end
        end
      else Crashed str_limit_error [out1] (cap_stderr cap)
  end.

(** ** Vocabulary of the statements *)

(** The substring relation, which [p in s] decides. *)
Definition is_substring (p s : pystr) : Prop :=
  exists before after, s = before ++ p ++ after.

(** The keys of a sequence of entries, each at its first occurrence. *)
Definition remember (seen : list pystr) (k : pystr) : list pystr :=
  if existsb (str_eqb k) seen then seen else seen ++ [k].

Definition first_occurrences (l : list pystr) : list pystr :=
  fold_left remember l [].

(** The value of the last entry that declares [k]. *)
Fixpoint last_declared {V : Type} (entries : list (pystr * V)) (k : pystr)
  : option V :=
  match entries with
  | [] => None
  | (k', v) :: rest =>
      match last_declared rest k with
      | Some v' => Some v'
      | None => if str_eqb k k' then Some v else None
      end
  end.

(** What the specification describes: the declared entries scanned in
    declaration order, the first match winning. *)
Definition identify_service_declared (ip : pystr) : option pystr :=
  scan_signatures SERVICE_SIGNATURES_entries (lower ip).

(** The protocol tags of the parser's second expression. *)
Definition PROTOCOLS : list pystr :=
  map py ["TCP"; "UDP"; "SSL"; "TLS"; "HTTP"; "QUIC"]%string.

(** The statistics of a destination, the default when it is not there. *)
Definition stats_of (d : PyDict.dict DestinationStats) (k : pystr)
  : DestinationStats :=
  match PyDict.get d k with
  | Some st => st
  | None => default_stats
  end.

(** Sums over the values of a dict, over packets and over connections. *)
Definition dict_sum {V : Type} (f : V -> N) (d : PyDict.dict V) : N :=
  fold_right (fun e acc => f (snd e) + acc) 0 d.

Definition sum_sizes (pkts : list FlowRecord) : N :=
  fold_right (fun p acc => size p + acc) 0 pkts.

Definition sum_packets (conns : list ConnectionSummary) : N :=
  fold_right (fun c acc => packets c + acc) 0 conns.

Definition in_category (cat : pystr) (c : ConnectionSummary) : bool :=
  str_eqb cat (category c).

(** Descending order of a key. *)
Definition descending {A : Type} (key : A -> N) (l : list A) : Prop :=
  StronglySorted (fun a b => key b <= key a) l.

(** The categories that pass the guard of the breakdown, and the integer
    each one is displayed with. *)
Definition is_shown (total : N) (entry : pystr * N) : bool :=
  match shown_percent total (snd entry) with
  | Some _ => true
  | None => false
  end.

Definition rounded_percent (pct : spec_float) : N :=
  match pct with
  | S754_finite false m e => Float64.round_half_even m e
  | _ => 0
  end.

Definition displayed_percents (total : N) (ranked : list (pystr * N))
  : list N :=
  flat_map
    (fun e =>
       match shown_percent total (snd e) with
       | Some pct => [rounded_percent pct]
       | None => []
       end) ranked.

Definition shown_text (total : N) (entry : pystr * N) : pystr :=
  match shown_percent total (snd entry) with
  | Some pct => part_text (fst entry) pct
  | None => []
  end.

(** A record written with plain texts. *)
Definition flow (src dst : string) (port : N) (proto : string) (sz : N)
  : FlowRecord :=
  mkFlow (py src) (py dst) port (py proto) sz.

(** The port sets of the statistics hold no port twice. *)
Definition ports_distinct (d : PyDict.dict DestinationStats) : Prop :=
  forall k, NoDup (st_ports (stats_of d k)).

(** Exact values of binary64 numbers, for the bounds on the percentage. *)
Module B64.
Local Open Scope Z_scope.

(** The weight of exponent [e], scaled by [2^1074] so that it is an integer for
    every exponent of the format. *)
Definition w (e : Z) : Z := 2 ^ (e + 1074).

(** The exact value under rounding is [P / Q], scaled like [w]; [located]
    says where it lies between [m] and [m + 1] units of exponent [e]. *)
Definition located (P Q m e : Z) (l : location) : Prop :=
  match l with
  | loc_Exact => P = m * (w e * Q)
  | loc_Inexact Lt => m * (w e * Q) < P /\ 2 * P < (2 * m + 1) * (w e * Q)
  | loc_Inexact Eq => 2 * P = (2 * m + 1) * (w e * Q)
  | loc_Inexact Gt =>
      (2 * m + 1) * (w e * Q) < 2 * P /\ P < (m + 1) * (w e * Q)
  end.

Definition tracked (P Q : Z) (mrs : shr_record) (e : Z) : Prop :=
  0 <= shr_m mrs /\ -1074 <= e /\
  located P Q (shr_m mrs) e (loc_of_shr_record mrs).

(** 0.01 as a binary64 number. *)
Definition centi_m : Z := 5764607523034235.
Definition centi_e : Z := -59.

End B64.

(** ** Vocabulary of the further properties *)

(** The greedy loop of [Star] inside [rmatch], by name. *)
Section StarLoop.
Variables (r1 : regex) (k : pystr -> caps -> option caps).

Fixpoint star_loop (fuel : nat) (s : pystr) (c : caps) {struct fuel}
  : option caps :=
  match fuel with
  | O => k s c
  | S fuel' =>
      match
        rmatch r1 s c
          (fun s' c' =>
             if (List.length s' <? List.length s)%nat
             then star_loop fuel' s' c' else None)
      with
      | Some res => Some res
      | None => k s c
      end
  end.

End StarLoop.

(** What the parser looks for in a line. *)
Definition occurs (shape : pystr -> Prop) (line : pystr) : Prop :=
  exists before w after, line = before ++ w ++ after /\ shape w.

Definition all_of (p : char -> bool) (w : pystr) : Prop :=
  Forall (fun x => p x = true) w.

(** An address, blanks, the arrow, blanks, an address. *)
Definition address_pair (src dst : pystr) (w : pystr) : Prop :=
  exists sp1 sp2,
    w = src ++ sp1 ++ [arrow] ++ sp2 ++ dst /\
    src <> [] /\ all_of is_addr_char src /\
    all_of is_space sp1 /\ all_of is_space sp2 /\
    dst <> [] /\ all_of is_addr_char dst.

(** A protocol tag, at least one blank, digits. *)
Definition protocol_size (tag digits : pystr) (w : pystr) : Prop :=
  exists sp,
    w = tag ++ sp ++ digits /\
    In tag PROTOCOLS /\ sp <> [] /\ all_of is_space sp /\
    digits <> [] /\ all_of is_digit digits.

(** The arrow, blanks, digits. *)
Definition port_mark (digits : pystr) (w : pystr) : Prop :=
  exists sp,
    w = [arrow] ++ sp ++ digits /\
    all_of is_space sp /\ digits <> [] /\ all_of is_digit digits.

(** The port expression of the loop body. *)
Definition port_of_line (line : pystr) : option N :=
  match search re_port line with
  | Some port_match =>
      match group port_match 1 with
      | Some t => py_int t
      | None => None
      end
  | None => Some 0
  end.

(** The numbers that the loop body may read from a line: the digits after
    a protocol tag and its blanks, or after an arrow.  They fit when none
    has more digits than [int] takes. *)
Definition number_in (digits line : pystr) : Prop :=
  (exists tag, occurs (protocol_size tag digits) line) \/
  occurs (port_mark digits) line.

Definition numbers_fit (line : pystr) : Prop :=
  forall digits,
    number_in digits line ->
    N.of_nat (List.length digits) <= int_max_str_digits.

(** The capture as the script sees it: the lines read before the deadline
    or a failure of the read, those of them that the loop body takes before
    [int] raises on one, the records they give, and what ended the
    reading. *)
Fixpoint live_lines (events : list stream_event) : list pystr :=
  match events with
  | Line false text :: rest => text :: live_lines rest
  | _ => []
  end.

Fixpoint stop_event (events : list stream_event) : option stream_event :=
  match events with
  | Line false _ :: rest => stop_event rest
  | ev :: _ => Some ev
  | [] => None
  end.

Definition accepted_records (lines : list pystr) : list FlowRecord :=
  flat_map
    (fun text =>
       match parse_line text with
       | Accepted r => [r]
       | _ => []
       end) lines.

Fixpoint before_raise (lines : list pystr) : list pystr :=
  match lines with
  | [] => []
  | text :: rest =>
      match parse_line text with
      | Raised _ => []
      | _ => text :: before_raise rest
      end
  end.

Fixpoint first_raise (lines : list pystr) : option pystr :=
  match lines with
  | [] => None
  | text :: rest =>
      match parse_line text with
      | Raised e => Some e
      | _ => first_raise rest
      end
  end.

(** The exception that ends the reading, if one does: that of the loop
    body on a line, or that of the read after the lines. *)
Definition capture_failure (out : list stream_event) : option pystr :=
  match first_raise (live_lines out) with
  | Some e => Some e
  | None =>
      match stop_event out with
      | Some (ReadError e) => Some e
      | _ => None
      end
  end.

(** The packets that [main] hands to [summarize_traffic]. *)
Definition captured (proc : popen_outcome) : list FlowRecord :=
  match proc with
  | StartFails _ => []
  | Started out => accepted_records (before_raise (live_lines out))
  end.

(** The outbound records of a batch that go to one destination. *)
Definition to_destination (dst : pystr) (pkts : list FlowRecord)
  : list FlowRecord :=
  filter (fun p => is_outbound p && str_eqb dst (dst_ip p)) pkts.

(** Texts of ASCII characters: on them [lower] is [str.lower()]. *)
Definition is_ascii (c : char) : bool := c <? 128.

(** No keyword of an entry of the category table occurs in [s]. *)
Definition no_keyword (s : pystr) (e : pystr * list pystr) : Prop :=
  forall kw, In kw (snd e) -> ~ is_substring kw s.

(** The keywords that decide each of the two categories whose list repeats
    a keyword of an earlier category. *)
Definition communication_keywords : list pystr :=
  map py ["telegram"; "signal"; "discord"; "slack"; "messenger"; "gmail";
          "outlook"]%string.

Definition microsoft_keywords : list pystr :=
  map py ["microsoft"; "office"; "teams"]%string.

(** A direct reading of the port: the digits after the first arrow of the
    line that has digits after it, blanks apart. *)
Fixpoint skip_while (p : char -> bool) (s : pystr) : pystr :=
  match s with
  | x :: s' => if p x then skip_while p s' else s
  | [] => []
  end.

Fixpoint take_while (p : char -> bool) (s : pystr) : pystr :=
  match s with
  | x :: s' => if p x then x :: take_while p s' else []
  | [] => []
  end.

Fixpoint first_port_digits (line : pystr) : option pystr :=
  match line with
  | [] => None
  | x :: rest =>
      if arrow =? x then
        match take_while is_digit (skip_while is_space rest) with
        | [] => first_port_digits rest
        | digits => Some digits
        end
      else first_port_digits rest
  end.

(** * Properties *)

(** ** Strings *)

Lemma str_eqb_eq (a b : pystr) : str_eqb a b = true <-> a = b.
Proof.
  revert b; induction a as [|x a IH]; intros [|y b]; simpl;
    try (split; [discriminate | discriminate]); try tauto.
  rewrite andb_true_iff, N.eqb_eq, IH.
  split; [intros [-> ->]; reflexivity | intros H; inversion H; auto].
Qed.

Lemma str_eqb_refl (a : pystr) : str_eqb a a = true.
Proof. apply str_eqb_eq; reflexivity. Qed.

Lemma str_eqb_neq (a b : pystr) : str_eqb a b = false <-> a <> b.
Proof.
  rewrite <- str_eqb_eq. destruct (str_eqb a b); split; congruence.
Qed.

Lemma startswith_app (s p : pystr) :
  startswith s p = true <-> exists rest, s = p ++ rest.
Proof.
  revert s; induction p as [|x p IH]; intros s; simpl.
  - split; [intros _; exists s; reflexivity | reflexivity].
  - destruct s as [|y s].
    + split; [discriminate | intros [rest H]; discriminate].
    + rewrite andb_true_iff, N.eqb_eq, IH. split.
      * intros [-> [rest ->]]. exists rest; reflexivity.
      * intros [rest H]. inversion H; subst. split; [reflexivity|].
        exists rest; reflexivity.
Qed.

Lemma contains_substring (s p : pystr) :
  contains s p = true <-> is_substring p s.
Proof.
  unfold is_substring. induction s as [|y s IH].
  - simpl. rewrite orb_false_r, startswith_app. split.
    + intros [rest H]. exists [], rest. exact H.
    + intros [[|b before] [after H]].
      * exists after. exact H.
      * discriminate.
  - cbn [contains]. rewrite orb_true_iff, startswith_app, IH. split.
    + intros [[rest H] | [before [after H]]].
      * exists [], rest. exact H.
      * exists (y :: before), after. rewrite H. reflexivity.
    + intros [[|b before] [after H]].
      * left. exists after. exact H.
      * right. inversion H; subst. exists before, after. reflexivity.
Qed.

(** ** Dicts *)

Section DictFacts.
Context {V : Type}.
Implicit Types (d : PyDict.dict V) (k : pystr) (v : V).

Lemma get_set_same d k v : PyDict.get (PyDict.set d k v) k = Some v.
Proof.
  induction d as [|[k' v'] d IH]; simpl.
  - rewrite str_eqb_refl; reflexivity.
  - destruct (str_eqb k k') eqn:E; simpl; rewrite E; auto.
Qed.

Lemma get_set_other d k k' v :
  k' <> k -> PyDict.get (PyDict.set d k v) k' = PyDict.get d k'.
Proof.
  intros Hne. induction d as [|[k0 v0] d IH]; simpl.
  - apply str_eqb_neq in Hne. rewrite Hne; reflexivity.
  - destruct (str_eqb k k0) eqn:E; simpl.
    + apply str_eqb_eq in E; subst k0.
      apply str_eqb_neq in Hne. rewrite Hne; reflexivity.
    + rewrite IH; reflexivity.
Qed.

Lemma keys_set d k v :
  PyDict.keys (PyDict.set d k v) = remember (PyDict.keys d) k.
Proof.
  unfold remember, PyDict.keys.
  induction d as [|[k' v'] d IH]; simpl; [reflexivity|].
  destruct (str_eqb k k') eqn:E; simpl; [reflexivity|].
  rewrite IH. destruct (existsb (str_eqb k) (map fst d)); reflexivity.
Qed.

Lemma get_None_keys d k :
  PyDict.get d k = None <-> existsb (str_eqb k) (PyDict.keys d) = false.
Proof.
  unfold PyDict.keys. induction d as [|[k' v'] d IH]; simpl; [tauto|].
  destruct (str_eqb k k'); simpl; [split; discriminate | exact IH].
Qed.

Lemma keys_literal_from (entries : list (pystr * V)) d :
  PyDict.keys
    (fold_left (fun d kv => PyDict.set d (fst kv) (snd kv)) entries d)
  = fold_left remember (map fst entries) (PyDict.keys d).
Proof.
  revert d; induction entries as [|[k v] entries IH]; intros d; simpl;
    [reflexivity|].
  rewrite IH, keys_set; reflexivity.
Qed.

Lemma get_literal_from (entries : list (pystr * V)) d k :
  PyDict.get
    (fold_left (fun d kv => PyDict.set d (fst kv) (snd kv)) entries d) k
  = match last_declared entries k with
    | Some v => Some v
    | None => PyDict.get d k
    end.
Proof.
  revert d; induction entries as [|[k' v'] entries IH]; intros d; simpl;
    [reflexivity|].
  rewrite IH. destruct (last_declared entries k); [reflexivity|].
  destruct (str_eqb k k') eqn:E.
  - apply str_eqb_eq in E; subst k'. apply get_set_same.
  - apply str_eqb_neq in E. apply get_set_other; assumption.
Qed.

(** A dict display holds each key once, where it is first written, with
    the value written last. *)
Lemma keys_literal (entries : list (pystr * V)) :
  PyDict.keys (PyDict.literal entries) = first_occurrences (map fst entries).
Proof. apply (keys_literal_from entries []). Qed.

Lemma get_literal (entries : list (pystr * V)) k :
  PyDict.get (PyDict.literal entries) k = last_declared entries k.
Proof.
  unfold PyDict.literal. rewrite get_literal_from.
  destruct (last_declared entries k); reflexivity.
Qed.

End DictFacts.

(** ** Classifier *)

Lemma scan_signatures_first_match (table : list (pystr * pystr)) (s : pystr) :
  match scan_signatures table s with
  | Some service =>
      exists before pattern after,
        table = before ++ (pattern, service) :: after /\
        is_substring pattern s /\
        Forall (fun e => ~ is_substring (fst e) s) before
  | None => Forall (fun e => ~ is_substring (fst e) s) table
  end.
Proof.
  induction table as [|[pattern service] table IH]; simpl; [constructor|].
  destruct (contains s pattern) eqn:E.
  - exists [], pattern, table. repeat split; [|constructor].
    apply contains_substring; exact E.
  - assert (Hno : ~ is_substring pattern s).
    { rewrite <- contains_substring. congruence. }
    destruct (scan_signatures table s) as [svc|].
    + destruct IH as (before & pat & after & -> & Hin & Hbefore).
      exists ((pattern, service) :: before), pat, after.
      repeat split; [assumption | constructor; assumption].
    + constructor; assumption.
Qed.

(** C1, as amended.  The table is the dict that the display builds: its keys
    are the declared patterns, each at its first declaration, and the name
    under a key is the one of its last declaration.  [identify_service]
    returns the name under the first key, in that order, that is a
    substring of the lowercased address, and nothing when no key is.  For
    the pattern "52.", declared twice, the later name is the stored one. *)
Theorem identify_service_first_key_last_value (address : pystr) :
  SERVICE_SIGNATURES = PyDict.literal SERVICE_SIGNATURES_entries /\
  PyDict.keys SERVICE_SIGNATURES
    = first_occurrences (map fst SERVICE_SIGNATURES_entries) /\
  (forall k,
     PyDict.get SERVICE_SIGNATURES k
       = last_declared SERVICE_SIGNATURES_entries k) /\
  PyDict.get SERVICE_SIGNATURES (py "52.")
    = Some (py "Amazon AWS (shared with MS)") /\
  match identify_service address with
  | Some service =>
      exists before pattern after,
        PyDict.items SERVICE_SIGNATURES
          = before ++ (pattern, service) :: after /\
        is_substring pattern (lower address) /\
        Forall (fun e => ~ is_substring (fst e) (lower address)) before
  | None =>
      Forall (fun e => ~ is_substring (fst e) (lower address))
             (PyDict.items SERVICE_SIGNATURES)
  end.
Proof.
  assert (Hlit : SERVICE_SIGNATURES
                 = PyDict.literal SERVICE_SIGNATURES_entries)
    by (vm_compute; reflexivity).
  split; [exact Hlit|].
  split; [rewrite Hlit; apply keys_literal|].
  split; [intros k; rewrite Hlit; apply get_literal|].
  split; [vm_compute; reflexivity|].
  apply scan_signatures_first_match.
Qed.

(** C1, as stated, fails: an address under the twice declared "52." gets
    the later declared name, not the earlier one. *)
Lemma identify_service_later_duplicate_wins :
  identify_service (py "52.1.2.3") = Some (py "Amazon AWS (shared with MS)") /\
  identify_service_declared (py "52.1.2.3") = Some (py "Microsoft/Azure") /\
  identify_service (py "52.1.2.3")
    <> identify_service_declared (py "52.1.2.3").
Proof.
  split; [vm_compute; reflexivity|].
  split; [vm_compute; reflexivity|].
  vm_compute. discriminate.
Qed.

(** ** The matcher finds only matches *)

Lemma firstn_consumed (w s' : pystr) :
  firstn (List.length (w ++ s') - List.length s') (w ++ s') = w.
Proof.
  rewrite length_app, Nat.add_sub, firstn_app, Nat.sub_diag, firstn_all.
  simpl. apply app_nil_r.
Qed.

Lemma rmatch_sound (r : regex) :
  forall s c k res,
    rmatch r s c k = Some res ->
    exists w s' c', s = w ++ s' /\ matches r w c c' /\ k s' c' = Some res.
Proof.
  induction r as [ | p | r1 IH1 r2 IH2 | r1 IH1 r2 IH2 | r1 IH1 | i r1 IH1 ];
    intros s c k res H; simpl in H.
  - exists [], s, c. repeat split; [constructor | exact H].
  - destruct s as [|x s]; [discriminate|].
    destruct (p x) eqn:E; [|discriminate].
    exists [x], s, c. repeat split; [constructor; exact E | exact H].
  - apply IH1 in H. destruct H as (w1 & s1 & c1 & -> & M1 & H).
    apply IH2 in H. destruct H as (w2 & s2 & c2 & -> & M2 & H).
    exists (w1 ++ w2), s2, c2. rewrite app_assoc.
    repeat split; [econstructor; eassumption | exact H].
  - destruct (rmatch r1 s c k) eqn:E.
    + inversion H; subst. apply IH1 in E.
      destruct E as (w & s' & c' & -> & M & E).
      exists w, s', c'. repeat split; [apply M_or_l; exact M | exact E].
    + apply IH2 in H. destruct H as (w & s' & c' & -> & M & H).
      exists w, s', c'. repeat split; [apply M_or_r; exact M | exact H].
  - revert H. generalize (List.length s) at 1. intros fuel.
    revert s c. induction fuel as [|fuel IHf]; intros s c H.
    + exists [], s, c. repeat split; [constructor | exact H].
    + match type of H with
      | match ?m with _ => _ end = _ => destruct m eqn:E
      end.
      * inversion H; subst. apply IH1 in E.
        destruct E as (w1 & s1 & c1 & -> & M1 & E).
        destruct (List.length s1 <? List.length (w1 ++ s1))%nat;
          [|discriminate].
        apply IHf in E. destruct E as (w2 & s2 & c2 & -> & M2 & E).
        exists (w1 ++ w2), s2, c2. rewrite app_assoc.
        repeat split; [econstructor; eassumption | exact E].
      * exists [], s, c. repeat split; [constructor | exact H].
  - apply IH1 in H. destruct H as (w & s' & c' & -> & M & H).
    rewrite firstn_consumed in H.
    exists w, s', ((i, w) :: c'). repeat split; [constructor; exact M | exact H].
Qed.

(** A successful [re.search] has matched a piece of the text. *)
Lemma search_sound (r : regex) (s : pystr) (c : caps) :
  search r s = Some c ->
  exists before w after, s = before ++ w ++ after /\ matches r w [] c.
Proof.
  induction s as [|x s IH]; simpl; unfold match_here.
  - destruct (rmatch r [] [] (fun _ c0 => Some c0)) eqn:E; [|discriminate].
    intros H; inversion H; subst. apply rmatch_sound in E.
    destruct E as (w & s' & c' & Hs & M & E). inversion E; subst.
    exists [], w, s'. split; [exact Hs | exact M].
  - destruct (rmatch r (x :: s) [] (fun _ c0 => Some c0)) eqn:E.
    + intros H; inversion H; subst. apply rmatch_sound in E.
      destruct E as (w & s' & c' & Hs & M & E). inversion E; subst.
      exists [], w, s'. split; [exact Hs | exact M].
    + intros H. apply IH in H. destruct H as (before & w & after & -> & M).
      exists (x :: before), w, after. split; [reflexivity | exact M].
Qed.

Lemma matches_class_inv p w c c' :
  matches (Class p) w c c' -> exists x, w = [x] /\ p x = true /\ c' = c.
Proof. intros H; inversion H; subst. eauto. Qed.

Lemma matches_star_class p w c c' :
  matches (Star (Class p)) w c c' ->
  c' = c /\ Forall (fun x => p x = true) w.
Proof.
  intros H. remember (Star (Class p)) as r eqn:Er.
  induction H; try discriminate.
  - split; [reflexivity | constructor].
  - inversion Er; subst.
    apply matches_class_inv in H. destruct H as (x & -> & Hx & ->).
    destruct (IHmatches2 eq_refl) as [-> Hall].
    split; [reflexivity | constructor; assumption].
Qed.

Lemma matches_plus_class p w c c' :
  matches (Plus (Class p)) w c c' ->
  c' = c /\ w <> [] /\ Forall (fun x => p x = true) w.
Proof.
  intros H. inversion H; subst.
  match goal with
  | H1 : matches (Class p) _ _ _, H2 : matches (Star _) _ _ _ |- _ =>
      apply matches_class_inv in H1; destruct H1 as (x & -> & Hx & ->);
      apply matches_star_class in H2; destruct H2 as [-> Hall]
  end.
  repeat split; [discriminate | constructor; assumption].
Qed.

Lemma matches_lit t w c c' : matches (Lit t) w c c' -> w = t /\ c' = c.
Proof.
  revert w c c'; induction t as [|x t IH]; intros w c c' H; simpl in H;
    inversion H; subst; [auto|].
  match goal with
  | H1 : matches (Class _) _ _ _, H2 : matches (Lit t) _ _ _ |- _ =>
      apply matches_class_inv in H1; destruct H1 as (y & -> & Hy & ->);
      apply IH in H2; destruct H2 as [-> ->]
  end.
  apply N.eqb_eq in Hy; subst. auto.
Qed.

(** The groups of the three expressions of the parser. *)

Lemma re_addr_groups w c :
  matches re_addr w [] c ->
  exists src sp1 sp2 dst,
    w = src ++ sp1 ++ [arrow] ++ sp2 ++ dst /\
    c = [(2%nat, dst); (1%nat, src)] /\
    src <> [] /\ Forall (fun x => is_addr_char x = true) src /\
    dst <> [] /\ Forall (fun x => is_addr_char x = true) dst.
Proof.
  unfold re_addr. intros H.
  inversion H as [ | | ? ? w1 r1 ? ? ? G1 T1 | | | | | ]; subst; clear H.
  inversion G1; subst; clear G1.
  inversion T1 as [ | | ? ? w2 r2 ? ? ? S1 T2 | | | | | ]; subst; clear T1.
  inversion T2 as [ | | ? ? w3 r3 ? ? ? A T3 | | | | | ]; subst; clear T2.
  inversion T3 as [ | | ? ? w4 r4 ? ? ? S2 G2 | | | | | ]; subst; clear T3.
  inversion G2; subst; clear G2.
  repeat match goal with
  | H : matches (Plus _) _ _ _ |- _ =>
      apply matches_plus_class in H; destruct H as (? & ? & ?); subst
  | H : matches (Star _) _ _ _ |- _ =>
      apply matches_star_class in H; destruct H as (? & ?); subst
  | H : matches (Class _) _ _ _ |- _ =>
      apply matches_class_inv in H; destruct H as (? & ? & Ha & ?); subst;
      apply N.eqb_eq in Ha; subst
  end.
  do 4 eexists. repeat split; eauto.
Qed.

Lemma matches_or_inv r1 r2 w c c' :
  matches (Or r1 r2) w c c' -> matches r1 w c c' \/ matches r2 w c c'.
Proof. intros H; inversion H; subst; auto. Qed.

Lemma matches_protocol_tag w c c' :
  matches
    (Or (Lit (py "TCP")) (Or (Lit (py "UDP")) (Or (Lit (py "SSL"))
      (Or (Lit (py "TLS")) (Or (Lit (py "HTTP")) (Lit (py "QUIC")))))))
    w c c' ->
  In w PROTOCOLS /\ c' = c.
Proof.
  intros H.
  repeat (apply matches_or_inv in H; destruct H as [H|H]);
    apply matches_lit in H; destruct H as [-> ->];
    (split; [vm_compute; repeat (first [left; reflexivity | right])
            | reflexivity]).
Qed.

Lemma re_proto_groups w c :
  matches re_proto w [] c ->
  exists tag sp digits,
    w = tag ++ sp ++ digits /\
    c = [(2%nat, digits); (1%nat, tag)] /\
    In tag PROTOCOLS /\
    digits <> [] /\ Forall (fun x => is_digit x = true) digits.
Proof.
  unfold re_proto. intros H.
  inversion H as [ | | ? ? w1 r1 ? ? ? G1 T1 | | | | | ]; subst; clear H.
  inversion G1 as [ | | | | | | | ? ? ? ? cg Alt ]; subst; clear G1.
  apply matches_protocol_tag in Alt. destruct Alt as [Htag ->].
  inversion T1 as [ | | ? ? w2 r2 ? ? ? S1 G2 | | | | | ]; subst; clear T1.
  inversion G2; subst; clear G2.
  repeat match goal with
  | H : matches (Plus _) _ _ _ |- _ =>
      apply matches_plus_class in H; destruct H as (? & ? & ?); subst
  end.
  do 3 eexists. repeat split; eauto.
Qed.

Lemma re_port_groups w c :
  matches re_port w [] c ->
  exists sp digits,
    w = [arrow] ++ sp ++ digits /\
    c = [(1%nat, digits)] /\
    digits <> [] /\ Forall (fun x => is_digit x = true) digits.
Proof.
  unfold re_port. intros H.
  inversion H as [ | | ? ? w1 r1 ? ? ? A T1 | | | | | ]; subst; clear H.
  inversion T1 as [ | | ? ? w2 r2 ? ? ? S1 G2 | | | | | ]; subst; clear T1.
  inversion G2; subst; clear G2.
  repeat match goal with
  | H : matches (Plus _) _ _ _ |- _ =>
      apply matches_plus_class in H; destruct H as (? & ? & ?); subst
  | H : matches (Star _) _ _ _ |- _ =>
      apply matches_star_class in H; destruct H as (? & ?); subst
  | H : matches (Class _) _ _ _ |- _ =>
      apply matches_class_inv in H; destruct H as (? & ? & Ha & ?); subst;
      apply N.eqb_eq in Ha; subst
  end.
  do 2 eexists. repeat split; eauto.
Qed.

(** On a [\d+] group [int] raises exactly when the group has more digits
    than the limit. *)
Lemma int_digits_total (s : pystr) :
  Forall (fun x => is_digit x = true) s ->
  forall acc, exists n, int_digits acc s = Some n.
Proof.
  induction 1 as [|x s Hx _ IH]; intros acc; simpl.
  - eauto.
  - unfold is_digit in Hx. destruct (digit_value x); [apply IH | discriminate].
Qed.

Lemma py_int_total (s : pystr) :
  s <> [] -> Forall (fun x => is_digit x = true) s ->
  N.of_nat (List.length s) <= int_max_str_digits ->
  exists n, py_int s = Some n.
Proof.
  intros Hne Hall Hlen. destruct s as [|x s]; [contradiction|].
  unfold py_int.
  replace (int_max_str_digits <? N.of_nat (List.length (x :: s))) with false
    by (symmetry; apply N.ltb_ge; exact Hlen).
  apply (int_digits_total _ Hall).
Qed.

Lemma py_int_refuses (s : pystr) :
  s <> [] -> Forall (fun x => is_digit x = true) s ->
  py_int s = None ->
  int_max_str_digits < N.of_nat (List.length s).
Proof.
  intros Hne Hall E.
  destruct (N.ltb_spec int_max_str_digits (N.of_nat (List.length s)))
    as [Hlt|Hle]; [exact Hlt|].
  destruct (py_int_total s Hne Hall Hle) as [n Hn]. congruence.
Qed.

Lemma py_int_length (s : pystr) (n : N) :
  py_int s = Some n -> N.of_nat (List.length s) <= int_max_str_digits.
Proof.
  unfold py_int. destruct s as [|x s]; [discriminate|].
  destruct (N.ltb_spec int_max_str_digits (N.of_nat (List.length (x :: s))));
    [discriminate | auto].
Qed.

(** ** Flow line parser *)

(** The loop body, by what the expressions find. *)
Lemma parse_line_cases (line : pystr) :
  match search re_addr line, search re_proto line with
  | Some m, Some proto_match =>
      exists src dst proto size_text,
        group m 1 = Some src /\ group m 2 = Some dst /\
        group proto_match 1 = Some proto /\
        group proto_match 2 = Some size_text /\
        match py_int size_text with
        | None => parse_line line = Raised (int_error size_text)
        | Some sz =>
            match search re_port line with
            | None => parse_line line = Accepted (mkFlow src dst 0 proto sz)
            | Some port_match =>
                exists t,
                  group port_match 1 = Some t /\
                  match py_int t with
                  | Some port =>
                      parse_line line
                      = Accepted (mkFlow src dst port proto sz)
                  | None => parse_line line = Raised (int_error t)
                  end
            end
        end
  | _, _ => parse_line line = Rejected
  end.
Proof.
  unfold parse_line.
  destruct (search re_addr line) as [m|] eqn:Ea; [|reflexivity].
  destruct (search re_proto line) as [pm|] eqn:Ep.
  - apply search_sound in Ea. destruct Ea as (b1 & w1 & a1 & _ & M1).
    apply re_addr_groups in M1.
    destruct M1 as (src & sp1 & sp2 & dst & _ & -> & _).
    apply search_sound in Ep. destruct Ep as (b2 & w2 & a2 & _ & M2).
    apply re_proto_groups in M2.
    destruct M2 as (tag & sp & digits & _ & -> & _).
    exists src, dst, tag, digits.
    cbn [group Nat.eqb].
    do 4 (split; [reflexivity|]).
    destruct (py_int digits) as [sz|]; [|reflexivity].
    destruct (search re_port line) as [c|] eqn:E; [|reflexivity].
    apply search_sound in E. destruct E as (b & w & a & _ & M).
    apply re_port_groups in M. destruct M as (sp' & t & _ & -> & _).
    exists t. cbn [group Nat.eqb]. split; [reflexivity|].
    destruct (py_int t); reflexivity.
  - apply search_sound in Ea. destruct Ea as (b1 & w1 & a1 & _ & M1).
    apply re_addr_groups in M1.
    destruct M1 as (src & sp1 & sp2 & dst & _ & -> & _). reflexivity.
Qed.

(** What the grammar asks of a line: one without the arrow, or without any
    of the protocol tags, is rejected. *)
Lemma parse_line_needs_arrow (line : pystr) :
  ~ In arrow line -> parse_line line = Rejected.
Proof.
  intros Hno. unfold parse_line.
  destruct (search re_addr line) as [m|] eqn:Ea; [|reflexivity].
  exfalso. apply search_sound in Ea. destruct Ea as (b & w & a & -> & M).
  apply re_addr_groups in M. destruct M as (src & sp1 & sp2 & dst & -> & _).
  apply Hno. rewrite !in_app_iff. simpl. tauto.
Qed.

Lemma parse_line_needs_protocol (line : pystr) :
  (forall tag, In tag PROTOCOLS -> ~ is_substring tag line) ->
  parse_line line = Rejected.
Proof.
  intros Hno.
  pose proof (parse_line_cases line) as H.
  destruct (search re_addr line) as [m|]; [|apply H].
  destruct (search re_proto line) as [pm|] eqn:Ep; [|apply H].
  exfalso. apply search_sound in Ep. destruct Ep as (b & w & a & -> & M).
  apply re_proto_groups in M.
  destruct M as (tag & sp & digits & -> & _ & Htag & _).
  apply (Hno tag Htag). exists b, (sp ++ digits ++ a).
  rewrite <- !app_assoc. reflexivity.
Qed.

(** C3, on the line of the comment in [capture_traffic], its destination
    written out: the port stored is the number read after the first arrow,
    the head of the destination address, not the 443 that follows the
    second arrow. *)
Lemma dst_port_read_at_first_arrow :
  parse_line
    (py "    1 0.000000000 fd42:42:42::2 → 2a03:2880:f10a:83:face:b00c:0:25de UDP 160 54148 → 443 Len=112")
  = Accepted
      (flow "fd42:42:42::2" "2a03:2880:f10a:83:face:b00c:0:25de" 2 "UDP" 160).
Proof. vm_compute. reflexivity. Qed.

(** Where the destination starts with a letter the first arrow is not
    followed by a digit, and the port after the second arrow is found. *)
Lemma dst_port_read_at_second_arrow :
  parse_line
    (py "    1 0.000000000 fd42:42:42::2 → fd00:2880::1 UDP 160 54148 → 443 Len=112")
  = Accepted (flow "fd42:42:42::2" "fd00:2880::1" 443 "UDP" 160).
Proof. vm_compute. reflexivity. Qed.

(** ** Aggregator *)

Lemma count_packet_inbound d (p : FlowRecord) :
  is_outbound p = false -> count_packet d p = d.
Proof. unfold count_packet. intros ->. reflexivity. Qed.

Lemma count_packet_outbound d (p : FlowRecord) :
  is_outbound p = true ->
  count_packet d p
  = PyDict.set d (dst_ip p)
      (mkStats (st_packets (stats_of d (dst_ip p)) + 1)
               (st_bytes (stats_of d (dst_ip p)) + size p)
               (set_add N.eq_dec (dst_port p)
                        (st_ports (stats_of d (dst_ip p))))).
Proof. unfold count_packet, stats_of. intros ->. reflexivity. Qed.

Lemma fold_count_filter (pkts : list FlowRecord) :
  forall d,
    fold_left count_packet pkts d
    = fold_left count_packet (filter is_outbound pkts) d.
Proof.
  induction pkts as [|p pkts IH]; intros d; simpl; [reflexivity|].
  destruct (is_outbound p) eqn:E; simpl.
  - apply IH.
  - rewrite count_packet_inbound by exact E. apply IH.
Qed.

(** Records that are not outbound leave no trace in the statistics. *)
Lemma aggregate_filter (pkts : list FlowRecord) :
  aggregate pkts = aggregate (filter is_outbound pkts).
Proof. apply fold_count_filter. Qed.

Lemma filter_none {A : Type} (f : A -> bool) (l : list A) :
  Forall (fun x => f x = false) l -> filter f l = [].
Proof.
  induction 1 as [|x l Hx _ IH]; simpl; [reflexivity|].
  rewrite Hx. exact IH.
Qed.

Lemma stats_of_count_same d (p : FlowRecord) :
  is_outbound p = true ->
  stats_of (count_packet d p) (dst_ip p)
  = mkStats (st_packets (stats_of d (dst_ip p)) + 1)
            (st_bytes (stats_of d (dst_ip p)) + size p)
            (set_add N.eq_dec (dst_port p)
                     (st_ports (stats_of d (dst_ip p)))).
Proof.
  intros H. rewrite count_packet_outbound by exact H.
  unfold stats_of at 1. rewrite get_set_same. reflexivity.
Qed.

Lemma ports_distinct_count d (p : FlowRecord) :
  ports_distinct d -> ports_distinct (count_packet d p).
Proof.
  intros Hd k. destruct (is_outbound p) eqn:E.
  - destruct (list_eq_dec N.eq_dec k (dst_ip p)) as [->|Hne].
    + rewrite stats_of_count_same by exact E. simpl.
      apply set_add_nodup, Hd.
    + rewrite count_packet_outbound by exact E.
      unfold stats_of. rewrite get_set_other by exact Hne. apply Hd.
  - rewrite count_packet_inbound by exact E. apply Hd.
Qed.

Lemma ports_distinct_aggregate (pkts : list FlowRecord) :
  ports_distinct (aggregate pkts).
Proof.
  unfold aggregate.
  assert (H : forall d, ports_distinct d ->
                        ports_distinct (fold_left count_packet pkts d)).
  { induction pkts as [|p pkts IH]; intros d Hd; simpl; [exact Hd|].
    apply IH, ports_distinct_count, Hd. }
  apply H. intros k. unfold stats_of. simpl. constructor.
Qed.

(** C9.  Two outbound records to one destination, of sizes [a] and [b],
    add [a + b] to its bytes, as one record of size [a + b] does; they
    count as two packets where the one record counts as one; and the ports
    of the destination become its former ports together with the two
    ports, each port held once. *)
Theorem aggregation_additive
  (pkts : list FlowRecord) (r1 r2 : FlowRecord) :
  is_outbound r1 = true -> is_outbound r2 = true ->
  dst_ip r1 = dst_ip r2 ->
  let d := aggregate pkts in
  let dst := dst_ip r1 in
  let merged :=
    mkFlow (src_ip r1) dst (dst_port r1) (protocol r1) (size r1 + size r2) in
  let base := stats_of d dst in
  let two := stats_of (count_packet (count_packet d r1) r2) dst in
  let one := stats_of (count_packet d merged) dst in
  st_bytes two = st_bytes one /\
  st_bytes two = st_bytes base + size r1 + size r2 /\
  st_packets two = st_packets base + 2 /\
  st_packets one = st_packets base + 1 /\
  (forall p,
     set_In p (st_ports two)
     <-> p = dst_port r1 \/ p = dst_port r2 \/ set_In p (st_ports base)) /\
  NoDup (st_ports two).
Proof.
  intros H1 H2 Hdst d dst merged base two one.
  assert (Hm : is_outbound merged = true) by exact H1.
  assert (Htwo : two
    = mkStats (st_packets base + 1 + 1) (st_bytes base + size r1 + size r2)
        (set_add N.eq_dec (dst_port r2)
           (set_add N.eq_dec (dst_port r1) (st_ports base)))).
  { unfold two, dst. rewrite Hdst.
    rewrite (stats_of_count_same _ r2 H2). rewrite <- Hdst.
    rewrite (stats_of_count_same _ r1 H1). reflexivity. }
  assert (Hone : one
    = mkStats (st_packets base + 1) (st_bytes base + (size r1 + size r2))
        (set_add N.eq_dec (dst_port r1) (st_ports base))).
  { unfold one. apply (stats_of_count_same d merged Hm). }
  rewrite Htwo, Hone. simpl. repeat split; try lia.
  - intros Hin. apply set_add_elim in Hin. destruct Hin as [->|Hin]; [tauto|].
    apply set_add_elim in Hin. tauto.
  - intros [->|[->|Hin]].
    + apply set_add_intro1, set_add_intro2. reflexivity.
    + apply set_add_intro2. reflexivity.
    + apply set_add_intro1, set_add_intro1. exact Hin.
  - apply set_add_nodup, set_add_nodup, ports_distinct_aggregate.
Qed.

Lemma aggregation_additive_witness :
  let r1 := flow "10.66.66.2" "1.1.1.1" 443 "UDP" 64 in
  let r2 := flow "fd42:42:42::2" "1.1.1.1" 443 "TCP" 36 in
  let two := stats_of (count_packet (count_packet (aggregate [r2]) r1) r2)
                      (py "1.1.1.1") in
  st_bytes two = 136 /\ st_packets two = 3 /\ st_ports two = [443].
Proof.
  pose (r1 := flow "10.66.66.2" "1.1.1.1" 443 "UDP" 64).
  pose (r2 := flow "fd42:42:42::2" "1.1.1.1" 443 "TCP" 36).
  destruct (aggregation_additive [r2] r1 r2 eq_refl eq_refl eq_refl)
    as (_ & Hb & Hp & _).
  split; [exact Hb|]. split; [exact Hp|]. vm_compute. reflexivity.
Defined.

(** ** Ranking *)

Lemma in_firstn {A : Type} (n : nat) (l : list A) (x : A) :
  In x (firstn n l) -> In x l.
Proof.
  revert n; induction l as [|y l IH]; intros [|n]; simpl; try tauto.
  intros [->|H]; [tauto | right; eapply IH; exact H].
Qed.

Section Ranking.
Context {A : Type} (key : A -> N).

Lemma insert_desc_perm (x : A) (l : list A) :
  Permutation (insert_desc key x l) (x :: l).
Proof.
  induction l as [|y l IH]; simpl; [reflexivity|].
  destruct (key x <? key y); [|reflexivity].
  rewrite IH. apply perm_swap.
Qed.

Lemma sorted_desc_perm (l : list A) : Permutation (sorted_desc key l) l.
Proof.
  induction l as [|x l IH]; simpl; [reflexivity|].
  rewrite insert_desc_perm, IH. reflexivity.
Qed.

Lemma insert_desc_descending (x : A) (l : list A) :
  descending key l -> descending key (insert_desc key x l).
Proof.
  unfold descending. induction 1 as [|y l Hl IH Hy]; simpl.
  - repeat constructor.
  - destruct (key x <? key y) eqn:E.
    + apply N.ltb_lt in E. constructor; [exact IH|].
      rewrite insert_desc_perm. constructor; [lia | exact Hy].
    + apply N.ltb_ge in E. constructor.
      * constructor; assumption.
      * constructor; [exact E|].
        eapply Forall_impl; [|exact Hy]. simpl. intros; lia.
Qed.

Lemma sorted_desc_descending (l : list A) : descending key (sorted_desc key l).
Proof.
  induction l as [|x l IH]; simpl; [constructor|].
  apply insert_desc_descending, IH.
Qed.

Lemma descending_firstn (n : nat) (l : list A) :
  descending key l -> descending key (firstn n l).
Proof.
  unfold descending. intros H; revert n.
  induction H as [|y l Hl IH Hy]; intros [|n]; simpl; try constructor.
  - apply IH.
  - rewrite Forall_forall in *. intros z Hz. apply Hy.
    eapply in_firstn. exact Hz.
Qed.

Lemma descending_filter (f : A -> bool) (l : list A) :
  descending key l -> descending key (filter f l).
Proof.
  unfold descending. induction 1 as [|y l Hl IH Hy]; simpl; [constructor|].
  destruct (f y); [|exact IH]. constructor; [exact IH|].
  rewrite Forall_forall in *. intros z Hz. apply Hy.
  apply filter_In in Hz. tauto.
Qed.

End Ranking.

Lemma descending_map {A B : Type} (f : A -> B) (ka : A -> N) (kb : B -> N)
  (l : list A) :
  (forall a, kb (f a) = ka a) ->
  descending ka l -> descending kb (map f l).
Proof.
  unfold descending. intros Hk. induction 1 as [|y l Hl IH Hy]; simpl;
    constructor; [exact IH|].
  rewrite Forall_map. eapply Forall_impl; [|exact Hy].
  simpl. intros a. rewrite !Hk. trivial.
Qed.

(** ** Sums *)

Lemma dict_sum_perm {V : Type} (f : V -> N) (d d' : PyDict.dict V) :
  Permutation d d' -> dict_sum f d = dict_sum f d'.
Proof.
  unfold dict_sum. induction 1; simpl; lia.
Qed.

Lemma dict_sum_set {V : Type} (f : V -> N) (d : PyDict.dict V) k v :
  dict_sum f (PyDict.set d k v)
  + match PyDict.get d k with Some old => f old | None => 0 end
  = dict_sum f d + f v.
Proof.
  induction d as [|[k' v'] d IH]; simpl; [lia|].
  destruct (str_eqb k k'); simpl; lia.
Qed.

Lemma bytes_resolve e : bytes (resolve e) = st_bytes (snd e).
Proof. destruct e; reflexivity. Qed.

Lemma packets_resolve e : packets (resolve e) = st_packets (snd e).
Proof. destruct e; reflexivity. Qed.

Lemma sum_bytes_all_connections d :
  sum_bytes (all_connections d) = dict_sum st_bytes d.
Proof.
  unfold all_connections.
  rewrite <- (dict_sum_perm st_bytes _ _
                (sorted_desc_perm (fun e => st_bytes (snd e)) d)).
  unfold PyDict.items.
  induction (sorted_desc (fun e => st_bytes (snd e)) d) as [|e l IH];
    simpl; [reflexivity|].
  rewrite bytes_resolve, IH. reflexivity.
Qed.

Lemma sum_packets_all_connections d :
  sum_packets (all_connections d) = dict_sum st_packets d.
Proof.
  unfold all_connections.
  rewrite <- (dict_sum_perm st_packets _ _
                (sorted_desc_perm (fun e => st_bytes (snd e)) d)).
  unfold PyDict.items.
  induction (sorted_desc (fun e => st_bytes (snd e)) d) as [|e l IH];
    simpl; [reflexivity|].
  rewrite packets_resolve, IH. reflexivity.
Qed.

Lemma dict_sum_bytes_count d (p : FlowRecord) :
  is_outbound p = true ->
  dict_sum st_bytes (count_packet d p) = dict_sum st_bytes d + size p.
Proof.
  intros H. rewrite count_packet_outbound by exact H.
  pose proof (dict_sum_set st_bytes d (dst_ip p)
    (mkStats (st_packets (stats_of d (dst_ip p)) + 1)
             (st_bytes (stats_of d (dst_ip p)) + size p)
             (set_add N.eq_dec (dst_port p)
                      (st_ports (stats_of d (dst_ip p)))))) as E.
  unfold stats_of in *. destruct (PyDict.get d (dst_ip p)); simpl in *; lia.
Qed.

Lemma dict_sum_packets_count d (p : FlowRecord) :
  is_outbound p = true ->
  dict_sum st_packets (count_packet d p) = dict_sum st_packets d + 1.
Proof.
  intros H. rewrite count_packet_outbound by exact H.
  pose proof (dict_sum_set st_packets d (dst_ip p)
    (mkStats (st_packets (stats_of d (dst_ip p)) + 1)
             (st_bytes (stats_of d (dst_ip p)) + size p)
             (set_add N.eq_dec (dst_port p)
                      (st_ports (stats_of d (dst_ip p)))))) as E.
  unfold stats_of in *. destruct (PyDict.get d (dst_ip p)); simpl in *; lia.
Qed.

Lemma fold_count_sums (pkts : list FlowRecord) :
  forall d,
    dict_sum st_bytes (fold_left count_packet pkts d)
    = dict_sum st_bytes d + sum_sizes (filter is_outbound pkts) /\
    dict_sum st_packets (fold_left count_packet pkts d)
    = dict_sum st_packets d
      + N.of_nat (List.length (filter is_outbound pkts)) /\
    PyDict.keys (fold_left count_packet pkts d)
    = fold_left remember (map dst_ip (filter is_outbound pkts))
                (PyDict.keys d).
Proof.
  induction pkts as [|p pkts IH]; intros d; simpl.
  - repeat split; lia.
  - destruct (IH (count_packet d p)) as (Hb & Hp & Hk).
    rewrite Hb, Hp, Hk. destruct (is_outbound p) eqn:E.
    + rewrite dict_sum_bytes_count, dict_sum_packets_count by exact E.
      rewrite count_packet_outbound at 1 by exact E. rewrite keys_set.
      cbn [filter map fold_left sum_sizes fold_right List.length].
      fold (sum_sizes (filter is_outbound pkts)).
      repeat split; lia.
    + rewrite count_packet_inbound by exact E. repeat split; reflexivity.
Qed.

(** The statistics hold the bytes and the packets of the outbound records,
    under their destinations in order of first appearance. *)
Lemma aggregate_sums (pkts : list FlowRecord) :
  dict_sum st_bytes (aggregate pkts) = sum_sizes (filter is_outbound pkts) /\
  dict_sum st_packets (aggregate pkts)
  = N.of_nat (List.length (filter is_outbound pkts)) /\
  PyDict.keys (aggregate pkts)
  = first_occurrences (map dst_ip (filter is_outbound pkts)).
Proof.
  destruct (fold_count_sums pkts []) as (Hb & Hp & Hk).
  unfold aggregate. rewrite Hb, Hp, Hk. repeat split.
Qed.

(** ** Summary builder *)

Lemma get_category_totals_from (conns : list ConnectionSummary) cat :
  forall d,
    PyDict.get (fold_left add_category conns d) cat
    = if existsb (in_category cat) conns
      then Some (match PyDict.get d cat with Some b => b | None => 0 end
                 + sum_bytes (filter (in_category cat) conns))
      else PyDict.get d cat.
Proof.
  induction conns as [|c conns IH]; intros d; simpl; [reflexivity|].
  rewrite IH. unfold add_category.
  destruct (in_category cat c) eqn:E; simpl.
  - apply str_eqb_eq in E. subst cat. rewrite get_set_same.
    destruct (existsb (in_category (category c)) conns) eqn:Ex.
    + f_equal. lia.
    + f_equal. assert (Hf : filter (in_category (category c)) conns = []).
      { apply filter_none. rewrite Forall_forall. intros x Hx.
        destruct (in_category (category c) x) eqn:Ei; [|reflexivity].
        rewrite <- Ex. symmetry. apply existsb_exists. eauto. }
      rewrite Hf. simpl. lia.
  - apply str_eqb_neq in E. rewrite get_set_other by exact E. reflexivity.
Qed.

(** The sum kept for a category is over every connection of the category. *)
Lemma get_category_totals (conns : list ConnectionSummary) cat :
  PyDict.get (category_totals conns) cat
  = if existsb (in_category cat) conns
    then Some (sum_bytes (filter (in_category cat) conns))
    else None.
Proof.
  unfold category_totals. rewrite get_category_totals_from. reflexivity.
Qed.

Lemma activity_parts_shown (total : N) (ranked : list (pystr * N)) :
  activity_parts total ranked
  = map (shown_text total) (filter (is_shown total) ranked).
Proof.
  induction ranked as [|[cat b] ranked IH]; [reflexivity|].
  cbn [activity_parts activity_part filter].
  unfold is_shown at 1. cbn [snd]. rewrite IH.
  destruct (shown_percent total b) eqn:E; [|reflexivity].
  cbn [map]. unfold shown_text at 2. cbn [fst snd]. rewrite E. reflexivity.
Qed.

Lemma sum_packets_firstn (n : nat) (conns : list ConnectionSummary) :
  sum_packets (firstn n conns) <= sum_packets conns.
Proof.
  revert n; induction conns as [|c conns IH]; intros [|n]; simpl; try lia.
  specialize (IH n). lia.
Qed.

Lemma length_all_connections d :
  List.length (all_connections d) = List.length d.
Proof.
  unfold all_connections. rewrite length_map.
  apply Permutation_length, sorted_desc_perm.
Qed.

Lemma descending_all_connections d : descending bytes (all_connections d).
Proof.
  unfold all_connections.
  apply (descending_map resolve (fun e => st_bytes (snd e)) bytes).
  - apply bytes_resolve.
  - apply sorted_desc_descending.
Qed.

Lemma aggregate_no_outbound (pkts : list FlowRecord) :
  Forall (fun p => is_outbound p = false) pkts -> aggregate pkts = [].
Proof.
  intros H. rewrite aggregate_filter, (filter_none _ _ H). reflexivity.
Qed.

(** C6.  Of a batch that is not empty, the connection list is the first 20
    of all the resolved connections ranked by descending bytes, one per
    destination; the total, the sum of each category and the breakdown text
    are taken over all of them. *)
Theorem connections_top20_totals_over_all
  (now : pystr) (p : FlowRecord) (pkts : list FlowRecord) :
  let s := summarize_traffic now (p :: pkts) in
  let conns := all_connections (aggregate (p :: pkts)) in
  connections s = firstn 20 conns /\
  (List.length (connections s) <= 20)%nat /\
  List.length conns = List.length (aggregate (p :: pkts)) /\
  descending bytes conns /\
  descending bytes (connections s) /\
  total_bytes s = sum_bytes conns /\
  (forall cat,
     PyDict.get (category_totals conns) cat
     = if existsb (in_category cat) conns
       then Some (sum_bytes (filter (in_category cat) conns))
       else None) /\
  activity_summary s
  = match
      activity_parts (sum_bytes conns)
        (sorted_desc snd (PyDict.items (category_totals conns)))
    with
    | [] => py "Minimal activity"
    | parts => join (py " | ") parts
    end.
Proof.
  intros s conns.
  assert (Hc : connections s = firstn 20 conns) by reflexivity.
  split; [exact Hc|].
  split; [rewrite Hc; apply firstn_le_length|].
  split; [apply length_all_connections|].
  split; [apply descending_all_connections|].
  split; [rewrite Hc; apply descending_firstn, descending_all_connections|].
  split; [reflexivity|].
  split; [intros cat; apply get_category_totals|].
  unfold s, summarize_traffic. cbn [activity_summary]. fold conns.
  destruct (activity_parts _ _); reflexivity.
Qed.

(** With 21 destinations the last in rank is cut from the list, yet its
    category is in the breakdown. *)
Lemma breakdown_counts_beyond_top20 :
  let unknown :=
    map (fun k => mkFlow (py "10.66.66.2") (py "9.9.9." ++ str_of_N k) 443
                         (py "TCP") 100)
        (map N.of_nat (seq 1 20)) in
  let s := summarize_traffic (py "2026-01-01T00:00:00")
             (unknown ++ [flow "10.66.66.2" "1.1.1.1" 53 "UDP" 50]) in
  unique_destinations s = 21 /\
  List.length (connections s) = 20%nat /\
  existsb (in_category (py "cloud")) (connections s) = false /\
  total_bytes s = 2050 /\
  activity_summary s = py "other: 98% | cloud: 2%".
Proof. vm_compute. repeat split. Qed.

(** C2, as amended.  A batch none of whose records is outbound gives the
    fixed empty summary only when it is empty; otherwise the records are
    still counted in the total packet count, the byte count, the
    destination count and the connection list are empty, and the text is
    "Minimal activity". *)
Theorem summary_without_outbound_records
  (now : pystr) (pkts : list FlowRecord) :
  Forall (fun p => is_outbound p = false) pkts ->
  summarize_traffic now pkts
  = match pkts with
    | [] => mkSummary now 0 0 0 [] (py "No traffic captured")
    | _ => mkSummary now (N.of_nat (List.length pkts)) 0 0 []
                     (py "Minimal activity")
    end.
Proof.
  intros H. destruct pkts as [|p pkts]; [reflexivity|].
  unfold summarize_traffic. rewrite (aggregate_no_outbound _ H). reflexivity.
Qed.

Lemma summary_without_outbound_records_witness :
  summarize_traffic (py "2026-01-01T00:00:00")
    [flow "1.1.1.1" "10.66.66.2" 51820 "UDP" 64;
     flow "8.8.8.8" "10.66.66.2" 51820 "TCP" 40]
  = mkSummary (py "2026-01-01T00:00:00") 2 0 0 [] (py "Minimal activity").
Proof.
  apply (summary_without_outbound_records (py "2026-01-01T00:00:00")
           [flow "1.1.1.1" "10.66.66.2" 51820 "UDP" 64;
            flow "8.8.8.8" "10.66.66.2" 51820 "TCP" 40]).
  repeat constructor.
Defined.

(** C2, as stated, fails: one record that is not outbound is not
    aggregated, and the summary is not the empty one. *)
Lemma inbound_batch_summary_not_empty :
  let pkts := [flow "1.1.1.1" "10.66.66.2" 51820 "UDP" 64] in
  let s := summarize_traffic (py "2026-01-01T00:00:00") pkts in
  forallb (fun p => negb (is_outbound p)) pkts = true /\
  aggregate pkts = [] /\
  total_packets s = 1 /\
  activity_summary s = py "Minimal activity" /\
  total_packets s <> 0 /\
  activity_summary s <> py "No traffic captured".
Proof.
  vm_compute. repeat split; discriminate.
Qed.

(** C4, as amended.  One outbound record of 64 bytes over UDP, to an
    address that resolves to "Cloudflare DNS", gives one connection, of
    that service, 1 packet and 64 bytes, in the category "cloud": the
    keyword "cloudflare" of that category occurs in the service name. *)
Theorem single_cloudflare_dns_record (now src dst : pystr) (port : N) :
  is_outbound (mkFlow src dst port (py "UDP") 64) = true ->
  identify_service dst = Some (py "Cloudflare DNS") ->
  connections (summarize_traffic now [mkFlow src dst port (py "UDP") 64])
  = [mkConn dst (py "Cloudflare DNS") (py "cloud") 1 64 [port]].
Proof.
  intros Hout Hid.
  unfold summarize_traffic, aggregate. cbn [fold_left connections].
  rewrite (count_packet_outbound _ _ Hout).
  unfold all_connections, resolve.
  cbn [PyDict.set PyDict.items sorted_desc insert_desc map firstn dst_ip].
  rewrite Hid. reflexivity.
Qed.

Lemma single_cloudflare_dns_record_witness :
  connections
    (summarize_traffic (py "2026-01-01T00:00:00")
       [flow "10.66.66.2" "1.1.1.1" 53 "UDP" 64])
  = [mkConn (py "1.1.1.1") (py "Cloudflare DNS") (py "cloud") 1 64 [53]].
Proof.
  apply (single_cloudflare_dns_record (py "2026-01-01T00:00:00")
           (py "10.66.66.2") (py "1.1.1.1") 53); reflexivity.
Defined.

(** C4, as stated, fails: the category of the connection is "cloud", not
    "other". *)
Lemma cloudflare_dns_category_not_other :
  let s := summarize_traffic (py "2026-01-01T00:00:00")
             [flow "10.66.66.2" "1.1.1.1" 53 "UDP" 64] in
  identify_service (py "1.1.1.1") = Some (py "Cloudflare DNS") /\
  categorize_activity (py "Cloudflare DNS") = py "cloud" /\
  map service (connections s) = [py "Cloudflare DNS"] /\
  map category (connections s) = [py "cloud"] /\
  map category (connections s) <> [py "other"].
Proof.
  vm_compute. repeat split; discriminate.
Qed.

(** C8.  When the process cannot be started, [capture_traffic] returns no
    packet and writes the failure to standard error; with the directory
    made and the file written, [main] completes and the file holds the
    empty summary.  Whatever becomes of the directory and of the file, a
    run that completes has written the empty summary, and a run that stops
    does so on the error of the directory or of the file. *)
Theorem capture_start_failure_gives_empty_summary (e now : pystr) :
  capture_traffic (StartFails e)
  = mkCapture [] [py "Error capturing traffic: " ++ e] false /\
  main (mkWorld None (StartFails e) now None)
  = Completed
      [py "Capturing traffic on wg0 for 60 seconds..."; py "Captured 0 packets";
       py "Activity: No traffic captured";
       py "Output written to /opt/drofbot/.drofbot/traffic/traffic-context.json"]
      [py "Error capturing traffic: " ++ e]
      (mkSummary now 0 0 0 [] (py "No traffic captured")) /\
  forall dir_error file_error,
    match main (mkWorld dir_error (StartFails e) now file_error) with
    | Completed _ _ written =>
        written = mkSummary now 0 0 0 [] (py "No traffic captured")
    | Crashed x _ _ => dir_error = Some x \/ file_error = Some x
    end.
Proof.
  split; [reflexivity|]. split; [vm_compute; reflexivity|].
  intros [x|] [y|]; vm_compute; auto.
Qed.

Lemma connections_filter_outbound (now : pystr) (pkts : list FlowRecord) :
  connections (summarize_traffic now pkts)
  = connections (summarize_traffic now (filter is_outbound pkts)).
Proof.
  assert (Hs : forall l,
            connections (summarize_traffic now l)
            = firstn 20 (all_connections (aggregate l))).
  { intros [|q l]; reflexivity. }
  rewrite !Hs, <- aggregate_filter. reflexivity.
Qed.

(** C10.  Of a batch that is not empty, the total packet count is the
    number of all its records, outbound or not; the total byte count, the
    destination count and the connection list are those of the outbound
    records alone; so the packet counts of the connections add up to at
    most the number of outbound records, and the total packet count can be
    larger than their sum. *)
Theorem total_packets_counts_every_record
  (now : pystr) (p : FlowRecord) (pkts : list FlowRecord) :
  let batch := p :: pkts in
  let outbound := filter is_outbound batch in
  let s := summarize_traffic now batch in
  total_packets s = N.of_nat (List.length batch) /\
  total_bytes s = sum_sizes outbound /\
  unique_destinations s
  = N.of_nat (List.length (first_occurrences (map dst_ip outbound))) /\
  connections s = connections (summarize_traffic now outbound) /\
  sum_packets (all_connections (aggregate batch))
  = N.of_nat (List.length outbound) /\
  sum_packets (connections s) <= N.of_nat (List.length outbound) /\
  N.of_nat (List.length outbound) <= total_packets s /\
  exists now' batch',
    sum_packets (connections (summarize_traffic now' batch'))
    < total_packets (summarize_traffic now' batch').
Proof.
  intros batch outbound s.
  destruct (aggregate_sums batch) as (Hb & Hp & Hk).
  assert (Hall : sum_packets (all_connections (aggregate batch))
                 = N.of_nat (List.length outbound)).
  { rewrite sum_packets_all_connections. exact Hp. }
  split; [reflexivity|].
  split.
  { change (total_bytes s) with (sum_bytes (all_connections (aggregate batch))).
    rewrite sum_bytes_all_connections. exact Hb. }
  split.
  { change (unique_destinations s)
      with (N.of_nat (List.length (aggregate batch))).
    unfold outbound. rewrite <- Hk. unfold PyDict.keys.
    rewrite length_map. reflexivity. }
  split; [apply connections_filter_outbound|].
  split; [exact Hall|].
  split.
  { rewrite <- Hall.
    change (connections s)
      with (firstn 20 (all_connections (aggregate batch))).
    apply sum_packets_firstn. }
  split.
  { change (total_packets s) with (N.of_nat (List.length batch)).
    pose proof (filter_length_le is_outbound batch). unfold outbound. lia. }
  exists (py "2026-01-01T00:00:00"),
    [flow "10.66.66.2" "1.1.1.1" 53 "UDP" 64;
     flow "1.1.1.1" "10.66.66.2" 51820 "UDP" 80].
  vm_compute. reflexivity.
Qed.

(** ** Binary64: the percentage against the share

    The quotient and the product of [percent] are each rounded to nearest,
    and rounding never steps over a number of the format.  So a share of
    at most 1/100 divides to at most the binary64 number 0.01, and that
    times 100 rounds to at most 1; a share above 1/100 of a total below
    [2^53] divides to more than that number, and its product is above 1. *)

Module Float64Facts.
Import B64.
Local Open Scope Z_scope.

Lemma w_pos e : -1074 <= e -> 0 < w e.
Proof. intros H. unfold w. apply Z.pow_pos_nonneg; lia. Qed.

Lemma w_add e n : -1074 <= e -> 0 <= n -> w (e + n) = 2 ^ n * w e.
Proof.
  intros He Hn. unfold w. rewrite <- Z.pow_add_r by lia. f_equal. lia.
Qed.

Lemma w_succ e : -1074 <= e -> w (e + 1) = 2 * w e.
Proof. intros He. rewrite w_add by lia. reflexivity. Qed.

Lemma w_lt_inv a b : -1074 <= a -> -1074 <= b -> w a < w b -> a < b.
Proof.
  unfold w. intros Ha Hb H. apply Z.pow_lt_mono_r_iff in H; lia.
Qed.

Lemma digits2_bounds (p : positive) :
  2 ^ (Zpos (digits2_pos p) - 1) <= Zpos p < 2 ^ Zpos (digits2_pos p).
Proof.
  induction p as [p IH|p IH|]; simpl digits2_pos.
  - rewrite Pos2Z.inj_succ, (Pos2Z.inj_xI p).
    replace (Z.succ (Zpos (digits2_pos p)) - 1)
      with (Z.succ (Zpos (digits2_pos p) - 1)) by lia.
    rewrite !Z.pow_succ_r by lia.
    destruct IH as [IH1 IH2]. revert IH1 IH2.
    generalize (2 ^ (Zpos (digits2_pos p) - 1)) (2 ^ Zpos (digits2_pos p)).
    intros; lia.
  - rewrite Pos2Z.inj_succ, (Pos2Z.inj_xO p).
    replace (Z.succ (Zpos (digits2_pos p)) - 1)
      with (Z.succ (Zpos (digits2_pos p) - 1)) by lia.
    rewrite !Z.pow_succ_r by lia.
    destruct IH as [IH1 IH2]. revert IH1 IH2.
    generalize (2 ^ (Zpos (digits2_pos p) - 1)) (2 ^ Zpos (digits2_pos p)).
    intros; lia.
  - split; [vm_compute; discriminate | vm_compute; reflexivity].
Qed.

Lemma Zdigits2_upper (m d : Z) : 0 <= d -> 0 <= m < 2 ^ d -> Zdigits2 m <= d.
Proof.
  intros Hd [H0 H]. destruct m as [|p|p]; simpl; try lia.
  pose proof (digits2_bounds p) as [Hl _].
  destruct (Z_lt_le_dec d (Zpos (digits2_pos p))) as [Hlt|]; [|lia].
  exfalso. assert (2 ^ d <= 2 ^ (Zpos (digits2_pos p) - 1))
    by (apply Z.pow_le_mono_r; lia). lia.
Qed.

Lemma Zdigits2_lower (m d : Z) : 2 ^ (d - 1) <= m -> 0 < m -> d <= Zdigits2 m.
Proof.
  intros H H0. destruct m as [|p|p]; simpl; try lia.
  pose proof (digits2_bounds p) as [_ Hu].
  destruct (Z_lt_le_dec (Zpos (digits2_pos p)) d) as [Hlt|]; [|lia].
  exfalso. assert (2 ^ Zpos (digits2_pos p) <= 2 ^ (d - 1))
    by (apply Z.pow_le_mono_r; lia). lia.
Qed.

Lemma Zdigits2_bounds (m : Z) :
  0 < m -> 2 ^ (Zdigits2 m - 1) <= m < 2 ^ Zdigits2 m.
Proof. destruct m; try lia. intros _. apply digits2_bounds. Qed.

Lemma shr_1_tracked (P Q : Z) (mrs : shr_record) (e : Z) :
  0 < Q -> tracked P Q mrs e ->
  tracked P Q (shr_1 mrs) (e + 1) /\ shr_m (shr_1 mrs) = shr_m mrs / 2.
Proof.
  intros HQ (Hm & He & Hl). destruct mrs as [m r s]. simpl in Hm.
  unfold tracked.
  assert (Hw : w (e + 1) * Q = 2 * (w e * Q))
    by (rewrite (w_succ e He); ring).
  assert (HX : 0 < w e * Q) by (apply Z.mul_pos_pos; [apply w_pos|]; lia).
  destruct m as [|[p|p|]|]; try lia;
    destruct r, s; cbn [shr_1 shr_m loc_of_shr_record orb located] in Hl |- *;
    rewrite ?Hw; set (X := w e * Q) in *; clearbody X; clear Hw;
    try rewrite (Pos2Z.inj_xI p) in *; try rewrite (Pos2Z.inj_xO p) in *;
    (split; [split; [lia | split; [lia|]] | ]);
    try (apply Z.div_unique with 1; lia);
    try (apply Z.div_unique with 0; lia);
    lia.
Qed.

Lemma iter_shr_1_tracked (P Q : Z) (p : positive) :
  0 < Q ->
  forall mrs e,
    tracked P Q mrs e ->
    tracked P Q (iter_pos shr_1 p mrs) (e + Zpos p) /\
    shr_m (iter_pos shr_1 p mrs) = shr_m mrs / 2 ^ Zpos p.
Proof.
  intros HQ. induction p as [p IH|p IH|]; intros mrs e H; simpl iter_pos.
  - destruct (shr_1_tracked P Q mrs e HQ H) as [H1 E1].
    destruct (IH _ _ H1) as [H2 E2]. destruct (IH _ _ H2) as [H3 E3].
    split.
    + replace (e + Zpos p~1) with (e + 1 + Zpos p + Zpos p) by lia. exact H3.
    + rewrite E3, E2, E1. rewrite !Z.div_div by (try apply Z.pow_pos_nonneg; lia).
      f_equal. rewrite (Pos2Z.inj_xI p).
      replace (2 * Zpos p + 1) with (1 + Zpos p + Zpos p) by lia.
      rewrite !Z.pow_add_r by lia. rewrite Z.pow_1_r. ring.
  - destruct (IH _ _ H) as [H2 E2]. destruct (IH _ _ H2) as [H3 E3].
    split.
    + replace (e + Zpos p~0) with (e + Zpos p + Zpos p) by lia. exact H3.
    + rewrite E3, E2. rewrite !Z.div_div by (try apply Z.pow_pos_nonneg; lia).
      f_equal. rewrite (Pos2Z.inj_xO p).
      replace (2 * Zpos p) with (Zpos p + Zpos p) by lia.
      rewrite !Z.pow_add_r by lia. ring.
  - apply shr_1_tracked; assumption.
Qed.

Lemma loc_of_shr_record_of_loc m l :
  loc_of_shr_record (shr_record_of_loc m l) = l /\
  shr_m (shr_record_of_loc m l) = m.
Proof. destruct l as [|[| |]]; split; reflexivity. Qed.

Lemma fexp_eq (x : Z) : fexp 53 1024 x = Z.max (x - 53) (-1074).
Proof. reflexivity. Qed.

Lemma pow2_split (a b : Z) : 0 <= a -> 0 <= b -> 2 ^ (a + b) = 2 ^ a * 2 ^ b.
Proof. intros; apply Z.pow_add_r; assumption. Qed.

(** The first shift of [binary_round_aux]: the mantissa is cut to at most
    53 bits, and to exactly 53 above the least exponent. *)
Lemma shr_fexp_tracked (P Q mx ex : Z) (lx : location) :
  0 < Q -> 0 <= mx -> -1074 <= ex ->
  located P Q mx ex lx ->
  ex <= fexp 53 1024 (Zdigits2 mx + ex) ->
  tracked P Q (fst (shr_fexp 53 1024 mx ex lx)) (snd (shr_fexp 53 1024 mx ex lx)) /\
  shr_m (fst (shr_fexp 53 1024 mx ex lx)) < 2 ^ 53 /\
  (snd (shr_fexp 53 1024 mx ex lx) = -1074 \/
   2 ^ 52 <= shr_m (fst (shr_fexp 53 1024 mx ex lx))).
Proof.
  intros HQ Hm He Hl Hn. unfold shr_fexp, shr.
  rewrite fexp_eq in *.
  destruct (loc_of_shr_record_of_loc mx lx) as [Eloc Em].
  assert (Htr : tracked P Q (shr_record_of_loc mx lx) ex).
  { unfold tracked. rewrite Eloc, Em. auto. }
  assert (Hd : mx = 0 \/ 0 < mx) by lia.
  assert (Hb : 0 < mx -> 2 ^ (Zdigits2 mx - 1) <= mx < 2 ^ Zdigits2 mx)
    by apply Zdigits2_bounds.
  assert (HD : 0 <= Zdigits2 mx) by (destruct mx; simpl; lia).
  destruct (Z.max (Zdigits2 mx + ex - 53) (-1074) - ex) as [|p|p] eqn:En;
    cbn [fst snd]; [| |lia].
  - split; [exact Htr|]. rewrite Em. split.
    + destruct Hd as [->|Hpos]; [reflexivity|].
      apply Hb in Hpos.
      assert (2 ^ Zdigits2 mx <= 2 ^ 53) by (apply Z.pow_le_mono_r; lia). lia.
    + destruct (Z.eq_dec ex (-1074)) as [|Hne]; [left; assumption|right].
      assert (ED : Zdigits2 mx = 53) by lia.
      destruct Hd as [->|Hpos]; [simpl in ED; lia|].
      apply Hb in Hpos. rewrite ED in Hpos. simpl (53 - 1) in Hpos. lia.
  - destruct (iter_shr_1_tracked P Q p HQ _ _ Htr) as [Ht Es].
    split; [exact Ht|]. rewrite Es, Em.
    assert (Hp2 : 0 < 2 ^ Zpos p) by (apply Z.pow_pos_nonneg; lia).
    split.
    + apply Z.div_lt_upper_bound; [exact Hp2|].
      destruct Hd as [->|Hpos]; [lia|]. apply Hb in Hpos.
      rewrite <- pow2_split by lia.
      assert (2 ^ Zdigits2 mx <= 2 ^ (Zpos p + 53))
        by (apply Z.pow_le_mono_r; lia). lia.
    + destruct (Z.eq_dec (ex + Zpos p) (-1074)) as [|Hne];
        [left; assumption|right].
      assert (ED : Zdigits2 mx = 53 + Zpos p) by lia.
      destruct Hd as [->|Hpos]; [simpl in ED; lia|].
      apply Hb in Hpos. rewrite ED in Hpos.
      apply Z.div_le_lower_bound; [exact Hp2|].
      rewrite <- pow2_split by lia.
      replace (Zpos p + 52) with (53 + Zpos p - 1) by lia. lia.
Qed.

(** The second shift: a mantissa that rounding has carried to [2^53] is
    halved; any other is kept. *)
Lemma shr_fexp_renormalise (m e : Z) :
  0 <= m <= 2 ^ 53 -> -1074 <= e ->
  let r := shr_fexp 53 1024 m e loc_Exact in
  (m < 2 ^ 53 -> shr_m (fst r) = m /\ snd r = e) /\
  (m = 2 ^ 53 -> shr_m (fst r) = 2 ^ 52 /\ snd r = e + 1).
Proof.
  intros Hm He r. subst r. unfold shr_fexp, shr. rewrite fexp_eq. split.
  - intros Hlt.
    assert (Hd : Zdigits2 m <= 53) by (apply Zdigits2_upper; lia).
    destruct (Z.max (Zdigits2 m + e - 53) (-1074) - e) as [|p|p] eqn:En;
      cbn [fst snd shr_record_of_loc shr_m]; try lia; auto.
  - intros ->. change (Zdigits2 (2 ^ 53)) with 54.
    replace (Z.max (54 + e - 53) (-1074) - e) with 1 by lia.
    cbn [fst snd]. split; [reflexivity | reflexivity].
Qed.

(** What rounding to nearest does to the cut mantissa. *)
Lemma round_nearest_even_located (P Q m e : Z) (l : location) :
  0 < Q -> -1074 <= e -> located P Q m e l ->
  m * (w e * Q) <= P < (m + 1) * (w e * Q) /\
  (round_nearest_even m l = m /\ 2 * P <= (2 * m + 1) * (w e * Q) \/
   round_nearest_even m l = m + 1 /\ (2 * m + 1) * (w e * Q) <= 2 * P).
Proof.
  intros HQ He Hl.
  assert (HX : 0 < w e * Q) by (apply Z.mul_pos_pos; [apply w_pos|]; lia).
  unfold located in Hl. revert Hl HX. generalize (w e * Q). intros X Hl HX.
  destruct l as [|[| |]]; cbn [round_nearest_even].
  - split; [lia | left; split; [reflexivity | lia]].
  - split; [lia|].
    destruct (Z.even m); [left | right]; split; lia.
  - split; [lia | left; split; [reflexivity | lia]].
  - split; [lia | right; split; lia].
Qed.

(** [binary_round_aux] in steps: the mantissa [m1] cut at exponent [e1],
    the rounded mantissa [m2], and the result [m3] at [e3] after a carry. *)
Lemma binary_round_aux_steps (P Q mx ex : Z) (lx : location) :
  0 < Q -> 0 <= mx -> -1074 <= ex ->
  located P Q mx ex lx ->
  ex <= fexp 53 1024 (Zdigits2 mx + ex) ->
  exists m1 e1 m2 m3 e3,
    -1074 <= e1 /\ 0 <= m1 < 2 ^ 53 /\ (e1 = -1074 \/ 2 ^ 52 <= m1) /\
    m1 * (w e1 * Q) <= P < (m1 + 1) * (w e1 * Q) /\
    (m2 = m1 /\ 2 * P <= (2 * m1 + 1) * (w e1 * Q) \/
     m2 = m1 + 1 /\ (2 * m1 + 1) * (w e1 * Q) <= 2 * P) /\
    0 <= m3 /\ -1074 <= e3 /\ m3 * w e3 = m2 * w e1 /\
    (m3 = 0 \/ e3 = -1074 \/ 2 ^ 52 <= m3) /\
    binary_round_aux 53 1024 false mx ex lx
    = match m3 with
      | Z0 => S754_zero false
      | Zpos m =>
          if e3 <=? 971 then S754_finite false m e3 else S754_infinity false
      | Zneg _ => S754_nan
      end.
Proof.
  intros HQ Hmx Hex Hl Hn.
  unfold binary_round_aux.
  pose proof (shr_fexp_tracked P Q mx ex lx HQ Hmx Hex Hl Hn) as Hs.
  destruct (shr_fexp 53 1024 mx ex lx) as [mrs1 e1]. cbn [fst snd] in Hs.
  destruct Hs as ((Hm1 & He1 & Hl1) & Hm1u & Hnorm).
  set (m1 := shr_m mrs1) in *.
  destruct (round_nearest_even_located P Q m1 e1 _ HQ He1 Hl1) as [Hlow Hrnd].
  set (m2 := round_nearest_even m1 (loc_of_shr_record mrs1)) in *.
  assert (Hm2 : m1 <= m2 <= m1 + 1) by lia.
  destruct (shr_fexp_renormalise m2 e1) as [Hkeep Hcarry]; [lia | lia |].
  destruct (shr_fexp 53 1024 m2 e1 loc_Exact) as [mrs2 e2].
  cbn [fst snd] in Hkeep, Hcarry.
  exists m1, e1, m2, (shr_m mrs2), e2.
  assert (Hfin : 0 <= shr_m mrs2 /\ -1074 <= e2 /\
                 shr_m mrs2 * w e2 = m2 * w e1 /\
                 (shr_m mrs2 = 0 \/ e2 = -1074 \/ 2 ^ 52 <= shr_m mrs2)).
  { destruct (Z.eq_dec m2 (2 ^ 53)) as [Ec|Hne].
    - destruct (Hcarry Ec) as [-> ->]. rewrite Ec, w_succ by lia.
      repeat split; lia.
    - assert (Hlt : m2 < 2 ^ 53) by lia.
      destruct (Hkeep Hlt) as [-> ->]. repeat split; lia. }
  destruct Hfin as (H0 & He2 & Hval & Hn2).
  repeat (split; [assumption || lia|]). reflexivity.
Qed.

Lemma w_double_le (a b : Z) : -1074 <= a -> a < b -> 2 * w a <= w b.
Proof.
  intros Ha Hab. replace b with (a + (b - a)) by lia. rewrite w_add by lia.
  assert (2 ^ 1 <= 2 ^ (b - a)) by (apply Z.pow_le_mono_r; lia).
  rewrite Z.pow_1_r in *.
  apply Z.mul_le_mono_nonneg_r; [pose proof (w_pos a Ha); lia | lia].
Qed.

(** Rounding to nearest does not step over a number of the format: when the
    exact value, [P / Q], lies below the middle between [M] units of
    exponent [E] and the next number, the rounded value is at most [M]
    units of exponent [E]. *)
Lemma binary_round_aux_le (P Q mx ex M E : Z) (lx : location) :
  0 < Q -> 0 <= mx -> -1074 <= ex ->
  located P Q mx ex lx ->
  ex <= fexp 53 1024 (Zdigits2 mx + ex) ->
  2 ^ 52 <= M < 2 ^ 53 -> -1074 <= E <= 918 ->
  2 * P < (2 * M + 1) * (w E * Q) ->
  match binary_round_aux 53 1024 false mx ex lx with
  | S754_zero false => True
  | S754_finite false m e =>
      -1074 <= e /\ Zpos m * w e <= M * w E /\
      (e = -1074 \/ 2 ^ 52 <= Zpos m)
  | _ => False
  end.
Proof.
  intros HQ Hmx Hex Hl Hn HM HE Hbound.
  destruct (binary_round_aux_steps P Q mx ex lx HQ Hmx Hex Hl Hn)
    as (m1 & e1 & m2 & m3 & e3 & He1 & Hm1 & Hnorm & Hlow & Hrnd
        & Hm3 & He3 & Hval & Hn3 & ->).
  assert (Hwe1 : 0 < w e1) by (apply w_pos; lia).
  assert (HwE : 0 < w E) by (apply w_pos; lia).
  assert (Hm2 : m1 <= m2 <= m1 + 1) by lia.
  assert (HA : m2 * w e1 <= M * w E).
  { destruct (Z.lt_trichotomy e1 E) as [Hlt|[Heq|Hgt]].
    - pose proof (w_double_le e1 E He1 Hlt) as Hw.
      assert (m2 * w e1 <= 2 ^ 53 * w e1)
        by (apply Z.mul_le_mono_nonneg_r; lia).
      assert (2 ^ 52 * w E <= M * w E)
        by (apply Z.mul_le_mono_nonneg_r; lia).
      change (2 ^ 53) with (2 ^ 52 * 2) in *.
      assert (2 ^ 52 * (2 * w e1) <= 2 ^ 52 * w E)
        by (apply Z.mul_le_mono_nonneg_l; lia).
      lia.
    - subst e1. apply Z.mul_le_mono_nonneg_r; [lia|].
      assert (HX : 0 < w E * Q) by (apply Z.mul_pos_pos; lia).
      revert Hlow Hrnd Hbound HX. generalize (w E * Q).
      intros X Hlow Hrnd Hb HX.
      destruct Hrnd as [[-> _]|[-> Hup]].
      + assert (2 * m1 * X < (2 * M + 1) * X) by lia.
        assert (2 * m1 < 2 * M + 1)
          by (apply (Z.mul_lt_mono_pos_r X); assumption).
        lia.
      + assert ((2 * m1 + 1) * X < (2 * M + 1) * X) by lia.
        assert (2 * m1 + 1 < 2 * M + 1)
          by (apply (Z.mul_lt_mono_pos_r X); assumption).
        lia.
    - exfalso.
      assert (Hn52 : 2 ^ 52 <= m1) by lia.
      pose proof (w_double_le E e1 ltac:(lia) Hgt) as Hw.
      assert (H1 : 2 ^ 52 * w e1 <= m1 * w e1)
        by (apply Z.mul_le_mono_nonneg_r; lia).
      assert (H2 : 2 ^ 52 * (2 * w E) <= 2 ^ 52 * w e1)
        by (apply Z.mul_le_mono_nonneg_l; lia).
      assert (H4 : (m1 * w e1) * Q <= P)
        by (rewrite <- Z.mul_assoc; apply Hlow).
      assert (H5 : 2 * P < ((2 * M + 1) * w E) * Q)
        by (rewrite <- Z.mul_assoc; exact Hbound).
      assert (H6 : (2 ^ 54 * w E) * Q <= (2 * (m1 * w e1)) * Q).
      { apply Z.mul_le_mono_nonneg_r; [lia|].
        change (2 ^ 54) with (2 * (2 ^ 52 * 2)). lia. }
      assert (H7 : ((2 * M + 1) * w E) * Q < (2 ^ 54 * w E) * Q).
      { apply Z.mul_lt_mono_pos_r; [exact HQ|].
        apply Z.mul_lt_mono_pos_r; [exact HwE | lia]. }
      lia. }
  destruct m3 as [|m|m]; [exact I | | lia].
  assert (Hwe3 : 0 < w e3) by (apply w_pos; lia).
  assert (Hlt : w e3 < w (E + 53)).
  { rewrite (Z.add_comm E 53), (Z.add_comm 53 E), w_add by lia.
    assert (1 * w e3 <= Zpos m * w e3)
      by (apply Z.mul_le_mono_nonneg_r; lia).
    assert (M * w E < 2 ^ 53 * w E)
      by (apply Z.mul_lt_mono_pos_r; lia).
    lia. }
  apply w_lt_inv in Hlt; [|lia|lia].
  replace (e3 <=? 971) with true by (symmetry; apply Z.leb_le; lia).
  repeat split; lia.
Qed.

(** And from the other side: when the exact value lies above the middle
    between the number before [M] units of exponent [E] and that number,
    the rounded value is at least [M] units of exponent [E]. *)
Lemma binary_round_aux_ge (P Q mx ex M E : Z) (lx : location) :
  0 < Q -> 0 <= mx -> -1074 <= ex ->
  located P Q mx ex lx ->
  ex <= fexp 53 1024 (Zdigits2 mx + ex) ->
  2 ^ 52 < M < 2 ^ 53 -> -1074 <= E ->
  (2 * M - 1) * (w E * Q) < 2 * P ->
  match binary_round_aux 53 1024 false mx ex lx with
  | S754_infinity false => True
  | S754_finite false m e =>
      -1074 <= e /\ M * w E <= Zpos m * w e /\
      (e = -1074 \/ 2 ^ 52 <= Zpos m)
  | _ => False
  end.
Proof.
  intros HQ Hmx Hex Hl Hn HM HE Hbound.
  destruct (binary_round_aux_steps P Q mx ex lx HQ Hmx Hex Hl Hn)
    as (m1 & e1 & m2 & m3 & e3 & He1 & Hm1 & Hnorm & Hlow & Hrnd
        & Hm3 & He3 & Hval & Hn3 & ->).
  assert (Hwe1 : 0 < w e1) by (apply w_pos; lia).
  assert (HwE : 0 < w E) by (apply w_pos; lia).
  assert (Hm2 : m1 <= m2 <= m1 + 1) by lia.
  assert (HA : M * w E <= m2 * w e1).
  { destruct (Z.lt_trichotomy e1 E) as [Hlt|[Heq|Hgt]].
    - exfalso.
      pose proof (w_double_le e1 E He1 Hlt) as Hw.
      assert (H1 : (m1 + 1) * w e1 <= 2 ^ 53 * w e1)
        by (apply Z.mul_le_mono_nonneg_r; lia).
      assert (H2 : 2 ^ 52 * (2 * w e1) <= 2 ^ 52 * w E)
        by (apply Z.mul_le_mono_nonneg_l; lia).
      assert (H4 : P < ((m1 + 1) * w e1) * Q)
        by (rewrite <- Z.mul_assoc; apply Hlow).
      assert (H5 : ((2 * M - 1) * w E) * Q < 2 * P)
        by (rewrite <- Z.mul_assoc; exact Hbound).
      assert (H6 : (2 * ((m1 + 1) * w e1)) * Q <= (2 ^ 53 * w E) * Q).
      { apply Z.mul_le_mono_nonneg_r; [lia|].
        change (2 ^ 53) with (2 ^ 52 * 2) in *. lia. }
      assert (H7 : (2 ^ 53 * w E) * Q < ((2 * M - 1) * w E) * Q).
      { apply Z.mul_lt_mono_pos_r; [exact HQ|].
        apply Z.mul_lt_mono_pos_r; [exact HwE | lia]. }
      lia.
    - subst e1. apply Z.mul_le_mono_nonneg_r; [lia|].
      assert (HX : 0 < w E * Q) by (apply Z.mul_pos_pos; lia).
      revert Hlow Hrnd Hbound HX. generalize (w E * Q).
      intros X Hlow Hrnd Hb HX.
      destruct Hrnd as [[-> Hdown]|[-> _]].
      + assert ((2 * M - 1) * X < (2 * m1 + 1) * X) by lia.
        assert (2 * M - 1 < 2 * m1 + 1)
          by (apply (Z.mul_lt_mono_pos_r X); assumption).
        lia.
      + assert ((2 * M - 1) * X < (2 * (m1 + 1)) * X) by lia.
        assert (2 * M - 1 < 2 * (m1 + 1))
          by (apply (Z.mul_lt_mono_pos_r X); assumption).
        lia.
    - assert (Hn52 : 2 ^ 52 <= m1) by lia.
      pose proof (w_double_le E e1 ltac:(lia) Hgt) as Hw.
      assert (H1 : 2 ^ 52 * w e1 <= m2 * w e1)
        by (apply Z.mul_le_mono_nonneg_r; lia).
      assert (H2 : 2 ^ 52 * (2 * w E) <= 2 ^ 52 * w e1)
        by (apply Z.mul_le_mono_nonneg_l; lia).
      assert (H3 : M * w E <= 2 ^ 53 * w E)
        by (apply Z.mul_le_mono_nonneg_r; lia).
      change (2 ^ 53) with (2 ^ 52 * 2) in *. lia. }
  destruct m3 as [|m|m]; [|  | lia].
  - assert (0 < M * w E) by (apply Z.mul_pos_pos; lia). lia.
  - destruct (e3 <=? 971); [|exact I].
    repeat split; lia.
Qed.

(** The location that the division computes from the remainder. *)
Lemma new_location_located (t q r e : Z) :
  0 < t -> 0 <= r < t -> -1074 <= e ->
  located ((t * q + r) * w e) t q e (new_location t r).
Proof.
  intros Ht Hr He.
  assert (HY : 0 < w e) by (apply w_pos; lia).
  unfold located. revert HY. generalize (w e). intros Y HY.
  assert (Hmul : forall a c, a < c -> a * Y < c * Y)
    by (intros; apply Z.mul_lt_mono_pos_r; assumption).
  unfold new_location, new_location_even, new_location_odd.
  destruct (Z.even t) eqn:Ev; destruct (Z.eqb_spec r 0) as [->|Hr0].
  - ring.
  - destruct (Z.compare_spec (2 * r) t) as [Hc|Hc|Hc].
    + rewrite <- Hc. ring.
    + pose proof (Hmul _ _ Hc). pose proof (Hmul 0 r ltac:(lia)).
      split; lia.
    + pose proof (Hmul _ _ Hc). pose proof (Hmul r t ltac:(lia)).
      split; lia.
  - ring.
  - destruct (Z.compare_spec (2 * r + 1) t) as [Hc|Hc|Hc].
    + pose proof (Hmul (2 * r) t ltac:(lia)). pose proof (Hmul 0 r ltac:(lia)).
      split; lia.
    + pose proof (Hmul (2 * r) t ltac:(lia)). pose proof (Hmul 0 r ltac:(lia)).
      split; lia.
    + assert (2 * r <> t).
      { intros E. rewrite <- E, Z.even_mul in Ev. discriminate. }
      pose proof (Hmul t (2 * r) ltac:(lia)). pose proof (Hmul r t ltac:(lia)).
      split; lia.
Qed.

Lemma div_eucl_div_mod (a b : Z) : Z.div_eucl a b = (a / b, a mod b).
Proof. unfold Z.div, Z.modulo. destruct (Z.div_eucl a b); reflexivity. Qed.

(** The quotient of two ints, the first at most the second, is the exact
    quotient rounded once. *)
Lemma true_div_rounds (b t : positive) :
  Zpos b <= Zpos t ->
  exists q e l,
    Float64.true_div b t = binary_round_aux 53 1024 false q e l /\
    0 <= q /\ -1074 <= e /\
    located (Zpos b * 2 ^ 1074) (Zpos t) q e l /\
    e <= fexp 53 1024 (Zdigits2 q + e).
Proof.
  intros Hle.
  unfold Float64.true_div, Float64.of_pos, SFdiv, SFdiv_core_binary.
  change Float64.prec with 53. change Float64.emax with 1024.
  cbn [xorb]. rewrite fexp_eq, div_eucl_div_mod.
  rewrite !Z.add_0_r, !Z.sub_0_r.
  pose proof (Zdigits2_bounds (Zpos b) ltac:(lia)) as [Hb1 Hb2].
  pose proof (Zdigits2_bounds (Zpos t) ltac:(lia)) as [Ht1 Ht2].
  set (d1 := Zdigits2 (Zpos b)) in *. set (d2 := Zdigits2 (Zpos t)) in *.
  assert (Hd1 : 0 < d1) by (unfold d1; simpl; lia).
  assert (Hd2 : 0 < d2) by (unfold d2; simpl; lia).
  assert (Hd : d1 <= d2).
  { destruct (Z_lt_le_dec d2 d1) as [Hlt|]; [|lia]. exfalso.
    assert (2 ^ d2 <= 2 ^ (d1 - 1)) by (apply Z.pow_le_mono_r; lia). lia. }
  set (e' := Z.max (d1 - d2 - 53) (-1074)).
  replace (Z.min e' 0) with e' by lia.
  assert (He' : -1074 <= e' <= -53) by lia.
  destruct (0 - e') as [|s|s] eqn:Es; [lia | | lia].
  rewrite Z.shiftl_mul_pow2 by lia.
  set (a := Zpos b * 2 ^ Zpos s).
  assert (Hs : 0 < 2 ^ Zpos s) by (apply Z.pow_pos_nonneg; lia).
  assert (Ha : 0 < a) by (unfold a; apply Z.mul_pos_pos; lia).
  pose proof (Z.div_mod a (Zpos t) ltac:(lia)) as Hdm.
  pose proof (Z.mod_pos_bound a (Zpos t) ltac:(lia)) as Hr.
  assert (Hq : 0 <= a / Zpos t) by (apply Z.div_pos; lia).
  set (q := a / Zpos t) in *. set (r := a mod Zpos t) in *.
  assert (HwE : w e' * 2 ^ Zpos s = 2 ^ 1074).
  { unfold w. rewrite <- Z.pow_add_r by lia. f_equal. lia. }
  exists q, e', (new_location (Zpos t) r).
  split; [reflexivity|]. split; [exact Hq|]. split; [lia|]. split.
  - replace (Zpos b * 2 ^ 1074) with ((Zpos t * q + r) * w e').
    + apply new_location_located; lia.
    + rewrite <- Hdm. unfold a. rewrite <- HwE. ring.
  - rewrite fexp_eq.
    destruct (Z.eq_dec e' (-1074)) as [|Hne]; [lia|].
    assert (Ee : e' = d1 - d2 - 53) by lia.
    assert (Hq52 : 2 ^ 52 <= q).
    { apply Z.div_le_lower_bound; [lia|]. unfold a.
      assert (Hpow : 2 ^ (d1 - 1) * 2 ^ Zpos s = 2 ^ d2 * 2 ^ 52).
      { rewrite <- !Z.pow_add_r by lia. f_equal. lia. }
      assert (2 ^ (d1 - 1) * 2 ^ Zpos s <= Zpos b * 2 ^ Zpos s)
        by (apply Z.mul_le_mono_nonneg_r; lia).
      assert (Zpos t * 2 ^ 52 <= 2 ^ d2 * 2 ^ 52)
        by (apply Z.mul_le_mono_nonneg_r; lia).
      lia. }
    assert (53 <= Zdigits2 q) by (apply Zdigits2_lower; simpl (53 - 1); lia).
    lia.
Qed.

Lemma w_centi : w centi_e * 2 ^ 59 = 2 ^ 1074.
Proof. reflexivity. Qed.

(** A share of at most 1/100 divides to at most the binary64 number 0.01. *)
Lemma true_div_le_centi (b t : positive) :
  100 * Zpos b <= Zpos t ->
  match Float64.true_div b t with
  | S754_zero false => True
  | S754_finite false m e =>
      -1074 <= e /\ Zpos m * w e <= centi_m * w centi_e /\
      (e = -1074 \/ 2 ^ 52 <= Zpos m)
  | _ => False
  end.
Proof.
  intros Hshare.
  destruct (true_div_rounds b t ltac:(lia)) as (q & e & l & -> & Hq & He & Hl & Hn).
  apply (binary_round_aux_le (Zpos b * 2 ^ 1074) (Zpos t) q e centi_m centi_e);
    try assumption; try (unfold centi_m, centi_e; lia).
  rewrite <- w_centi.
  assert (Hw : 0 < w centi_e) by (apply w_pos; unfold centi_e; lia).
  revert Hw. generalize (w centi_e). intros Y HY. unfold centi_m.
  assert (Hc : 2 * (Zpos b * 2 ^ 59) < (2 * 5764607523034235 + 1) * Zpos t)
    by lia.
  apply (Z.mul_lt_mono_pos_r Y) in Hc; [|exact HY]. lia.
Qed.

(** A share above 1/100, of a total that a binary64 number holds exactly,
    divides to more than the binary64 number 0.01. *)
Lemma true_div_gt_centi (b t : positive) :
  Zpos b <= Zpos t -> Zpos t < 100 * Zpos b -> Zpos t < 2 ^ 53 ->
  match Float64.true_div b t with
  | S754_infinity false => True
  | S754_finite false m e =>
      -1074 <= e /\ (centi_m + 1) * w centi_e <= Zpos m * w e /\
      (e = -1074 \/ 2 ^ 52 <= Zpos m)
  | _ => False
  end.
Proof.
  intros Hle Hshare Hsmall.
  destruct (true_div_rounds b t Hle) as (q & e & l & -> & Hq & He & Hl & Hn).
  apply (binary_round_aux_ge (Zpos b * 2 ^ 1074) (Zpos t) q e
           (centi_m + 1) centi_e);
    try assumption; try (unfold centi_m, centi_e; lia).
  rewrite <- w_centi.
  assert (Hw : 0 < w centi_e) by (apply w_pos; unfold centi_e; lia).
  revert Hw. generalize (w centi_e). intros Y HY. unfold centi_m.
  assert (Hc : (2 * (5764607523034235 + 1) - 1) * Zpos t
               < 2 * (Zpos b * 2 ^ 59)) by lia.
  apply (Z.mul_lt_mono_pos_r Y) in Hc; [|exact HY]. lia.
Qed.

(** Comparison with 1, which is [2^1074] in the scale of [w]. *)
Lemma gt_one_scaled (m : positive) (e : Z) :
  -1074 <= e ->
  Float64.gt_one (S754_finite false m e) = (2 ^ 1074 <? Zpos m * w e).
Proof.
  intros He. unfold Float64.gt_one.
  assert (H0 : 0 < 2 ^ 1074) by reflexivity.
  destruct e as [|k|k].
  - change (w 0) with (2 ^ 1074). rewrite Z.pow_0_r.
    destruct (Z.ltb_spec 1 (Zpos m * 1)) as [H|H];
      destruct (Z.ltb_spec (2 ^ 1074) (Zpos m * 2 ^ 1074)) as [H'|H'];
      try reflexivity; exfalso.
    + apply (Z.mul_lt_mono_pos_r (2 ^ 1074)) in H; lia.
    + assert (Zpos m * 2 ^ 1074 <= 1 * 2 ^ 1074)
        by (apply Z.mul_le_mono_nonneg_r; lia). lia.
  - assert (Hw : w (Zpos k) = 2 ^ Zpos k * 2 ^ 1074)
      by (unfold w; apply Z.pow_add_r; lia).
    rewrite Hw, Z.mul_assoc.
    destruct (Z.ltb_spec 1 (Zpos m * 2 ^ Zpos k)) as [H|H];
      destruct (Z.ltb_spec (2 ^ 1074) (Zpos m * 2 ^ Zpos k * 2 ^ 1074))
        as [H'|H']; try reflexivity; exfalso.
    + apply (Z.mul_lt_mono_pos_r (2 ^ 1074)) in H; lia.
    + assert (Zpos m * 2 ^ Zpos k * 2 ^ 1074 <= 1 * 2 ^ 1074)
        by (apply Z.mul_le_mono_nonneg_r; lia). lia.
  - assert (Hw : 2 ^ Zpos k * w (Zneg k) = 2 ^ 1074).
    { unfold w. rewrite <- Z.pow_add_r by lia. f_equal. lia. }
    rewrite <- Hw.
    assert (Hwk : 0 < w (Zneg k)) by (apply w_pos; lia).
    destruct (Z.ltb_spec (2 ^ Zpos k) (Zpos m)) as [H|H];
      destruct (Z.ltb_spec (2 ^ Zpos k * w (Zneg k)) (Zpos m * w (Zneg k)))
        as [H'|H']; try reflexivity; exfalso.
    + apply (Z.mul_lt_mono_pos_r (w (Zneg k))) in H; lia.
    + assert (Zpos m * w (Zneg k) <= 2 ^ Zpos k * w (Zneg k))
        by (apply Z.mul_le_mono_nonneg_r; lia). lia.
Qed.

Lemma mul_100_exact (m : positive) (e : Z) :
  -1074 <= e -> (e = -1074 \/ 2 ^ 52 <= Zpos m) ->
  Float64.mul_int (S754_finite false m e) 100
  = binary_round_aux 53 1024 false (Zpos (m * 100)) e loc_Exact /\
  located (Zpos (m * 100) * w e) 1 (Zpos (m * 100)) e loc_Exact /\
  e <= fexp 53 1024 (Zdigits2 (Zpos (m * 100)) + e).
Proof.
  intros He Hnorm. split; [|split].
  - unfold Float64.mul_int, Float64.of_pos, SFmul.
    rewrite Z.add_0_r. reflexivity.
  - unfold located. ring.
  - rewrite fexp_eq. destruct Hnorm as [->|Hn]; [lia|].
    assert (53 <= Zdigits2 (Zpos (m * 100)))
      by (apply Zdigits2_lower; simpl (53 - 1); lia).
    lia.
Qed.

(** The percentage of a share of at most 1/100 is not above 1. *)
Lemma percent_at_most_one (b t : positive) :
  100 * Zpos b <= Zpos t -> Float64.gt_one (percent b t) = false.
Proof.
  intros Hshare. unfold percent.
  pose proof (true_div_le_centi b t Hshare) as Hdiv.
  destruct (Float64.true_div b t) as [[|]|[|]| |[|] m e]; try contradiction.
  - reflexivity.
  - destruct Hdiv as (He & Hle & Hnorm).
    destruct (mul_100_exact m e He Hnorm) as (-> & Hl & Hn).
    assert (Hwe : 0 < w e) by (apply w_pos; lia).
    assert (Hr :
      match binary_round_aux 53 1024 false (Zpos (m * 100)) e loc_Exact with
      | S754_zero false => True
      | S754_finite false m' e' =>
          -1074 <= e' /\ Zpos m' * w e' <= 2 ^ 52 * w (-52) /\
          (e' = -1074 \/ 2 ^ 52 <= Zpos m')
      | _ => False
      end).
    { apply (binary_round_aux_le (Zpos (m * 100) * w e) 1);
        try assumption; try lia.
      rewrite Z.mul_1_r, Pos2Z.inj_mul.
      unfold centi_m, centi_e in Hle.
      change (w (-52)) with (2 ^ 7 * w (-59)).
      assert (Hw59 : 0 < w (-59)) by reflexivity.
      revert Hle Hw59. generalize (w (-59)). intros Y Hle HY.
      revert Hle Hwe. generalize (w e). intros X Hle HX. lia. }
    destruct (binary_round_aux 53 1024 false (Zpos (m * 100)) e loc_Exact)
      as [[|]|[|]| |[|] m' e']; try contradiction; [reflexivity|].
    destruct Hr as (He' & Hle' & _). rewrite gt_one_scaled by exact He'.
    apply Z.ltb_ge. exact Hle'.
Qed.

(** The percentage of a share above 1/100, of a total below [2^53], is
    above 1. *)
Lemma percent_above_one (b t : positive) :
  Zpos b <= Zpos t -> Zpos t < 100 * Zpos b -> Zpos t < 2 ^ 53 ->
  Float64.gt_one (percent b t) = true.
Proof.
  intros Hle Hshare Hsmall. unfold percent.
  pose proof (true_div_gt_centi b t Hle Hshare Hsmall) as Hdiv.
  destruct (Float64.true_div b t) as [[|]|[|]| |[|] m e]; try contradiction.
  - reflexivity.
  - destruct Hdiv as (He & Hge & Hnorm).
    destruct (mul_100_exact m e He Hnorm) as (-> & Hl & Hn).
    assert (Hwe : 0 < w e) by (apply w_pos; lia).
    assert (Hr :
      match binary_round_aux 53 1024 false (Zpos (m * 100)) e loc_Exact with
      | S754_infinity false => True
      | S754_finite false m' e' =>
          -1074 <= e' /\ (2 ^ 52 + 1) * w (-52) <= Zpos m' * w e' /\
          (e' = -1074 \/ 2 ^ 52 <= Zpos m')
      | _ => False
      end).
    { apply (binary_round_aux_ge (Zpos (m * 100) * w e) 1);
        try assumption; try lia.
      rewrite Z.mul_1_r, Pos2Z.inj_mul.
      unfold centi_m, centi_e in Hge.
      change (w (-52)) with (2 ^ 7 * w (-59)).
      assert (Hw59 : 0 < w (-59)) by reflexivity.
      revert Hge Hw59. generalize (w (-59)). intros Y Hge HY.
      revert Hge Hwe. generalize (w e). intros X Hge HX. lia. }
    destruct (binary_round_aux 53 1024 false (Zpos (m * 100)) e loc_Exact)
      as [[|]|[|]| |[|] m' e']; try contradiction; [reflexivity|].
    destruct Hr as (He' & Hge' & _). rewrite gt_one_scaled by exact He'.
    apply Z.ltb_lt.
    change ((2 ^ 52 + 1) * w (-52)) with (2 ^ 1074 + w (-52)) in Hge'.
    assert (0 < w (-52)) by reflexivity. lia.
Qed.

End Float64Facts.

(** A category that is displayed holds more than 1% of the bytes. *)
Lemma shown_percent_share (total bytes_count : N) (pct : spec_float) :
  shown_percent total bytes_count = Some pct -> total < 100 * bytes_count.
Proof.
  unfold shown_percent.
  destruct bytes_count as [|b]; [discriminate|].
  destruct total as [|t]; [discriminate|].
  destruct (Float64.gt_one (percent b t)) eqn:E; [|discriminate].
  intros _. destruct (N.lt_ge_cases (Npos t) (100 * Npos b)) as [|Hge];
    [assumption|].
  rewrite Float64Facts.percent_at_most_one in E by lia. discriminate.
Qed.

(** Below [2^53] bytes in all, a category that holds more than 1% of them
    is displayed. *)
Lemma share_shown_percent (total bytes_count : N) :
  bytes_count <= total -> total < 100 * bytes_count ->
  total < 9007199254740992 ->
  exists pct, shown_percent total bytes_count = Some pct.
Proof.
  intros Hle Hshare Hsmall. unfold shown_percent.
  destruct bytes_count as [|b]; [lia|].
  destruct total as [|t]; [lia|].
  rewrite Float64Facts.percent_above_one; [eauto | lia | lia |].
  change (2 ^ 53)%Z with 9007199254740992%Z. lia.
Qed.

Lemma dict_sum_in {V : Type} (f : V -> N) (d : PyDict.dict V) e :
  In e d -> f (snd e) <= dict_sum f d.
Proof.
  unfold dict_sum. induction d as [|x d IH]; simpl; [tauto|].
  intros [->|H]; [lia | specialize (IH H); lia].
Qed.

Lemma category_totals_sum_from (conns : list ConnectionSummary) :
  forall d,
    dict_sum (fun v => v) (fold_left add_category conns d)
    = dict_sum (fun v => v) d + sum_bytes conns.
Proof.
  induction conns as [|c conns IH]; intros d; simpl; [lia|].
  rewrite IH. unfold add_category.
  pose proof (dict_sum_set (fun v => v) d (category c)
    (match PyDict.get d (category c) with Some b => b | None => 0 end
     + bytes c)) as E.
  destruct (PyDict.get d (category c)); lia.
Qed.

(** No category holds more than the total. *)
Lemma category_total_le (conns : list ConnectionSummary) e :
  In e (PyDict.items (category_totals conns)) -> snd e <= sum_bytes conns.
Proof.
  intros H. apply (dict_sum_in (fun v => v)) in H.
  unfold PyDict.items, category_totals in H.
  rewrite category_totals_sum_from in H.
  change (dict_sum (fun v : N => v) []) with 0 in H. cbn beta in H. lia.
Qed.

(** C7, as amended.  The categories are ranked by descending byte sum; the
    breakdown lists, in that order and joined by " | ", those with a
    positive sum whose percentage, as the script computes it in binary64,
    is above 1, each as its name, ": ", that percentage rounded to an
    integer and "%"; when there is none the text is "Minimal activity".
    Every category listed holds more than 1% of the bytes, and below [2^53]
    bytes in all every category that holds more than 1% is listed.  Each
    percentage is rounded on its own, and nothing bounds their sum. *)
Theorem activity_breakdown_text
  (now : pystr) (p : FlowRecord) (pkts : list FlowRecord) :
  let conns := all_connections (aggregate (p :: pkts)) in
  let total := sum_bytes conns in
  let ranked := sorted_desc snd (PyDict.items (category_totals conns)) in
  let shown := filter (is_shown total) ranked in
  Permutation ranked (PyDict.items (category_totals conns)) /\
  descending snd ranked /\
  descending snd shown /\
  (forall e,
     In e shown <->
     In e ranked /\
     exists b t, snd e = Npos b /\ total = Npos t /\
                 Float64.gt_one (percent b t) = true) /\
  (forall e, In e shown -> total < 100 * snd e) /\
  (total < 9007199254740992 ->
   forall e, In e ranked -> total < 100 * snd e -> In e shown) /\
  (forall cat b t,
     Float64.gt_one (percent b t) = true ->
     shown_text (Npos t) (cat, Npos b)
     = cat ++ py ": " ++ Float64.format_0f (percent b t) ++ py "%") /\
  activity_summary (summarize_traffic now (p :: pkts))
  = match shown with
    | [] => py "Minimal activity"
    | _ => join (py " | ") (map (shown_text total) shown)
    end.
Proof.
  intros conns total ranked shown.
  assert (Hperm : Permutation ranked (PyDict.items (category_totals conns)))
    by apply sorted_desc_perm.
  split; [exact Hperm|].
  split; [apply sorted_desc_descending|].
  split; [apply descending_filter, sorted_desc_descending|].
  split.
  { intros e. unfold shown. rewrite filter_In.
    unfold is_shown, shown_percent.
    destruct (snd e) as [|b]; [|destruct total as [|t]].
    - split; [intros [_ H]; discriminate|].
      intros [_ (b & t & H & _)]; discriminate.
    - split; [intros [_ H]; discriminate|].
      intros [_ (b' & t & _ & H & _)]; discriminate.
    - destruct (Float64.gt_one (percent b t)) eqn:E.
      + split; [|tauto]. intros [Hin _]. split; [exact Hin|].
        exists b, t. auto.
      + split; [intros [_ H]; discriminate|].
        intros [_ (b' & t' & Hb & Ht & H)].
        inversion Hb; inversion Ht; subst. congruence. }
  split.
  { intros e He. unfold shown in He. apply filter_In in He.
    destruct He as [_ He]. unfold is_shown in He.
    destruct (shown_percent total (snd e)) as [pct|] eqn:E; [|discriminate].
    apply (shown_percent_share _ _ _ E). }
  split.
  { intros Hsmall e He Hshare. unfold shown. apply filter_In.
    split; [exact He|]. unfold is_shown.
    destruct (share_shown_percent total (snd e)) as [pct ->];
      [|exact Hshare|exact Hsmall|reflexivity].
    apply category_total_le.
    apply (Permutation_in _ Hperm). exact He. }
  split.
  { intros cat b t H. unfold shown_text, shown_percent. cbn [fst snd].
    rewrite H. reflexivity. }
  change (activity_summary (summarize_traffic now (p :: pkts)))
    with (match activity_parts total ranked with
          | [] => py "Minimal activity"
          | _ :: _ => join (py " | ") (activity_parts total ranked)
          end).
  rewrite activity_parts_shown. fold shown.
  destruct shown; reflexivity.
Qed.

(** C7, as stated, fails: three categories holding 4, 1 and 1 of 6 bytes
    are displayed with 67, 17 and 17 percent, 101 in all. *)
Lemma displayed_percentages_exceed_100 :
  let pkts := [flow "10.66.66.2" "1.1.1.1" 53 "UDP" 4;
               flow "10.66.66.2" "8.8.8.8" 53 "UDP" 1;
               flow "10.66.66.2" "17.3.4.5" 443 "TCP" 1] in
  let conns := all_connections (aggregate pkts) in
  let ranked := sorted_desc snd (PyDict.items (category_totals conns)) in
  activity_summary (summarize_traffic (py "2026-01-01T00:00:00") pkts)
  = py "cloud: 67% | other: 17% | apple: 17%" /\
  displayed_percents (sum_bytes conns) ranked = [67; 17; 17] /\
  100 < fold_right N.add 0 (displayed_percents (sum_bytes conns) ranked).
Proof. vm_compute. repeat split. Qed.

(** With byte counts beyond what binary64 tells apart, a category above 1%
    of the bytes is left out: its computed percentage is 1.0. *)
Lemma share_above_one_percent_not_shown :
  let b := 1000000000000000001 in
  let total := 100000000000000000000 in
  total < 100 * b /\ is_shown total (py "cloud", b) = false.
Proof. vm_compute. split; reflexivity. Qed.

(** * Further properties of the code *)

(** ** The matcher finds every match *)

Lemma rmatch_star (r1 : regex) s c k :
  rmatch (Star r1) s c k = star_loop r1 k (List.length s) s c.
Proof. reflexivity. Qed.

(** The matcher finds a match whenever there is one: if [r] can consume [w]
    and the rest of the search succeeds after it whatever the groups, then
    matching [r] before it succeeds. *)
Lemma rmatch_complete (r : regex) (w : pystr) (c c' : caps) :
  matches r w c c' ->
  (forall d s' k,
     (forall c'', k s' c'' <> None) -> rmatch r (w ++ s') d k <> None) /\
  (forall r1, r = Star r1 ->
     forall d s' k fuel,
       (forall c'', k s' c'' <> None) ->
       (List.length (w ++ s') <= fuel)%nat ->
       star_loop r1 k fuel (w ++ s') d <> None).
Proof.
  induction 1 as
    [ c | p x c Hp | r1 r2 w1 w2 c c1 c2 _ [IH1 _] _ [IH2 _]
    | r1 r2 w c c1 _ [IH _] | r1 r2 w c c1 _ [IH _]
    | r c | r w1 w2 c c1 c2 _ [IH1 _] _ [_ IH2]
    | i r w c c1 _ [IH _] ].
  - split; [|discriminate]. intros d s' k Hk. simpl. apply Hk.
  - split; [|discriminate]. intros d s' k Hk. simpl. rewrite Hp. apply Hk.
  - split; [|discriminate]. intros d s' k Hk. simpl.
    rewrite <- app_assoc. apply IH1. intros c''. apply IH2. exact Hk.
  - split; [|discriminate]. intros d s' k Hk. simpl.
    specialize (IH d s' k Hk).
    destruct (rmatch r1 (w ++ s') d k); [discriminate | contradiction].
  - split; [|discriminate]. intros d s' k Hk. simpl.
    destruct (rmatch r1 (w ++ s') d k); [discriminate|]. apply IH, Hk.
  - assert (Hloop : forall d s' k fuel,
              (forall c'', k s' c'' <> None) ->
              star_loop r k fuel ([] ++ s') d <> None).
    { intros d s' k fuel Hk. simpl. destruct fuel as [|fuel]; simpl.
      - apply Hk.
      - match goal with
        | |- match ?m with _ => _ end <> None => destruct m
        end; [discriminate | apply Hk]. }
    split.
    + intros d s' k Hk. rewrite rmatch_star. apply Hloop, Hk.
    + intros r1 E d s' k fuel Hk _. inversion E; subst. apply Hloop, Hk.
  - assert (Hloop : forall d s' k fuel,
              (forall c'', k s' c'' <> None) ->
              (List.length ((w1 ++ w2) ++ s') <= fuel)%nat ->
              star_loop r k fuel ((w1 ++ w2) ++ s') d <> None).
    { intros d s' k fuel Hk Hfuel.
      destruct w1 as [|x w1].
      - simpl. apply (IH2 r eq_refl); [exact Hk | exact Hfuel].
      - destruct fuel as [|fuel]; [simpl in Hfuel; lia|].
        cbn [star_loop].
        match goal with
        | |- match ?m with _ => _ end <> None =>
            assert (Hm : m <> None); [|destruct m; [discriminate|contradiction]]
        end.
        rewrite <- app_assoc. apply IH1. intros c''.
        replace (List.length (w2 ++ s') <?
                 List.length ((x :: w1) ++ w2 ++ s'))%nat with true.
        + apply (IH2 r eq_refl); [exact Hk|].
          rewrite <- app_assoc in Hfuel. simpl in Hfuel.
          rewrite !length_app in *. lia.
        + symmetry. apply Nat.ltb_lt. simpl. rewrite !length_app. lia. }
    split.
    + intros d s' k Hk. rewrite rmatch_star. apply Hloop; [exact Hk | lia].
    + intros r1 E d s' k fuel Hk Hfuel. inversion E; subst.
      apply Hloop; assumption.
  - split; [|discriminate]. intros d s' k Hk. simpl.
    apply IH. intros c''. apply Hk.
Qed.

Lemma search_unfold (r : regex) (s : pystr) :
  search r s
  = match match_here r s with
    | Some c => Some c
    | None => match s with [] => None | _ :: s' => search r s' end
    end.
Proof. destruct s; reflexivity. Qed.

(** [re.search] succeeds on every text that holds a match. *)
Lemma search_complete (r : regex) (before w after : pystr) (c c' : caps) :
  matches r w c c' -> search r (before ++ w ++ after) <> None.
Proof.
  intros M. induction before as [|x before IH].
  - rewrite search_unfold. unfold match_here. simpl app.
    destruct (rmatch_complete r w c c' M) as [H _].
    assert (Hm : rmatch r (w ++ after) [] (fun _ c0 => Some c0) <> None)
      by (apply H; discriminate).
    destruct (rmatch r (w ++ after) [] (fun _ c0 => Some c0));
      [discriminate | contradiction].
  - rewrite search_unfold.
    destruct (match_here r ((x :: before) ++ w ++ after));
      [discriminate | exact IH].
Qed.

(** *** The three expressions against the shapes they describe *)

Lemma star_class_matches p w c :
  all_of p w -> matches (Star (Class p)) w c c.
Proof.
  induction 1 as [|x w Hx _ IH]; [constructor|].
  change (x :: w) with ([x] ++ w).
  apply M_star_cons with (c' := c); [constructor; exact Hx | exact IH].
Qed.

Lemma plus_class_matches p w c :
  w <> [] -> all_of p w -> matches (Plus (Class p)) w c c.
Proof.
  intros Hne Hall. destruct w as [|x w]; [contradiction|].
  inversion Hall; subst. change (x :: w) with ([x] ++ w).
  apply M_cat with (c' := c); [constructor; assumption|].
  apply star_class_matches; assumption.
Qed.

Lemma lit_matches t c : matches (Lit t) t c c.
Proof.
  induction t as [|x t IH]; simpl; [constructor|].
  change (x :: t) with ([x] ++ t).
  apply M_cat with (c' := c); [constructor; apply N.eqb_refl | exact IH].
Qed.

Ltac invert_cat H w1 w2 H1 H2 :=
  inversion H as [ | | ? ? w1 w2 ? ? ? H1 H2 | | | | | ]; subst; clear H.

Ltac invert_classes :=
  repeat match goal with
  | H : matches (Plus (Class _)) _ _ _ |- _ =>
      apply matches_plus_class in H; destruct H as (? & ? & ?); subst
  | H : matches (Star (Class _)) _ _ _ |- _ =>
      apply matches_star_class in H; destruct H as (? & ?); subst
  | H : matches (Class (N.eqb _)) _ _ _ |- _ =>
      let Ha := fresh "Ha" in
      apply matches_class_inv in H; destruct H as (? & ? & Ha & ?); subst;
      apply N.eqb_eq in Ha; subst
  end.

Lemma re_addr_shape w c :
  matches re_addr w [] c <->
  exists src dst, address_pair src dst w /\ c = [(2%nat, dst); (1%nat, src)].
Proof.
  unfold re_addr, address_pair, all_of. split.
  - intros H.
    invert_cat H w1 r1 G1 T1. inversion G1; subst; clear G1.
    invert_cat T1 w2 r2 S1 T2. invert_cat T2 w3 r3 A T3.
    invert_cat T3 w4 r4 S2 G2. inversion G2; subst; clear G2.
    invert_classes.
    exists w1, r4. split; [|reflexivity].
    exists w2, w4. repeat split; auto.
  - intros (src & dst & (sp1 & sp2 & -> & Hs & Has & Hsp1 & Hsp2 & Hd & Had)
            & ->).
    apply M_cat with (c' := [(1%nat, src)]).
    { constructor. apply plus_class_matches; assumption. }
    apply M_cat with (c' := [(1%nat, src)]).
    { apply star_class_matches; assumption. }
    apply M_cat with (c' := [(1%nat, src)]).
    { constructor. apply N.eqb_refl. }
    apply M_cat with (c' := [(1%nat, src)]).
    { apply star_class_matches; assumption. }
    constructor. apply plus_class_matches; assumption.
Qed.

Lemma protocol_tag_matches tag c :
  In tag PROTOCOLS ->
  matches
    (Or (Lit (py "TCP")) (Or (Lit (py "UDP")) (Or (Lit (py "SSL"))
      (Or (Lit (py "TLS")) (Or (Lit (py "HTTP")) (Lit (py "QUIC")))))))
    tag c c.
Proof.
  unfold PROTOCOLS. cbn [map In].
  intros [<-|[<-|[<-|[<-|[<-|[<-|[]]]]]]].
  - apply M_or_l, lit_matches.
  - apply M_or_r, M_or_l, lit_matches.
  - apply M_or_r, M_or_r, M_or_l, lit_matches.
  - apply M_or_r, M_or_r, M_or_r, M_or_l, lit_matches.
  - apply M_or_r, M_or_r, M_or_r, M_or_r, M_or_l, lit_matches.
  - apply M_or_r, M_or_r, M_or_r, M_or_r, M_or_r, lit_matches.
Qed.

Lemma re_proto_shape w c :
  matches re_proto w [] c <->
  exists tag digits,
    protocol_size tag digits w /\ c = [(2%nat, digits); (1%nat, tag)].
Proof.
  unfold re_proto, protocol_size, all_of. split.
  - intros H.
    invert_cat H w1 r1 G1 T1.
    inversion G1 as [ | | | | | | | ? ? ? ? cg Alt ]; subst; clear G1.
    apply matches_protocol_tag in Alt. destruct Alt as [Htag ->].
    invert_cat T1 w2 r2 S1 G2. inversion G2; subst; clear G2.
    invert_classes.
    exists w1, r2. split; [|reflexivity].
    exists w2. repeat split; auto.
  - intros (tag & digits & (sp & -> & Htag & Hsp & Hasp & Hd & Had) & ->).
    apply M_cat with (c' := [(1%nat, tag)]).
    { constructor. apply protocol_tag_matches, Htag. }
    apply M_cat with (c' := [(1%nat, tag)]).
    { apply plus_class_matches; assumption. }
    constructor. apply plus_class_matches; assumption.
Qed.

Lemma re_port_shape w c :
  matches re_port w [] c <->
  exists digits, port_mark digits w /\ c = [(1%nat, digits)].
Proof.
  unfold re_port, port_mark, all_of. split.
  - intros H.
    invert_cat H w1 r1 A T1. invert_cat T1 w2 r2 S1 G2.
    inversion G2; subst; clear G2. invert_classes.
    exists r2. split; [|reflexivity]. exists w2. repeat split; auto.
  - intros (digits & (sp & -> & Hsp & Hd & Had) & ->).
    apply M_cat with (c' := []).
    { constructor. apply N.eqb_refl. }
    apply M_cat with (c' := []).
    { apply star_class_matches; assumption. }
    constructor. apply plus_class_matches; assumption.
Qed.

(** [re.search] with one of these expressions: what a hit and a miss say
    about the text. *)
Lemma search_hit (r : regex) (line : pystr) (c : caps) :
  search r line = Some c -> occurs (fun w => matches r w [] c) line.
Proof. intros H. apply search_sound in H. exact H. Qed.

Lemma search_miss (r : regex) (line : pystr) :
  search r line = None -> forall c, ~ occurs (fun w => matches r w [] c) line.
Proof.
  intros H c (before & w & after & -> & M).
  apply (search_complete r before w after _ _ M). exact H.
Qed.

(** ** Flow line parser: what is accepted, and with which fields *)

(** An accepted record, read back into the searches that built it. *)
Lemma parse_line_accepted (line : pystr) (r : FlowRecord) :
  parse_line line = Accepted r ->
  exists m proto_match size_text,
    search re_addr line = Some m /\
    group m 1 = Some (src_ip r) /\ group m 2 = Some (dst_ip r) /\
    search re_proto line = Some proto_match /\
    group proto_match 1 = Some (protocol r) /\
    group proto_match 2 = Some size_text /\
    py_int size_text = Some (size r) /\
    port_of_line line = Some (dst_port r).
Proof.
  unfold parse_line, port_of_line.
  destruct (search re_addr line) as [m|]; [|discriminate].
  destruct (group m 1) as [src|] eqn:G1; [|discriminate].
  destruct (group m 2) as [dst|] eqn:G2; [|discriminate].
  destruct (search re_proto line) as [pm|]; [|discriminate].
  destruct (group pm 1) as [proto|] eqn:P1; [|discriminate].
  destruct (group pm 2) as [size_text|] eqn:P2; [|discriminate].
  destruct (py_int size_text) as [sz|] eqn:Hsz; [|discriminate].
  destruct (search re_port line) as [c|].
  - destruct (group c 1) as [t|]; [|discriminate].
    destruct (py_int t) as [port|] eqn:Hport; [|discriminate].
    intros H. inversion H; subst; clear H.
    cbn [src_ip dst_ip protocol size dst_port].
    exists m, pm, size_text. repeat split; assumption || reflexivity.
  - intros H. inversion H; subst; clear H.
    cbn [src_ip dst_ip protocol size dst_port].
    exists m, pm, size_text. repeat split; assumption || reflexivity.
Qed.

Lemma lower_addr_chars (w : pystr) : all_of is_addr_char w -> lower w = w.
Proof.
  unfold lower. induction 1 as [|x w Hx _ IH]; simpl; [reflexivity|].
  rewrite IH. f_equal. unfold lower_char, is_addr_char in *.
  destruct ((65 <=? x) && (x <=? 90)) eqn:E; [|reflexivity].
  apply andb_true_iff in E. destruct E as [E1 E2].
  apply N.leb_le in E1, E2.
  repeat (apply orb_true_iff in Hx; destruct Hx as [Hx|Hx]);
    repeat (apply andb_true_iff in Hx; destruct Hx as [Hx1 Hx2]);
    repeat match goal with
    | H : (_ <=? _) = true |- _ => apply N.leb_le in H
    | H : (_ =? _) = true |- _ => apply N.eqb_eq in H
    end; lia.
Qed.

(** X2. The fields of an accepted record: the source and the destination are
    the two addresses of an address pair of the line, non-empty and made of
    [a-f0-9:.], so already in lower case; the protocol is one of the six
    tags and the size is the number written after it. *)
Theorem accepted_record_fields (line : pystr) (r : FlowRecord) :
  parse_line line = Accepted r ->
  occurs (address_pair (src_ip r) (dst_ip r)) line /\
  (exists digits,
     occurs (protocol_size (protocol r) digits) line /\
     py_int digits = Some (size r)) /\
  src_ip r <> [] /\ dst_ip r <> [] /\
  all_of is_addr_char (src_ip r) /\ all_of is_addr_char (dst_ip r) /\
  lower (dst_ip r) = dst_ip r /\
  In (protocol r) PROTOCOLS.
Proof.
  intros H. apply parse_line_accepted in H.
  destruct H as (m & pm & size_text & Ea & G1 & G2 & Ep & P1 & P2 & Hsz & _).
  apply search_hit in Ea. destruct Ea as (b1 & w1 & a1 & E1 & M1).
  apply re_addr_shape in M1. destruct M1 as (src & dst & Hpair & ->).
  simpl in G1, G2. inversion G1; inversion G2; subst src dst.
  apply search_hit in Ep. destruct Ep as (b2 & w2 & a2 & E2 & M2).
  apply re_proto_shape in M2. destruct M2 as (tag & digits & Hps & ->).
  simpl in P1, P2. inversion P1; inversion P2; subst tag digits.
  pose proof Hpair as (sp1 & sp2 & _ & Hs & Has & _ & _ & Hd & Had).
  pose proof Hps as (sp & _ & Htag & _).
  split; [exists b1, w1, a1; auto|].
  split; [exists size_text; split; [exists b2, w2, a2; auto | exact Hsz]|].
  repeat split; auto. apply lower_addr_chars, Had.
Qed.

Lemma accepted_record_fields_witness :
  In (py "UDP") PROTOCOLS /\ lower (py "1.1.1.1") = py "1.1.1.1".
Proof.
  pose (line := py "  1 0.0 10.66.66.2 → 1.1.1.1 UDP 64 1 → 53").
  pose (r := flow "10.66.66.2" "1.1.1.1" 1 "UDP" 64).
  assert (H : parse_line line = Accepted r) by (vm_compute; reflexivity).
  destruct (accepted_record_fields line r H) as (_ & _ & _ & _ & _ & _ & Hl & Hp).
  split; [exact Hp | exact Hl].
Defined.

(** *** The three outcomes of the loop body *)

Lemma addr_found (line : pystr) (m : caps) :
  search re_addr line = Some m ->
  exists src dst,
    m = [(2%nat, dst); (1%nat, src)] /\ occurs (address_pair src dst) line.
Proof.
  intros E. apply search_hit in E. destruct E as (b & w & a & E & M).
  apply re_addr_shape in M. destruct M as (src & dst & Hpair & ->).
  exists src, dst. split; [reflexivity | exists b, w, a; auto].
Qed.

Lemma addr_missing (line : pystr) :
  search re_addr line = None ->
  forall src dst, ~ occurs (address_pair src dst) line.
Proof.
  intros E src dst (b & w & a & El & Hpair).
  apply (search_miss _ _ E [(2%nat, dst); (1%nat, src)]).
  exists b, w, a. split; [exact El|]. apply re_addr_shape. eauto.
Qed.

Lemma proto_found (line : pystr) (pm : caps) :
  search re_proto line = Some pm ->
  exists tag digits,
    pm = [(2%nat, digits); (1%nat, tag)] /\
    occurs (protocol_size tag digits) line.
Proof.
  intros E. apply search_hit in E. destruct E as (b & w & a & E & M).
  apply re_proto_shape in M. destruct M as (tag & digits & Hps & ->).
  exists tag, digits. split; [reflexivity | exists b, w, a; auto].
Qed.

Lemma proto_missing (line : pystr) :
  search re_proto line = None ->
  forall tag digits, ~ occurs (protocol_size tag digits) line.
Proof.
  intros E tag digits (b & w & a & El & Hps).
  apply (search_miss _ _ E [(2%nat, digits); (1%nat, tag)]).
  exists b, w, a. split; [exact El|]. apply re_proto_shape. eauto.
Qed.

Lemma port_found (line : pystr) (c : caps) :
  search re_port line = Some c ->
  exists digits, c = [(1%nat, digits)] /\ occurs (port_mark digits) line.
Proof.
  intros E. apply search_hit in E. destruct E as (b & w & a & E & M).
  apply re_port_shape in M. destruct M as (digits & Hmark & ->).
  exists digits. split; [reflexivity | exists b, w, a; auto].
Qed.

Lemma protocol_size_digits tag digits w :
  protocol_size tag digits w -> digits <> [] /\ all_of is_digit digits.
Proof. intros (sp & _ & _ & _ & _ & H). exact H. Qed.

Lemma port_mark_digits digits w :
  port_mark digits w -> digits <> [] /\ all_of is_digit digits.
Proof. intros (sp & _ & _ & H). exact H. Qed.

(** A line on which both expressions find something gives a record, or
    makes [int] raise on the size or on the port. *)
Lemma parse_line_found (line : pystr) (m pm : caps) :
  search re_addr line = Some m ->
  search re_proto line = Some pm ->
  exists src dst tag digits,
    m = [(2%nat, dst); (1%nat, src)] /\
    pm = [(2%nat, digits); (1%nat, tag)] /\
    occurs (address_pair src dst) line /\
    occurs (protocol_size tag digits) line /\
    ((exists sz port,
        py_int digits = Some sz /\
        parse_line line = Accepted (mkFlow src dst port tag sz)) \/
     (py_int digits = None /\ parse_line line = Raised (int_error digits)) \/
     (exists t,
        occurs (port_mark t) line /\ py_int t = None /\
        parse_line line = Raised (int_error t))).
Proof.
  intros Ea Ep. pose proof (parse_line_cases line) as Hc.
  rewrite Ea, Ep in Hc.
  destruct (addr_found _ _ Ea) as (src & dst & -> & Hpair).
  destruct (proto_found _ _ Ep) as (tag & digits & -> & Hps).
  destruct Hc as (src' & dst' & tag' & digits' & G1 & G2 & P1 & P2 & Hc).
  cbn [group Nat.eqb] in G1, G2, P1, P2.
  inversion G1; inversion G2; inversion P1; inversion P2; subst.
  clear G1 G2 P1 P2.
  exists src', dst', tag', digits'.
  do 4 (split; [reflexivity || assumption|]).
  destruct (py_int digits') as [sz|]; [|right; left; auto].
  destruct (search re_port line) as [c|] eqn:Eport.
  - destruct (port_found _ _ Eport) as (t & -> & Hmark).
    destruct Hc as (t' & G & Hc). cbn [group Nat.eqb] in G.
    inversion G; subst; clear G.
    destruct (py_int t') as [port|] eqn:Et.
    + left. exists sz, port. auto.
    + right. right. exists t'. auto.
  - left. exists sz, 0. auto.
Qed.

Lemma int_error_message (t : pystr) :
  t <> [] -> all_of is_digit t -> py_int t = None ->
  int_max_str_digits < N.of_nat (List.length t) /\
  int_error t = int_limit_error (List.length t).
Proof.
  intros Hne Hall E. split; [|reflexivity].
  apply py_int_refuses; assumption.
Qed.

(** [int] raises only on a number of the line that is too long. *)
Lemma parse_line_raised (line : pystr) (e : pystr) :
  parse_line line = Raised e ->
  exists digits,
    number_in digits line /\
    int_max_str_digits < N.of_nat (List.length digits) /\
    e = int_limit_error (List.length digits).
Proof.
  intros H. pose proof (parse_line_cases line) as Hc.
  destruct (search re_addr line) as [m|] eqn:Ea; [|congruence].
  destruct (search re_proto line) as [pm|] eqn:Ep; [|congruence].
  clear Hc.
  destruct (parse_line_found line m pm Ea Ep)
    as (src & dst & tag & digits & _ & _ & _ & Hps & Hc).
  destruct Hc as [(sz & port & _ & Hc)|[(Hint & Hc)|(t & Hmark & Hint & Hc)]].
  - congruence.
  - rewrite Hc in H. inversion H; subst; clear H.
    destruct Hps as (b & w & a & El & Hps).
    destruct (protocol_size_digits _ _ _ Hps) as [Hne Hall].
    exists digits. split; [left; exists tag, b, w, a; auto|].
    apply int_error_message; assumption.
  - rewrite Hc in H. inversion H; subst; clear H.
    destruct Hmark as (b & w & a & El & Hmark).
    destruct (port_mark_digits _ _ Hmark) as [Hne Hall].
    exists t. split; [right; exists b, w, a; auto|].
    apply int_error_message; assumption.
Qed.

Lemma parse_line_fits (line : pystr) :
  numbers_fit line -> forall e, parse_line line <> Raised e.
Proof.
  intros Hfit e H. apply parse_line_raised in H.
  destruct H as (digits & Hin & Hlong & _).
  apply Hfit in Hin. apply N.lt_nge in Hlong. contradiction.
Qed.

(** A line is rejected exactly when it lacks the address pair or the
    protocol with its size. *)
Lemma parse_line_rejected (line : pystr) :
  parse_line line = Rejected <->
  ~ ((exists src dst, occurs (address_pair src dst) line) /\
     (exists tag digits, occurs (protocol_size tag digits) line)).
Proof.
  pose proof (parse_line_cases line) as Hc. split.
  - intros H [(src & dst & Hpair) (tag & digits & Hps)].
    destruct (search re_addr line) as [m|] eqn:Ea;
      [|exact (addr_missing _ Ea _ _ Hpair)].
    destruct (search re_proto line) as [pm|] eqn:Ep;
      [|exact (proto_missing _ Ep _ _ Hps)].
    destruct (parse_line_found line m pm Ea Ep)
      as (s' & d' & tag' & digits' & _ & _ & _ & _ & Hf).
    destruct Hf as [(sz & port & _ & Hf)|[(_ & Hf)|(t & _ & _ & Hf)]];
      congruence.
  - intros Hno.
    destruct (search re_addr line) as [m|] eqn:Ea; [|exact Hc].
    destruct (search re_proto line) as [pm|] eqn:Ep; [|exact Hc].
    exfalso. apply Hno.
    destruct (addr_found _ _ Ea) as (src & dst & _ & Hpair).
    destruct (proto_found _ _ Ep) as (tag & digits & _ & Hps).
    split; eauto.
Qed.






(** X1. A line is skipped, without a record and without an exception,
    exactly when it lacks the address pair or the protocol tag followed by
    blanks and digits. When no number after a tag or an arrow has more
    digits than [int] takes, the line gives a record exactly when it holds
    both. The loop body raises only on such a number that is too long, with
    the message of [int] for it. *)
Theorem parse_line_accepts_iff (line : pystr) :
  let has_pair := exists src dst, occurs (address_pair src dst) line in
  let has_size := exists tag digits, occurs (protocol_size tag digits) line in
  (parse_line line = Rejected <-> ~ (has_pair /\ has_size)) /\
  ((exists r, parse_line line = Accepted r) -> has_pair /\ has_size) /\
  (numbers_fit line ->
   ((exists r, parse_line line = Accepted r) <-> has_pair /\ has_size)) /\
  (forall e,
     parse_line line = Raised e ->
     has_pair /\ has_size /\
     exists digits,
       number_in digits line /\
       int_max_str_digits < N.of_nat (List.length digits) /\
       e = int_limit_error (List.length digits)).
Proof.
  cbv zeta.
  assert (Hboth : forall m pm,
            search re_addr line = Some m -> search re_proto line = Some pm ->
            (exists src dst, occurs (address_pair src dst) line) /\
            (exists tag digits, occurs (protocol_size tag digits) line)).
  { intros m pm Ea Ep.
    destruct (addr_found _ _ Ea) as (src & dst & _ & Hpair).
    destruct (proto_found _ _ Ep) as (tag & digits & _ & Hps).
    split; eauto. }
  assert (Hacc : (exists r, parse_line line = Accepted r) ->
                 (exists src dst, occurs (address_pair src dst) line) /\
                 (exists tag digits, occurs (protocol_size tag digits) line)).
  { intros [r H]. apply parse_line_accepted in H.
    destruct H as (m & pm & size_text & Ea & _ & _ & Ep & _). eauto. }
  split; [apply parse_line_rejected|]. split; [exact Hacc|]. split.
  - intros Hfit. split; [exact Hacc|].
    intros Hhas.
    destruct (parse_line line) as [r| |e] eqn:E.
    + eauto.
    + apply parse_line_rejected in E. contradiction.
    + destruct (parse_line_fits line Hfit e E).
  - intros e H. pose proof (parse_line_raised line e H) as Hr.
    pose proof (parse_line_cases line) as Hc.
    destruct (search re_addr line) as [m|] eqn:Ea; [|congruence].
    destruct (search re_proto line) as [pm|] eqn:Ep; [|congruence].
    destruct (Hboth m pm eq_refl eq_refl) as [Hp Hs]. auto.
Qed.

(** *** The port expression, step by step *)

Lemma space_not_digit (x : char) : is_space x = true -> is_digit x = false.
Proof.
  unfold is_space. intros H.
  assert (Hx : x <= 12288).
  { repeat (apply orb_true_iff in H; destruct H as [H|H]);
      repeat (apply andb_true_iff in H; destruct H as [H1 H2]);
      repeat match goal with
      | H : (_ <=? _) = true |- _ => apply N.leb_le in H
      | H : (_ =? _) = true |- _ => apply N.eqb_eq in H
      end; lia. }
  assert (Hs : In x [9; 10; 11; 12; 13; 28; 29; 30; 31; 32; 133; 160; 5760;
                     8192; 8193; 8194; 8195; 8196; 8197; 8198; 8199; 8200;
                     8201; 8202; 8232; 8233; 8239; 8287; 12288]).
  { cbn [In].
    repeat (apply orb_true_iff in H; destruct H as [H|H]);
      repeat (apply andb_true_iff in H; destruct H as [H1 H2]);
      repeat match goal with
      | H : (_ <=? _) = true |- _ => apply N.leb_le in H
      | H : (_ =? _) = true |- _ => apply N.eqb_eq in H
      end; lia. }
  cbn [In] in Hs.
  repeat (destruct Hs as [<-|Hs]; [vm_compute; reflexivity|]).
  contradiction.
Qed.

Lemma length_skip_while (p : char -> bool) (s : pystr) :
  (List.length (skip_while p s) <= List.length s)%nat.
Proof.
  induction s as [|x s IH]; simpl; [lia|]. destruct (p x); simpl; lia.
Qed.

Lemma take_skip_while (p : char -> bool) (s : pystr) :
  take_while p s ++ skip_while p s = s.
Proof.
  induction s as [|x s IH]; simpl; [reflexivity|].
  destruct (p x); simpl; [rewrite IH|]; reflexivity.
Qed.

(** A greedy loop over one class, before a continuation that refuses every
    text starting in the class, stops where the class stops. *)
Lemma star_class_run (p : char -> bool) (k : pystr -> caps -> option caps) :
  (forall x s c, p x = true -> k (x :: s) c = None) ->
  forall fuel s c,
    (List.length s <= fuel)%nat ->
    star_loop (Class p) k fuel s c = k (skip_while p s) c.
Proof.
  intros Hk. induction fuel as [|fuel IH]; intros s c Hfuel.
  - destruct s; [reflexivity | simpl in Hfuel; lia].
  - destruct s as [|x s]; [reflexivity|].
    cbn [star_loop rmatch skip_while]. destruct (p x) eqn:E; [|reflexivity].
    replace (List.length s <? List.length (x :: s))%nat with true
      by (symmetry; apply Nat.ltb_lt; simpl; lia).
    rewrite IH by (simpl in Hfuel; lia).
    destruct (k (skip_while p s) c) eqn:Ek; [reflexivity|].
    apply Hk, E.
Qed.

(** The same before a continuation that always succeeds at the end of the
    run: the loop takes the whole run. *)
Lemma star_class_greedy (p : char -> bool) (k : pystr -> caps -> option caps) :
  forall fuel s c res,
    (List.length s <= fuel)%nat ->
    k (skip_while p s) c = Some res ->
    star_loop (Class p) k fuel s c = Some res.
Proof.
  induction fuel as [|fuel IH]; intros s c res Hfuel Hk.
  - destruct s; [exact Hk | simpl in Hfuel; lia].
  - destruct s as [|x s]; [exact Hk|].
    cbn [star_loop rmatch]. cbn [skip_while] in Hk.
    destruct (p x) eqn:E; [|exact Hk].
    replace (List.length s <? List.length (x :: s))%nat with true
      by (symmetry; apply Nat.ltb_lt; simpl; lia).
    rewrite (IH s c res) by (simpl in Hfuel; lia || exact Hk). reflexivity.
Qed.

Lemma firstn_take_while (p : char -> bool) (s : pystr) :
  firstn (List.length s - List.length (skip_while p s)) s = take_while p s.
Proof.
  rewrite <- (take_skip_while p s) at 1 3.
  rewrite length_app, Nat.add_sub, firstn_app, Nat.sub_diag, firstn_all.
  simpl. apply app_nil_r.
Qed.

Lemma rmatch_cat (r1 r2 : regex) s c k :
  rmatch (Cat r1 r2) s c k = rmatch r1 s c (fun s' c' => rmatch r2 s' c' k).
Proof. reflexivity. Qed.

Lemma rmatch_group (i : nat) (r1 : regex) s c k :
  rmatch (Group i r1) s c k
  = rmatch r1 s c
      (fun s' c' =>
         k s' ((i, firstn (List.length s - List.length s') s) :: c')).
Proof. reflexivity. Qed.

Lemma rmatch_class (p : char -> bool) s c k :
  rmatch (Class p) s c k
  = match s with
    | x :: s' => if p x then k s' c else None
    | [] => None
    end.
Proof. reflexivity. Qed.

(** The digits group at the head of a text. *)
Lemma digits_group_here (s : pystr) (c : caps) :
  rmatch (Group 1 (Plus (Class is_digit))) s c (fun _ c0 => Some c0)
  = match take_while is_digit s with
    | [] => None
    | digits => Some ((1%nat, digits) :: c)
    end.
Proof.
  unfold Plus. rewrite rmatch_group, rmatch_cat, rmatch_class.
  destruct s as [|x s]; [reflexivity|].
  cbn [take_while]. destruct (is_digit x) eqn:E; [|reflexivity].
  rewrite rmatch_star.
  erewrite star_class_greedy; [|lia|reflexivity].
  pose proof (firstn_take_while is_digit (x :: s)) as H.
  cbn [skip_while take_while] in H. rewrite E in H. rewrite H. reflexivity.
Qed.

Lemma match_here_re_port (s : pystr) :
  match_here re_port s
  = match s with
    | x :: rest =>
        if arrow =? x then
          match take_while is_digit (skip_while is_space rest) with
          | [] => None
          | digits => Some [(1%nat, digits)]
          end
        else None
    | [] => None
    end.
Proof.
  unfold match_here, re_port. rewrite rmatch_cat, rmatch_class.
  destruct s as [|x rest]; [reflexivity|].
  destruct (arrow =? x); [|reflexivity].
  rewrite rmatch_cat, rmatch_star.
  rewrite star_class_run; [apply digits_group_here | | lia].
  intros y s c Hy. rewrite digits_group_here. cbn [take_while].
  rewrite (space_not_digit y Hy). reflexivity.
Qed.

Lemma search_re_port (line : pystr) :
  search re_port line
  = match first_port_digits line with
    | Some digits => Some [(1%nat, digits)]
    | None => None
    end.
Proof.
  induction line as [|x rest IH].
  - reflexivity.
  - cbn [search first_port_digits]. rewrite match_here_re_port.
    destruct (arrow =? x); [|exact IH].
    destruct (take_while is_digit (skip_while is_space rest));
      [exact IH | reflexivity].
Qed.

Lemma skip_while_app (p : char -> bool) (s t : pystr) :
  skip_while p (s ++ t)
  = match skip_while p s with
    | [] => skip_while p t
    | rest => rest ++ t
    end.
Proof.
  induction s as [|x s IH]; simpl.
  - destruct (skip_while p t); [reflexivity | symmetry; apply app_nil_l].
  - destruct (p x); [exact IH | reflexivity].
Qed.

Lemma take_while_all (p : char -> bool) (s : pystr) : all_of p (take_while p s).
Proof.
  induction s as [|x s IH]; simpl; [constructor|].
  destruct (p x) eqn:E; constructor; assumption.
Qed.

Lemma skip_while_all (p : char -> bool) (s t : pystr) :
  all_of p s -> skip_while p (s ++ t) = skip_while p t.
Proof.
  induction 1 as [|x s Hx _ IH]; simpl; [reflexivity|].
  rewrite Hx. exact IH.
Qed.

Lemma take_while_run (p : char -> bool) (s t : pystr) :
  all_of p s ->
  (forall x rest, t = x :: rest -> p x = false) ->
  take_while p (s ++ t) = s.
Proof.
  intros Hs Ht. induction Hs as [|x s Hx _ IH]; simpl.
  - destruct t as [|y t]; [reflexivity|]. simpl.
    now rewrite (Ht y t eq_refl).
  - rewrite Hx, IH. reflexivity.
Qed.

Lemma arrow_not_space : is_space arrow = false.
Proof. reflexivity. Qed.

Lemma arrow_not_digit : is_digit arrow = false.
Proof. vm_compute. reflexivity. Qed.

(** Arrows with no digits after them are passed over. *)
Lemma first_port_digits_skips (before rest : pystr) :
  (forall digits, ~ occurs (port_mark digits) before) ->
  first_port_digits (before ++ arrow :: rest)
  = first_port_digits (arrow :: rest).
Proof.
  induction before as [|x b IH]; intros Hno; [reflexivity|].
  assert (Hb : forall digits, ~ occurs (port_mark digits) b).
  { intros d (b1 & w & a & E & Hm). apply (Hno d).
    exists (x :: b1), w, a. split; [rewrite E; reflexivity | exact Hm]. }
  change ((x :: b) ++ arrow :: rest) with (x :: (b ++ arrow :: rest)).
  cbn [first_port_digits].
  destruct (arrow =? x) eqn:Ex; [|apply IH, Hb].
  apply N.eqb_eq in Ex. subst x.
  rewrite skip_while_app.
  destruct (skip_while is_space b) as [|y b'] eqn:Eb.
  - cbn [skip_while]. rewrite arrow_not_space. cbn [take_while].
    rewrite arrow_not_digit. apply IH, Hb.
  - cbn [app take_while]. destruct (is_digit y) eqn:Ey; [|apply IH, Hb].
    exfalso. apply (Hno [y]).
    exists [], ([arrow] ++ take_while is_space b ++ [y]), b'. split.
    + cbn [app]. f_equal. rewrite <- (take_skip_while is_space b) at 1.
      rewrite Eb, <- app_assoc. reflexivity.
    + exists (take_while is_space b). split; [reflexivity|].
      split; [apply take_while_all|].
      split; [discriminate|]. constructor; [exact Ey | constructor].
Qed.

Lemma first_port_digits_here (sp digits after : pystr) :
  all_of is_space sp -> digits <> [] -> all_of is_digit digits ->
  (forall x rest, after = x :: rest -> is_digit x = false) ->
  first_port_digits (arrow :: sp ++ digits ++ after) = Some digits.
Proof.
  intros Hsp Hne Hd Hafter. cbn [first_port_digits].
  rewrite N.eqb_refl, skip_while_all by exact Hsp.
  destruct digits as [|d ds]; [contradiction|].
  inversion Hd as [|? ? Hd1 Hd2]; subst.
  assert (Hs : skip_while is_space ((d :: ds) ++ after) = (d :: ds) ++ after).
  { cbn [app skip_while]. destruct (is_space d) eqn:E; [|reflexivity].
    apply space_not_digit in E. congruence. }
  rewrite Hs, take_while_run by assumption. reflexivity.
Qed.

Lemma port_of_line_digits (line : pystr) :
  port_of_line line
  = match first_port_digits line with
    | Some digits => py_int digits
    | None => Some 0
    end.
Proof.
  unfold port_of_line. rewrite search_re_port.
  destruct (first_port_digits line); reflexivity.
Qed.

(** X3. The stored port is the whole number written after the first arrow of
    the line that has digits after it, blanks apart: whatever decomposition
    of the line puts, after a stretch holding no arrow followed by digits,
    an arrow, blanks and a full run of digits, the port is the value of that
    run. When no arrow of the line is followed by digits the port is 0. *)
Theorem dst_port_first_marked_number (line : pystr) (r : FlowRecord) :
  parse_line line = Accepted r ->
  (forall before sp digits after,
     line = before ++ [arrow] ++ sp ++ digits ++ after ->
     (forall d, ~ occurs (port_mark d) before) ->
     all_of is_space sp -> digits <> [] -> all_of is_digit digits ->
     (forall x rest, after = x :: rest -> is_digit x = false) ->
     py_int digits = Some (dst_port r)) /\
  ((forall digits, ~ occurs (port_mark digits) line) -> dst_port r = 0).
Proof.
  intros H. apply parse_line_accepted in H.
  destruct H as (_ & _ & _ & _ & _ & _ & _ & _ & _ & _ & Hport).
  split.
  - intros before sp digits after -> Hno Hsp Hne Hd Hafter.
    rewrite port_of_line_digits in Hport.
    change ([arrow] ++ sp ++ digits ++ after)
      with (arrow :: sp ++ digits ++ after) in Hport.
    rewrite first_port_digits_skips, first_port_digits_here in Hport
      by assumption.
    exact Hport.
  - intros Hno. unfold port_of_line in Hport.
    destruct (search re_port line) as [pm|] eqn:Ep.
    + exfalso. apply search_hit in Ep. destruct Ep as (b & w & a & E & M).
      apply re_port_shape in M. destruct M as (digits & Hmark & _).
      apply (Hno digits). exists b, w, a. auto.
    + congruence.
Qed.

Lemma dst_port_first_marked_number_witness :
  py_int (py "142") = Some 142.
Proof.
  pose (line := py "10.66.66.2 → 142.250.70.14 TCP 60 51000 → 443").
  pose (r := flow "10.66.66.2" "142.250.70.14" 142 "TCP" 60).
  assert (H : parse_line line = Accepted r) by (vm_compute; reflexivity).
  refine (proj1 (dst_port_first_marked_number line r H)
            (py "10.66.66.2 ") (py " ") (py "142")
            (py ".250.70.14 TCP 60 51000 → 443") _ _ _ _ _ _).
  - vm_compute. reflexivity.
  - intros d (b & w & a & E & sp & -> & _).
    assert (Hin : In arrow (py "10.66.66.2 ")).
    { rewrite E. apply in_or_app. right. left. reflexivity. }
    vm_compute in Hin. intuition discriminate.
  - change (all_of is_space [32]).
    repeat (apply Forall_cons; [vm_compute; reflexivity|]). apply Forall_nil.
  - discriminate.
  - change (all_of is_digit [49; 52; 50]).
    repeat (apply Forall_cons; [vm_compute; reflexivity|]). apply Forall_nil.
  - intros x rest E. vm_compute in E. inversion E. vm_compute. reflexivity.
Defined.

(** ** Capture and entry point *)

Lemma read_loop_outcome (events : list stream_event) :
  forall packets,
    read_loop events packets
    = mkCapture
        (packets ++ accepted_records (before_raise (live_lines events)))
        (match capture_failure events with
         | Some e => [py "Error capturing traffic: " ++ e]
         | None => []
         end)
        (match capture_failure events with
         | Some _ => false
         | None => true
         end).
Proof.
  unfold capture_failure.
  induction events as [|[[|] text|e] events IH]; intros packets;
    cbn [read_loop live_lines stop_event before_raise first_raise
         accepted_records flat_map].
  - rewrite app_nil_r. reflexivity.
  - rewrite app_nil_r. reflexivity.
  - destruct (parse_line text) as [r| |e] eqn:E;
      cbn [flat_map]; rewrite ?E; fold accepted_records.
    + fold (accepted_records (before_raise (live_lines events))).
      rewrite IH, <- app_assoc. reflexivity.
    + fold (accepted_records (before_raise (live_lines events))).
      rewrite IH. reflexivity.
    + rewrite app_nil_r. reflexivity.
  - rewrite app_nil_r. reflexivity.
Qed.

Lemma first_raise_in (lines : list pystr) (e : pystr) :
  first_raise lines = Some e ->
  exists text, In text lines /\ parse_line text = Raised e.
Proof.
  induction lines as [|text lines IH]; simpl; [discriminate|].
  destruct (parse_line text) as [r| |e'] eqn:E; intros H.
  - destruct (IH H) as (t & Hin & Ht). eauto.
  - destruct (IH H) as (t & Hin & Ht). eauto.
  - inversion H; subst. eauto.
Qed.

Lemma no_raise_when_fit (lines : list pystr) :
  Forall numbers_fit lines ->
  before_raise lines = lines /\ first_raise lines = None.
Proof.
  induction 1 as [|text lines Hfit _ [IH1 IH2]]; simpl; [auto|].
  pose proof (parse_line_fits text Hfit) as Hno.
  destruct (parse_line text) as [r| |e]; rewrite ?IH1; auto.
  destruct (Hno e eq_refl).
Qed.

(** X4. What [capture_traffic] returns once the process has started: the
    records of the accepted lines read before the deadline, a failure of
    the read, or a line on which [int] raises, in the order of the lines;
    the line in hand at the deadline and everything after it are dropped.
    An exception, of the read or of [int], is written once to standard
    error and leaves the process without the request to terminate; the
    packets read before it are kept. [int] raises only on a line in which
    a number after a protocol tag or an arrow has more digits than the
    limit; when every line read fits, every accepted line is kept. *)
Theorem capture_traffic_outcome (out : list stream_event) :
  capture_traffic (Started out)
  = mkCapture
      (accepted_records (before_raise (live_lines out)))
      (match capture_failure out with
       | Some e => [py "Error capturing traffic: " ++ e]
       | None => []
       end)
      (match capture_failure out with
       | Some _ => false
       | None => true
       end) /\
  (Forall numbers_fit (live_lines out) ->
   before_raise (live_lines out) = live_lines out /\
   first_raise (live_lines out) = None) /\
  (forall e,
     first_raise (live_lines out) = Some e ->
     exists text digits,
       In text (live_lines out) /\ number_in digits text /\
       int_max_str_digits < N.of_nat (List.length digits) /\
       e = int_limit_error (List.length digits)).
Proof.
  split; [apply (read_loop_outcome out [])|].
  split; [apply no_raise_when_fit|].
  intros e H. apply first_raise_in in H. destruct H as (text & Hin & H).
  apply parse_line_raised in H. destruct H as (digits & H).
  exists text, digits. tauto.
Qed.

Lemma cap_packets_captured (proc : popen_outcome) :
  cap_packets (capture_traffic proc) = captured proc.
Proof.
  destruct proc as [e|out]; [reflexivity|].
  unfold capture_traffic. rewrite read_loop_outcome. reflexivity.
Qed.

Lemma total_packets_length (now : pystr) (pkts : list FlowRecord) :
  total_packets (summarize_traffic now pkts) = N.of_nat (List.length pkts).
Proof. destruct pkts; reflexivity. Qed.

(** ** Statistics of a destination *)

Lemma stats_of_count_other d (p : FlowRecord) (dst : pystr) :
  is_outbound p && str_eqb dst (dst_ip p) = false ->
  stats_of (count_packet d p) dst = stats_of d dst /\
  PyDict.get (count_packet d p) dst = PyDict.get d dst.
Proof.
  intros H. destruct (is_outbound p) eqn:Eo.
  - simpl in H. apply str_eqb_neq in H.
    rewrite count_packet_outbound by exact Eo.
    unfold stats_of. rewrite get_set_other by exact H. auto.
  - rewrite count_packet_inbound by exact Eo. auto.
Qed.

Lemma fold_count_statistics (pkts : list FlowRecord) (dst : pystr) :
  forall d,
    let mine := to_destination dst pkts in
    let before := stats_of d dst in
    let after := stats_of (fold_left count_packet pkts d) dst in
    st_packets after = st_packets before + N.of_nat (List.length mine) /\
    st_bytes after = st_bytes before + sum_sizes mine /\
    (forall port,
       set_In port (st_ports after)
       <-> set_In port (st_ports before) \/ In port (map dst_port mine)) /\
    (PyDict.get (fold_left count_packet pkts d) dst = None
     <-> PyDict.get d dst = None /\ mine = []).
Proof.
  induction pkts as [|p pkts IH]; intros d; cbn [fold_left].
  - simpl. repeat split; try lia; tauto.
  - specialize (IH (count_packet d p)). cbn zeta in IH |- *.
    destruct IH as (Hp & Hb & Hports & Hnone).
    unfold to_destination in *. cbn [filter].
    destruct (is_outbound p && str_eqb dst (dst_ip p)) eqn:E.
    + apply andb_true_iff in E. destruct E as [Eo Ed].
      apply str_eqb_eq in Ed. subst dst.
      rewrite (stats_of_count_same d p Eo) in Hp, Hb, Hports.
      cbn [st_packets st_bytes st_ports] in Hp, Hb, Hports.
      cbn [List.length map sum_sizes fold_right].
      fold (sum_sizes
              (filter (fun p0 => is_outbound p0 && str_eqb (dst_ip p) (dst_ip p0))
                      pkts)).
      split; [rewrite Hp; lia|]. split; [rewrite Hb; lia|]. split.
      * intros port. rewrite Hports. cbn [In]. split.
        -- intros [H|H]; [|tauto]. apply set_add_elim in H.
           destruct H as [->|H]; tauto.
        -- intros [H|[<-|H]].
           ++ left. apply set_add_intro1. exact H.
           ++ left. apply set_add_intro2. reflexivity.
           ++ tauto.
      * rewrite Hnone. rewrite count_packet_outbound by exact Eo.
        rewrite get_set_same. split; [intros [H _]; discriminate|].
        intros [_ H]; discriminate.
    + destruct (stats_of_count_other d p dst E) as [Es Eg].
      rewrite Es in Hp, Hb, Hports. rewrite Eg in Hnone.
      split; [exact Hp|]. split; [exact Hb|].
      split; [exact Hports | exact Hnone].
Qed.

Lemma statistics_of_destination (pkts : list FlowRecord) (dst : pystr) :
  st_packets (stats_of (aggregate pkts) dst)
  = N.of_nat (List.length (to_destination dst pkts)) /\
  st_bytes (stats_of (aggregate pkts) dst)
  = sum_sizes (to_destination dst pkts) /\
  (forall port,
     set_In port (st_ports (stats_of (aggregate pkts) dst)) <->
     In port (map dst_port (to_destination dst pkts))) /\
  (PyDict.get (aggregate pkts) dst = None <-> to_destination dst pkts = []).
Proof.
  destruct (fold_count_statistics pkts dst []) as (Hp & Hb & Hports & Hnone).
  unfold aggregate.
  change (stats_of [] dst) with default_stats in *.
  cbn [default_stats st_packets st_bytes st_ports] in *.
  split; [rewrite Hp; lia|]. split; [rewrite Hb; lia|]. split.
  - intros port. rewrite Hports. unfold empty_set. simpl. tauto.
  - rewrite Hnone. simpl. tauto.
Qed.

(** X6. The statistics kept for a destination are those of the outbound
    records sent to it: their number, the sum of their sizes and the set of
    their ports; a destination has an entry exactly when some outbound
    record goes to it. *)
Theorem aggregate_statistics (pkts : list FlowRecord) (dst : pystr) :
  let mine := to_destination dst pkts in
  let st := stats_of (aggregate pkts) dst in
  st_packets st = N.of_nat (List.length mine) /\
  st_bytes st = sum_sizes mine /\
  (forall port, set_In port (st_ports st) <-> In port (map dst_port mine)) /\
  NoDup (st_ports st) /\
  (PyDict.get (aggregate pkts) dst = None <-> mine = []).
Proof.
  destruct (statistics_of_destination pkts dst) as (Hp & Hb & Hports & Hnone).
  cbn zeta.
  split; [exact Hp|]. split; [exact Hb|]. split; [exact Hports|].
  split; [apply (ports_distinct_aggregate pkts dst) | exact Hnone].
Qed.

(** *** Keys of a dict are distinct *)

Lemma existsb_str_eqb (k : pystr) (l : list pystr) :
  existsb (str_eqb k) l = true <-> In k l.
Proof.
  rewrite existsb_exists. split.
  - intros (x & Hx & E). apply str_eqb_eq in E. subst. exact Hx.
  - intros H. exists k. split; [exact H | apply str_eqb_refl].
Qed.

Lemma remember_NoDup (seen : list pystr) (k : pystr) :
  NoDup seen -> NoDup (remember seen k).
Proof.
  intros H. unfold remember. destruct (existsb (str_eqb k) seen) eqn:E.
  - exact H.
  - apply NoDup_app; [exact H | repeat constructor; simpl; tauto |].
    intros x Hx [<-|[]]. apply existsb_str_eqb in Hx. congruence.
Qed.

Lemma first_occurrences_NoDup (l : list pystr) : NoDup (first_occurrences l).
Proof.
  unfold first_occurrences.
  assert (H : forall acc, NoDup acc -> NoDup (fold_left remember l acc)).
  { induction l as [|k l IH]; intros acc Hacc; simpl; [exact Hacc|].
    apply IH, remember_NoDup, Hacc. }
  apply H. constructor.
Qed.

Lemma aggregate_keys_NoDup (pkts : list FlowRecord) :
  NoDup (PyDict.keys (aggregate pkts)).
Proof.
  destruct (aggregate_sums pkts) as (_ & _ & ->).
  apply first_occurrences_NoDup.
Qed.

Lemma get_of_entry {V : Type} (d : PyDict.dict V) (k : pystr) (v : V) :
  NoDup (PyDict.keys d) -> In (k, v) d -> PyDict.get d k = Some v.
Proof.
  unfold PyDict.keys. induction d as [|[k' v'] d IH]; simpl; [tauto|].
  intros Hnd [E|Hin].
  - inversion E; subst. rewrite str_eqb_refl. reflexivity.
  - inversion Hnd; subst. destruct (str_eqb k k') eqn:E.
    + apply str_eqb_eq in E. subst k'. exfalso.
      match goal with H : ~ In _ _ |- _ => apply H end.
      apply in_map_iff. exists (k, v). auto.
    + apply IH; assumption.
Qed.

(** *** Ports in ascending order *)

Lemma insert_asc_In (x z : N) (l : list N) :
  In z (insert_asc x l) <-> z = x \/ In z l.
Proof.
  induction l as [|y l IH]; simpl; [intuition auto|].
  destruct (y <? x); simpl; [rewrite IH|]; intuition auto.
Qed.

Lemma insert_asc_sorted (x : N) (l : list N) :
  StronglySorted N.lt l -> ~ In x l -> StronglySorted N.lt (insert_asc x l).
Proof.
  induction 1 as [|y l Hl IH Hy]; intros Hx; simpl.
  - repeat constructor.
  - destruct (N.ltb_spec y x) as [Hlt|Hge].
    + constructor; [apply IH; intros Hc; apply Hx; right; exact Hc|].
      rewrite Forall_forall in *. intros z Hz.
      apply insert_asc_In in Hz. destruct Hz as [->|Hz]; auto.
    + assert (x <> y) by (intros ->; apply Hx; left; reflexivity).
      assert (x < y) by lia.
      constructor; [constructor; assumption|].
      constructor; [assumption|].
      eapply Forall_impl; [|exact Hy]. simpl. intros; lia.
Qed.

Lemma sorted_asc_spec (l : list N) :
  NoDup l ->
  StronglySorted N.lt (sorted_asc l) /\
  forall z, In z (sorted_asc l) <-> In z l.
Proof.
  induction 1 as [|x l Hx _ [IHs IHi]]; simpl.
  - split; [constructor | tauto].
  - split.
    + apply insert_asc_sorted; [exact IHs | rewrite IHi; exact Hx].
    + intros z. rewrite insert_asc_In, IHi. intuition auto.
Qed.

(** *** Every connection of the summary *)

Lemma in_all_connections d conn :
  In conn (all_connections d) <-> exists k st, In (k, st) d /\ conn = resolve (k, st).
Proof.
  unfold all_connections, PyDict.items. rewrite in_map_iff. split.
  - intros ([k st] & <- & Hin).
    exists k, st. split; [|reflexivity].
    eapply Permutation_in; [apply sorted_desc_perm | exact Hin].
  - intros (k & st & Hin & ->). exists (k, st). split; [reflexivity|].
    eapply Permutation_in; [apply Permutation_sym, sorted_desc_perm|].
    exact Hin.
Qed.

Lemma in_connections (now : pystr) (pkts : list FlowRecord) conn :
  In conn (connections (summarize_traffic now pkts)) ->
  In conn (all_connections (aggregate pkts)).
Proof.
  destruct pkts as [|p pkts]; [intros []|].
  change (connections (summarize_traffic now (p :: pkts)))
    with (firstn 20 (all_connections (aggregate (p :: pkts)))).
  apply in_firstn.
Qed.

(** X7. A connection of the summary stands for the outbound records sent to
    its address: there is at least one, its packet count is their number,
    its byte count the sum of their sizes, its ports are their ports in
    ascending order without repetition; its service is the name found for
    the address, "Unknown" when there is none, and then the category is
    "other". *)
Theorem connection_summary_fields
  (now : pystr) (pkts : list FlowRecord) (conn : ConnectionSummary) :
  In conn (connections (summarize_traffic now pkts)) ->
  let mine := to_destination (ip conn) pkts in
  mine <> [] /\
  packets conn = N.of_nat (List.length mine) /\
  1 <= packets conn /\
  bytes conn = sum_sizes mine /\
  StronglySorted N.lt (ports conn) /\
  (forall port, In port (ports conn) <-> In port (map dst_port mine)) /\
  service conn
  = match identify_service (ip conn) with
    | None | Some [] => py "Unknown"
    | Some s => s
    end /\
  category conn = categorize_activity (service conn) /\
  (identify_service (ip conn) = None ->
   service conn = py "Unknown" /\ category conn = py "other").
Proof.
  intros Hin. apply in_connections, in_all_connections in Hin.
  destruct Hin as (k & st & Hin & ->).
  pose proof (get_of_entry _ _ _ (aggregate_keys_NoDup pkts) Hin) as Hget.
  destruct (statistics_of_destination pkts k) as (Hp & Hb & Hports & Hnone).
  pose proof (ports_distinct_aggregate pkts k) as Hnd.
  assert (Est : stats_of (aggregate pkts) k = st)
    by (unfold stats_of; rewrite Hget; reflexivity).
  rewrite Est in *. cbn [resolve ip packets bytes ports service category].
  cbn zeta.
  assert (Hne : to_destination k pkts <> []).
  { intros E. apply Hnone in E. congruence. }
  destruct (sorted_asc_spec _ Hnd) as [Hsorted Hin'].
  split; [exact Hne|]. split; [exact Hp|]. split.
  { rewrite Hp. destruct (to_destination k pkts); [contradiction|].
    simpl List.length. lia. }
  split; [exact Hb|]. split; [exact Hsorted|]. split.
  { intros port. rewrite Hin'. apply Hports. }
  split; [reflexivity|]. split; [reflexivity|].
  intros ->. split; [reflexivity | vm_compute; reflexivity].
Qed.

Lemma connection_summary_fields_witness :
  packets (mkConn (py "1.1.1.1") (py "Cloudflare DNS") (py "cloud") 2 100
                  [53; 443])
  = N.of_nat
      (List.length
         (to_destination (py "1.1.1.1")
            [flow "10.66.66.2" "1.1.1.1" 443 "TCP" 60;
             flow "1.1.1.1" "10.66.66.2" 51820 "UDP" 80;
             flow "10.66.66.2" "1.1.1.1" 53 "UDP" 40])).
Proof.
  pose (pkts := [flow "10.66.66.2" "1.1.1.1" 443 "TCP" 60;
                 flow "1.1.1.1" "10.66.66.2" 51820 "UDP" 80;
                 flow "10.66.66.2" "1.1.1.1" 53 "UDP" 40]).
  pose (conn := mkConn (py "1.1.1.1") (py "Cloudflare DNS") (py "cloud") 2 100
                       [53; 443]).
  assert (H : In conn (connections
                         (summarize_traffic (py "2026-01-01T00:00:00") pkts)))
    by (vm_compute; left; reflexivity).
  destruct (connection_summary_fields _ pkts conn H) as (_ & Hp & _).
  exact Hp.
Defined.

Lemma map_ip_all_connections d :
  Permutation (map ip (all_connections d)) (PyDict.keys d).
Proof.
  unfold all_connections, PyDict.items, PyDict.keys. rewrite map_map.
  rewrite (map_ext (fun x => ip (resolve x)) fst)
    by (intros [k st]; reflexivity).
  apply Permutation_map, sorted_desc_perm.
Qed.

Lemma NoDup_firstn {A : Type} (n : nat) (l : list A) :
  NoDup l -> NoDup (firstn n l).
Proof.
  intros H; revert n. induction H as [|x l Hx _ IH]; intros [|n]; simpl;
    try constructor; [|apply IH].
  intros Hin. apply Hx. eapply in_firstn. exact Hin.
Qed.

(** X8. The connections of the summary have distinct addresses; there are as
    many as destinations, up to 20; and with at most 20 destinations they
    are all listed: their addresses are the destinations of the outbound
    records and their bytes add up to the total. *)
Theorem connections_distinct_destinations
  (now : pystr) (pkts : list FlowRecord) :
  let s := summarize_traffic now pkts in
  NoDup (map ip (connections s)) /\
  List.length (connections s)
  = Nat.min 20 (N.to_nat (unique_destinations s)) /\
  (unique_destinations s <= 20 ->
   Permutation (map ip (connections s))
     (first_occurrences (map dst_ip (filter is_outbound pkts))) /\
   sum_bytes (connections s) = total_bytes s).
Proof.
  destruct pkts as [|p pkts].
  - cbn. repeat split; try constructor.
  - set (batch := p :: pkts). cbn zeta.
    change (connections (summarize_traffic now batch))
      with (firstn 20 (all_connections (aggregate batch))).
    change (unique_destinations (summarize_traffic now batch))
      with (N.of_nat (List.length (aggregate batch))).
    change (total_bytes (summarize_traffic now batch))
      with (sum_bytes (all_connections (aggregate batch))).
    pose proof (map_ip_all_connections (aggregate batch)) as Hperm.
    split.
    { rewrite <- firstn_map. apply NoDup_firstn.
      apply (Permutation_NoDup (Permutation_sym Hperm)).
      apply aggregate_keys_NoDup. }
    split.
    { rewrite length_firstn, length_all_connections, Nat2N.id. reflexivity. }
    intros Hle.
    rewrite firstn_all2 by (rewrite length_all_connections; lia).
    split; [|reflexivity].
    destruct (aggregate_sums batch) as (_ & _ & <-). exact Hperm.
Qed.

(** *** The ranking is stable *)

Section Stable.
Context {A : Type} (key : A -> N).

Lemma insert_desc_stable (v : N) (x : A) (l : list A) :
  filter (fun y => key y =? v) (insert_desc key x l)
  = filter (fun y => key y =? v) (x :: l).
Proof.
  induction l as [|y l IH]; [reflexivity|].
  cbn [insert_desc]. destruct (N.ltb_spec (key x) (key y)) as [Hlt|Hge];
    [|reflexivity].
  cbn [filter] in *. rewrite IH.
  destruct (N.eqb_spec (key x) v) as [Ex|Ex];
    destruct (N.eqb_spec (key y) v) as [Ey|Ey]; try reflexivity.
  lia.
Qed.

Lemma sorted_desc_stable (v : N) (l : list A) :
  filter (fun y => key y =? v) (sorted_desc key l)
  = filter (fun y => key y =? v) l.
Proof.
  induction l as [|x l IH]; [reflexivity|].
  cbn [sorted_desc]. rewrite insert_desc_stable. cbn [filter].
  rewrite IH. reflexivity.
Qed.

End Stable.

Lemma map_filter_keys {V : Type} (f : V -> bool) (d : PyDict.dict V)
  (g : pystr -> bool) :
  (forall k v, In (k, v) d -> g k = f v) ->
  map fst (filter (fun e => f (snd e)) d) = filter g (map fst d).
Proof.
  induction d as [|[k v] d IH]; intros H; [reflexivity|].
  cbn [filter map fst snd]. rewrite (H k v) by (left; reflexivity).
  rewrite <- IH by (intros k' v' Hin; apply H; right; exact Hin).
  destruct (f v); reflexivity.
Qed.

(** X9. Destinations with the same byte count are ranked in the order in
    which the batch first sends to them: the sort is stable, and the
    statistics are kept in order of first appearance. *)
Theorem equal_bytes_ranked_by_first_appearance
  (pkts : list FlowRecord) (v : N) :
  map ip (filter (fun c => bytes c =? v) (all_connections (aggregate pkts)))
  = filter (fun k => st_bytes (stats_of (aggregate pkts) k) =? v)
      (first_occurrences (map dst_ip (filter is_outbound pkts))).
Proof.
  destruct (aggregate_sums pkts) as (_ & _ & <-).
  set (d := aggregate pkts).
  unfold all_connections, PyDict.items, PyDict.keys.
  assert (Hf : forall l,
            map ip (filter (fun c => bytes c =? v) (map resolve l))
            = map fst (filter (fun e => st_bytes (snd e) =? v) l)).
  { induction l as [|[k st] l IH]; [reflexivity|].
    cbn [map filter]. rewrite bytes_resolve. cbn [snd].
    destruct (st_bytes st =? v); cbn [map]; rewrite IH; reflexivity. }
  rewrite Hf, (sorted_desc_stable (fun e => st_bytes (snd e)) v d).
  apply (map_filter_keys (fun st => st_bytes st =? v)).
  intros k st Hin.
  pose proof (get_of_entry _ _ _ (aggregate_keys_NoDup pkts) Hin) as Hget.
  unfold stats_of. fold d in Hget. rewrite Hget. reflexivity.
Qed.

(** *** Categories *)

Lemma any_keyword_spec (keywords : list pystr) (s : pystr) :
  any_keyword keywords s = true
  <-> exists kw, In kw keywords /\ is_substring kw s.
Proof.
  induction keywords as [|kw keywords IH]; simpl.
  - split; [discriminate | intros (? & [] & _)].
  - destruct (contains s kw) eqn:E.
    + split; [|reflexivity]. intros _. exists kw. split; [auto|].
      apply contains_substring, E.
    + rewrite IH. split.
      * intros (kw' & Hin & Hs). eauto.
      * intros (kw' & [<-|Hin] & Hs); [|eauto].
        apply contains_substring in Hs. congruence.
Qed.

Lemma scan_categories_first_match (table : list (pystr * list pystr))
  (s : pystr) :
  (scan_categories table s = py "other" /\ Forall (no_keyword s) table) \/
  (exists before cat keywords after,
     table = before ++ (cat, keywords) :: after /\
     scan_categories table s = cat /\
     (exists kw, In kw keywords /\ is_substring kw s) /\
     Forall (no_keyword s) before).
Proof.
  induction table as [|[cat keywords] table IH]; simpl.
  - left. split; [reflexivity | constructor].
  - destruct (any_keyword keywords s) eqn:E.
    + right. exists [], cat, keywords, table.
      repeat split; [apply any_keyword_spec, E | constructor].
    + assert (Hno : no_keyword s (cat, keywords)).
      { intros kw Hin Hs.
        assert (any_keyword keywords s = true)
          by (apply any_keyword_spec; eauto).
        congruence. }
      destruct IH as [[Ho Hall]|(before & c & kws & after & -> & Hc & Hk & Hb)].
      * left. split; [exact Ho | constructor; assumption].
      * right. exists ((cat, keywords) :: before), c, kws, after.
        repeat split; [exact Hc | exact Hk | constructor; assumption].
Qed.

Lemma split_unique {V : Type} (l b1 b2 a1 a2 : list (pystr * V)) k v1 v2 :
  NoDup (map fst l) ->
  l = b1 ++ (k, v1) :: a1 -> l = b2 ++ (k, v2) :: a2 ->
  b1 = b2 /\ v1 = v2 /\ a1 = a2.
Proof.
  revert l b2. induction b1 as [|[k' v'] b1 IH]; intros l b2 Hnd E1 E2.
  - destruct b2 as [|[k2 v2'] b2]; simpl in *.
    + rewrite E1 in E2. inversion E2; subst. auto.
    + exfalso. subst l. inversion E2; subst. inversion Hnd; subst.
      match goal with H : ~ In _ _ |- _ => apply H end.
      rewrite map_app, in_app_iff. right. simpl. auto.
  - destruct b2 as [|[k2 v2'] b2]; simpl in *.
    + exfalso. subst l. inversion E2; subst. inversion Hnd; subst.
      match goal with H : ~ In _ _ |- _ => apply H end.
      rewrite map_app, in_app_iff. right. simpl. auto.
    + subst l. inversion E2; subst. inversion Hnd; subst.
      destruct (IH _ b2 ltac:(eassumption) eq_refl ltac:(eassumption))
        as (-> & -> & ->).
      auto.
Qed.

Lemma ACTIVITY_CATEGORIES_keys_NoDup :
  NoDup (map fst (PyDict.items ACTIVITY_CATEGORIES)).
Proof.
  change (map fst (PyDict.items ACTIVITY_CATEGORIES))
    with (PyDict.keys ACTIVITY_CATEGORIES).
  assert (E : ACTIVITY_CATEGORIES = PyDict.literal ACTIVITY_CATEGORIES_entries)
    by (vm_compute; reflexivity).
  rewrite E, keys_literal. apply first_occurrences_NoDup.
Qed.

Lemma in_cons_other (kw x : pystr) (l : list pystr) :
  In kw (x :: l) -> kw <> x -> In kw l.
Proof. intros [<-|H] Hne; [contradiction | exact H]. Qed.

(** X10. For a name of ASCII characters, as the names of the signature
    table and "Unknown" are, [categorize_activity] gives the first category,
    in the order of the table, one of whose keywords is a substring of the
    lowercased name, and "other" exactly when no keyword of the table is.
    Two keywords never decide: "whatsapp" under "communication" and
    "outlook" under "microsoft" are each listed under an earlier category
    too. *)
Theorem categorize_activity_first_category (service : pystr) :
  all_of is_ascii service ->
  let s := lower service in
  ((categorize_activity service = py "other" /\
    Forall (no_keyword s) (PyDict.items ACTIVITY_CATEGORIES)) \/
   (exists before cat keywords after,
      PyDict.items ACTIVITY_CATEGORIES = before ++ (cat, keywords) :: after /\
      categorize_activity service = cat /\
      (exists kw, In kw keywords /\ is_substring kw s) /\
      Forall (no_keyword s) before)) /\
  (categorize_activity service = py "communication" ->
   exists kw, In kw communication_keywords /\ is_substring kw s) /\
  (categorize_activity service = py "microsoft" ->
   exists kw, In kw microsoft_keywords /\ is_substring kw s).
Proof.
  intros _ s.
  pose proof (scan_categories_first_match
                (PyDict.items ACTIVITY_CATEGORIES) s) as Hscan.
  change (scan_categories (PyDict.items ACTIVITY_CATEGORIES) s)
    with (categorize_activity service) in Hscan.
  split; [exact Hscan|].
  assert (Hother : forall name, name <> py "other" ->
            categorize_activity service = name ->
            exists before keywords after,
              PyDict.items ACTIVITY_CATEGORIES
              = before ++ (name, keywords) :: after /\
              (exists kw, In kw keywords /\ is_substring kw s) /\
              Forall (no_keyword s) before).
  { intros name Hne Hcat.
    destruct Hscan as [[Ho _]|(before & cat & kws & after & E & Hc & Hk & Hb)].
    - congruence.
    - rewrite Hcat in Hc. subst cat. eauto 6. }
  split.
  - intros Hcat.
    destruct (Hother (py "communication")
                ltac:(intros E; vm_compute in E; discriminate E) Hcat)
      as (before & kws & after & E & (kw & Hin & Hs) & Hb).
    destruct (split_unique _ _ (firstn 1 (PyDict.items ACTIVITY_CATEGORIES))
                _ (skipn 2 (PyDict.items ACTIVITY_CATEGORIES)) _ _
                (py "whatsapp" :: communication_keywords)
                ACTIVITY_CATEGORIES_keys_NoDup E ltac:(vm_compute; reflexivity))
      as (-> & -> & _).
    exists kw. split; [|exact Hs].
    apply (in_cons_other _ _ _ Hin). intros ->.
    rewrite Forall_forall in Hb.
    apply (Hb (py "social", _) ltac:(vm_compute; left; reflexivity)
              (py "whatsapp") ltac:(vm_compute; tauto) Hs).
  - intros Hcat.
    destruct (Hother (py "microsoft")
                ltac:(intros E; vm_compute in E; discriminate E) Hcat)
      as (before & kws & after & E & (kw & Hin & Hs) & Hb).
    destruct (split_unique _ _ (firstn 8 (PyDict.items ACTIVITY_CATEGORIES))
                _ (skipn 9 (PyDict.items ACTIVITY_CATEGORIES)) _ _
                (map py ["microsoft"; "office"; "outlook"; "teams"]%string)
                ACTIVITY_CATEGORIES_keys_NoDup E ltac:(vm_compute; reflexivity))
      as (-> & -> & _).
    exists kw. split; [|exact Hs].
    assert (Hne : kw <> py "outlook").
    { intros ->. rewrite Forall_forall in Hb.
      apply (Hb (py "communication", py "whatsapp" :: communication_keywords)
                ltac:(vm_compute; tauto)
                (py "outlook") ltac:(vm_compute; tauto) Hs). }
    cbn [map In] in Hin. unfold microsoft_keywords. cbn [map In].
    destruct Hin as [<-|[<-|[<-|[<-|[]]]]]; auto; contradiction.
Qed.

Lemma categorize_activity_first_category_witness :
  exists kw,
    In kw communication_keywords /\ is_substring kw (lower (py "Telegram")).
Proof.
  assert (Ha : all_of is_ascii (py "Telegram")).
  { change (all_of is_ascii [84; 101; 108; 101; 103; 114; 97; 109]).
    repeat (apply Forall_cons; [reflexivity|]). apply Forall_nil. }
  destruct (categorize_activity_first_category (py "Telegram") Ha)
    as (_ & Hc & _).
  apply Hc. vm_compute. reflexivity.
Defined.

(** ** Binary64: the range of a percentage *)

Module Float64Range.
Import B64 Float64Facts.
Local Open Scope Z_scope.

(** Rounding does not fall below a number of the format that the exact
    value reaches. *)
Lemma binary_round_aux_ge_exact (P Q mx ex M E : Z) (lx : location) :
  0 < Q -> 0 <= mx -> -1074 <= ex ->
  located P Q mx ex lx ->
  ex <= fexp 53 1024 (Zdigits2 mx + ex) ->
  2 ^ 52 <= M < 2 ^ 53 -> -1074 <= E ->
  M * (w E * Q) <= P ->
  match binary_round_aux 53 1024 false mx ex lx with
  | S754_infinity false => True
  | S754_finite false m e => -1074 <= e /\ M * w E <= Zpos m * w e
  | _ => False
  end.
Proof.
  intros HQ Hmx Hex Hl Hn HM HE Hbound.
  destruct (binary_round_aux_steps P Q mx ex lx HQ Hmx Hex Hl Hn)
    as (m1 & e1 & m2 & m3 & e3 & He1 & Hm1 & Hnorm & Hlow & Hrnd
        & Hm3 & He3 & Hval & Hn3 & ->).
  assert (Hwe1 : 0 < w e1) by (apply w_pos; lia).
  assert (HwE : 0 < w E) by (apply w_pos; lia).
  assert (Hm2 : m1 <= m2 <= m1 + 1) by lia.
  assert (HA : M * w E <= m2 * w e1).
  { destruct (Z.lt_trichotomy e1 E) as [Hlt|[Heq|Hgt]].
    - exfalso.
      pose proof (w_double_le e1 E He1 Hlt) as Hw.
      assert (H1 : (m1 + 1) * w e1 <= 2 ^ 53 * w e1)
        by (apply Z.mul_le_mono_nonneg_r; lia).
      assert (H2 : 2 ^ 52 * (2 * w e1) <= 2 ^ 52 * w E)
        by (apply Z.mul_le_mono_nonneg_l; lia).
      assert (H3 : 2 ^ 52 * w E <= M * w E)
        by (apply Z.mul_le_mono_nonneg_r; lia).
      assert (H4 : P < ((m1 + 1) * w e1) * Q)
        by (rewrite <- Z.mul_assoc; apply Hlow).
      assert (H5 : (M * w E) * Q <= P)
        by (rewrite <- Z.mul_assoc; exact Hbound).
      assert (H6 : ((m1 + 1) * w e1) * Q <= (M * w E) * Q).
      { apply Z.mul_le_mono_nonneg_r; [lia|].
        change (2 ^ 53) with (2 ^ 52 * 2) in *. lia. }
      lia.
    - subst e1. apply Z.mul_le_mono_nonneg_r; [lia|].
      assert (HX : 0 < w E * Q) by (apply Z.mul_pos_pos; lia).
      revert Hlow Hbound HX. generalize (w E * Q). intros X Hlow Hb HX.
      assert (M * X < (m1 + 1) * X) by lia.
      assert (M < m1 + 1) by (apply (Z.mul_lt_mono_pos_r X); assumption).
      lia.
    - assert (Hn52 : 2 ^ 52 <= m1) by lia.
      pose proof (w_double_le E e1 ltac:(lia) Hgt) as Hw.
      assert (H1 : 2 ^ 52 * w e1 <= m2 * w e1)
        by (apply Z.mul_le_mono_nonneg_r; lia).
      assert (H2 : 2 ^ 52 * (2 * w E) <= 2 ^ 52 * w e1)
        by (apply Z.mul_le_mono_nonneg_l; lia).
      assert (H3 : M * w E <= 2 ^ 53 * w E)
        by (apply Z.mul_le_mono_nonneg_r; lia).
      change (2 ^ 53) with (2 ^ 52 * 2) in *. lia. }
  destruct m3 as [|m|m]; [| | lia].
  - assert (0 < M * w E) by (apply Z.mul_pos_pos; lia). lia.
  - destruct (e3 <=? 971); [|exact I]. split; lia.
Qed.

(** A quotient of at most 1 is at most the binary64 number 1. *)
Lemma true_div_le_one (b t : positive) :
  Zpos b <= Zpos t ->
  match Float64.true_div b t with
  | S754_zero false => True
  | S754_finite false m e =>
      -1074 <= e /\ Zpos m * w e <= 2 ^ 1074 /\
      (e = -1074 \/ 2 ^ 52 <= Zpos m)
  | _ => False
  end.
Proof.
  intros Hle.
  destruct (true_div_rounds b t Hle) as (q & e & l & -> & Hq & He & Hl & Hn).
  change (2 ^ 1074) with (2 ^ 52 * w (-52)).
  apply (binary_round_aux_le (Zpos b * 2 ^ 1074) (Zpos t) q e);
    try assumption; try lia.
  change (2 ^ 1074) with (2 ^ 52 * w (-52)).
  assert (Hw : 0 < w (-52)) by reflexivity.
  revert Hw. generalize (w (-52)). intros Y HY.
  assert (Hc : 2 * (Zpos b * 2 ^ 52) < (2 * 2 ^ 52 + 1) * Zpos t) by lia.
  apply (Z.mul_lt_mono_pos_r Y) in Hc; [|exact HY]. lia.
Qed.

(** 100 as a binary64 number. *)
Lemma hundred_scaled : 7036874417766400 * w (-46) = 100 * 2 ^ 1074.
Proof. reflexivity. Qed.

(** The percentage of a part of the total is at most 100. *)
Lemma percent_le_hundred (b t : positive) :
  Zpos b <= Zpos t ->
  match percent b t with
  | S754_zero false => True
  | S754_finite false m e => -1074 <= e /\ Zpos m * w e <= 100 * 2 ^ 1074
  | _ => False
  end.
Proof.
  intros Hle. unfold percent.
  pose proof (true_div_le_one b t Hle) as Hdiv.
  destruct (Float64.true_div b t) as [[|]|[|]| |[|] m e]; try contradiction.
  - exact I.
  - destruct Hdiv as (He & Hv & Hnorm).
    destruct (mul_100_exact m e He Hnorm) as (-> & Hl & Hn).
    assert (Hwe : 0 < w e) by (apply w_pos; lia).
    assert (Hr :
      match binary_round_aux 53 1024 false (Zpos (m * 100)) e loc_Exact with
      | S754_zero false => True
      | S754_finite false m' e' =>
          -1074 <= e' /\ Zpos m' * w e' <= 7036874417766400 * w (-46) /\
          (e' = -1074 \/ 2 ^ 52 <= Zpos m')
      | _ => False
      end).
    { apply (binary_round_aux_le (Zpos (m * 100) * w e) 1);
        try assumption; try lia.
      rewrite Z.mul_1_r, Pos2Z.inj_mul.
      assert (H100 := hundred_scaled).
      assert (Hw46 : 0 < w (-46)) by reflexivity.
      revert H100 Hw46. generalize (w (-46)). intros Y H100 HY.
      assert (H0 : 0 < 2 ^ 1074) by reflexivity.
      revert Hv H100 H0 Hwe. generalize (2 ^ 1074) (w e).
      intros T X Hv H100 HT HX. lia. }
    destruct (binary_round_aux 53 1024 false (Zpos (m * 100)) e loc_Exact)
      as [[|]|[|]| |[|] m' e']; try contradiction; [exact I|].
    rewrite hundred_scaled in Hr. tauto.
Qed.

(** The integer displayed for a percentage above 1 and at most 100. *)
Lemma round_half_even_range (m : positive) (e : Z) :
  -1074 <= e ->
  2 ^ 1074 < Zpos m * w e -> Zpos m * w e <= 100 * 2 ^ 1074 ->
  (1 <= Float64.round_half_even m e <= 100)%N.
Proof.
  intros He Hgt Hle. unfold Float64.round_half_even.
  assert (H0 : 0 < 2 ^ 1074) by reflexivity.
  destruct e as [|k|k].
  - change (w 0) with (2 ^ 1074) in *. rewrite Z.pow_0_r.
    assert (1 < Zpos m) by (apply (Z.mul_lt_mono_pos_r (2 ^ 1074)); lia).
    assert (Zpos m <= 100) by (apply (Z.mul_le_mono_pos_r _ _ (2 ^ 1074)); lia).
    lia.
  - assert (Hw : w (Zpos k) = 2 ^ Zpos k * 2 ^ 1074)
      by (unfold w; apply Z.pow_add_r; lia).
    rewrite Hw, Z.mul_assoc in *.
    assert (1 < Zpos m * 2 ^ Zpos k)
      by (apply (Z.mul_lt_mono_pos_r (2 ^ 1074)); lia).
    assert (Zpos m * 2 ^ Zpos k <= 100)
      by (apply (Z.mul_le_mono_pos_r _ _ (2 ^ 1074)); lia).
    lia.
  - assert (Hw : 2 ^ Zpos k * w (Zneg k) = 2 ^ 1074).
    { unfold w. rewrite <- Z.pow_add_r by lia. f_equal. lia. }
    rewrite <- Hw in Hgt, Hle.
    assert (Hwk : 0 < w (Zneg k)) by (apply w_pos; lia).
    assert (Hd : 0 < 2 ^ Zpos k) by (apply Z.pow_pos_nonneg; lia).
    assert (Hm1 : 2 ^ Zpos k < Zpos m)
      by (apply (Z.mul_lt_mono_pos_r (w (Zneg k))); lia).
    assert (Hm2 : Zpos m <= 100 * 2 ^ Zpos k).
    { apply (Z.mul_le_mono_pos_r _ _ (w (Zneg k))); [exact Hwk|]. lia. }
    pose proof (Z.div_mod (Zpos m) (2 ^ Zpos k) ltac:(lia)) as Hdm.
    pose proof (Z.mod_pos_bound (Zpos m) (2 ^ Zpos k) Hd) as Hr.
    revert Hdm Hr. generalize (Zpos m / 2 ^ Zpos k) (Zpos m mod 2 ^ Zpos k).
    intros q r Hdm Hr.
    revert Hd Hm1 Hm2 Hdm Hr. generalize (2 ^ Zpos k). intros d Hd Hm1 Hm2 Hdm Hr.
    assert (Hq1 : 1 <= q) by nia.
    assert (Hq2 : q <= 100) by nia.
    assert (Hq3 : q = 100 -> r = 0) by nia.
    destruct (Z.compare_spec (2 * r) d) as [Hc|Hc|Hc];
      [destruct (Z.even q) | | ]; lia.
Qed.

(** The integer displayed for exactly 100. *)
Lemma round_half_even_hundred (m : positive) (e : Z) :
  -1074 <= e -> Zpos m * w e = 100 * 2 ^ 1074 ->
  Float64.round_half_even m e = 100%N.
Proof.
  intros He Hv. unfold Float64.round_half_even.
  assert (H0 : 0 < 2 ^ 1074) by reflexivity.
  destruct e as [|k|k].
  - change (w 0) with (2 ^ 1074) in *. rewrite Z.pow_0_r.
    assert (Zpos m = 100) by (apply (Z.mul_reg_r _ _ (2 ^ 1074)); lia).
    lia.
  - assert (Hw : w (Zpos k) = 2 ^ Zpos k * 2 ^ 1074)
      by (unfold w; apply Z.pow_add_r; lia).
    rewrite Hw, Z.mul_assoc in *.
    assert (Zpos m * 2 ^ Zpos k = 100)
      by (apply (Z.mul_reg_r _ _ (2 ^ 1074)); lia).
    lia.
  - assert (Hw : 2 ^ Zpos k * w (Zneg k) = 2 ^ 1074).
    { unfold w. rewrite <- Z.pow_add_r by lia. f_equal. lia. }
    rewrite <- Hw in Hv.
    assert (Hwk : 0 < w (Zneg k)) by (apply w_pos; lia).
    assert (Hd : 0 < 2 ^ Zpos k) by (apply Z.pow_pos_nonneg; lia).
    assert (Hm : Zpos m = 100 * 2 ^ Zpos k).
    { apply (Z.mul_reg_r _ _ (w (Zneg k))); lia. }
    rewrite Hm, Z.div_mul, Z.mod_mul by lia.
    destruct (Z.compare_spec (2 * 0) (2 ^ Zpos k)) as [H|H|H];
      [reflexivity | reflexivity | lia].
Qed.

(** The whole of the total is exactly 100 percent. *)
Lemma percent_whole (t : positive) :
  exists m e,
    percent t t = S754_finite false m e /\ -1074 <= e /\
    Zpos m * w e = 100 * 2 ^ 1074.
Proof.
  unfold percent.
  pose proof (true_div_le_one t t ltac:(lia)) as Hle.
  destruct (true_div_rounds t t ltac:(lia))
    as (q & e & l & Ediv & Hq & He & Hl & Hn).
  assert (Hge :
    match Float64.true_div t t with
    | S754_infinity false => True
    | S754_finite false m e => -1074 <= e /\ 2 ^ 52 * w (-52) <= Zpos m * w e
    | _ => False
    end).
  { rewrite Ediv.
    apply (binary_round_aux_ge_exact (Zpos t * 2 ^ 1074) (Zpos t) q e);
      try assumption; try lia.
    change (w (-52)) with (2 ^ 1022).
    change (2 ^ 1074) with (2 ^ 52 * 2 ^ 1022). lia. }
  destruct (Float64.true_div t t) as [[|]|[|]| |[|] m1 e1]; try contradiction.
  destruct Hle as (He1 & Hle1 & Hnorm). destruct Hge as (_ & Hge1).
  change (2 ^ 52 * w (-52)) with (2 ^ 1074) in Hge1.
  assert (Hv : Zpos m1 * w e1 = 2 ^ 1074) by lia.
  destruct (mul_100_exact m1 e1 He1 Hnorm) as (-> & Hl' & Hn').
  assert (Hwe : 0 < w e1) by (apply w_pos; lia).
  assert (HP : Zpos (m1 * 100) * w e1 = 100 * 2 ^ 1074)
    by (rewrite Pos2Z.inj_mul; lia).
  assert (Hup :
    match binary_round_aux 53 1024 false (Zpos (m1 * 100)) e1 loc_Exact with
    | S754_zero false => True
    | S754_finite false m' e' =>
        -1074 <= e' /\ Zpos m' * w e' <= 7036874417766400 * w (-46) /\
        (e' = -1074 \/ 2 ^ 52 <= Zpos m')
    | _ => False
    end).
  { apply (binary_round_aux_le (Zpos (m1 * 100) * w e1) 1);
      try assumption; try lia.
    rewrite Z.mul_1_r, HP.
    assert (H100 := hundred_scaled).
    assert (Hw46 : 0 < w (-46)) by reflexivity.
    revert H100 Hw46. generalize (w (-46)) (2 ^ 1074). intros Y T H100 HY.
    lia. }
  assert (Hdown :
    match binary_round_aux 53 1024 false (Zpos (m1 * 100)) e1 loc_Exact with
    | S754_infinity false => True
    | S754_finite false m' e' =>
        -1074 <= e' /\ 7036874417766400 * w (-46) <= Zpos m' * w e'
    | _ => False
    end).
  { apply (binary_round_aux_ge_exact (Zpos (m1 * 100) * w e1) 1);
      try assumption; try lia.
    rewrite Z.mul_1_r, HP, hundred_scaled. lia. }
  destruct (binary_round_aux 53 1024 false (Zpos (m1 * 100)) e1 loc_Exact)
    as [[|]|[|]| |[|] m' e']; try contradiction.
  rewrite hundred_scaled in *.
  exists m', e'. split; [reflexivity|]. split; [tauto | lia].
Qed.

End Float64Range.

Lemma shown_percent_range (total bytes_count : N) (pct : spec_float) :
  bytes_count <= total ->
  shown_percent total bytes_count = Some pct ->
  exists n,
    1 <= n <= 100 /\ rounded_percent pct = n /\
    Float64.format_0f pct = str_of_N n.
Proof.
  intros Hle. unfold shown_percent.
  destruct bytes_count as [|b]; [discriminate|].
  destruct total as [|t]; [discriminate|].
  destruct (Float64.gt_one (percent b t)) eqn:E; [|discriminate].
  intros H; inversion H; subst; clear H.
  pose proof (Float64Range.percent_le_hundred b t ltac:(lia)) as Hup.
  destruct (percent b t) as [[|]|[|]| |[|] m e]; try contradiction;
    try discriminate.
  destruct Hup as [He Hup].
  rewrite (Float64Facts.gt_one_scaled m e He) in E. apply Z.ltb_lt in E.
  exists (Float64.round_half_even m e).
  split; [apply Float64Range.round_half_even_range; assumption|].
  split; reflexivity.
Qed.

(** X11. Every percentage of the breakdown is an integer from 1 to 100, and
    the part it stands in reads as the category, ": ", that integer and "%". *)
Theorem displayed_percentages_in_range
  (now : pystr) (p : FlowRecord) (pkts : list FlowRecord) :
  let conns := all_connections (aggregate (p :: pkts)) in
  let total := sum_bytes conns in
  let ranked := sorted_desc snd (PyDict.items (category_totals conns)) in
  Forall (fun n => 1 <= n <= 100) (displayed_percents total ranked) /\
  Forall
    (fun e =>
       is_shown total e = true ->
       exists n,
         1 <= n <= 100 /\
         shown_text total e = fst e ++ py ": " ++ str_of_N n ++ py "%")
    ranked.
Proof.
  intros conns total ranked.
  assert (Hle : forall e, In e ranked -> snd e <= total).
  { intros e He. apply category_total_le.
    eapply Permutation_in; [apply sorted_desc_perm | exact He]. }
  split.
  - unfold displayed_percents. apply Forall_flat_map.
    rewrite Forall_forall. intros e He.
    destruct (shown_percent total (snd e)) as [pct|] eqn:E; [|constructor].
    destruct (shown_percent_range _ _ _ (Hle e He) E) as (n & Hn & <- & _).
    repeat constructor; lia.
  - rewrite Forall_forall. intros e He Hs.
    unfold is_shown in Hs. unfold shown_text, part_text.
    destruct (shown_percent total (snd e)) as [pct|] eqn:E; [|discriminate].
    destruct (shown_percent_range _ _ _ (Hle e He) E) as (n & Hn & _ & ->).
    exists n. split; [exact Hn | reflexivity].
Qed.

Lemma category_totals_single (cat : pystr) (conns : list ConnectionSummary) :
  Forall (fun c => category c = cat) conns ->
  forall b,
    fold_left add_category conns [(cat, b)] = [(cat, b + sum_bytes conns)].
Proof.
  induction 1 as [|c conns Hc _ IH]; intros b; simpl.
  - rewrite N.add_0_r. reflexivity.
  - unfold add_category at 2. rewrite Hc. simpl. rewrite str_eqb_refl.
    rewrite IH. f_equal. f_equal. lia.
Qed.

Lemma shown_text_whole (cat : pystr) (total : N) :
  0 < total ->
  shown_percent total total <> None /\
  shown_text total (cat, total) = cat ++ py ": 100%".
Proof.
  intros Hpos. destruct total as [|t]; [lia|].
  destruct (Float64Range.percent_whole t) as (m & e & Ep & He & Hv).
  assert (Hgt : Float64.gt_one (percent t t) = true).
  { rewrite Ep, (Float64Facts.gt_one_scaled m e He). apply Z.ltb_lt.
    rewrite Hv. reflexivity. }
  unfold shown_text, shown_percent. cbn [fst snd]. rewrite Hgt.
  split; [discriminate|].
  unfold part_text. rewrite Ep. unfold Float64.format_0f.
  rewrite (Float64Range.round_half_even_hundred m e He Hv).
  reflexivity.
Qed.

(** X12. When every connection falls in one category and some byte was sent,
    the breakdown is that category at 100%. *)
Theorem single_category_breakdown
  (now : pystr) (p : FlowRecord) (pkts : list FlowRecord) (cat : pystr) :
  Forall (fun c => category c = cat) (all_connections (aggregate (p :: pkts))) ->
  0 < total_bytes (summarize_traffic now (p :: pkts)) ->
  activity_summary (summarize_traffic now (p :: pkts)) = cat ++ py ": 100%".
Proof.
  intros Hcat Hpos.
  change (total_bytes (summarize_traffic now (p :: pkts)))
    with (sum_bytes (all_connections (aggregate (p :: pkts)))) in Hpos.
  change (activity_summary (summarize_traffic now (p :: pkts)))
    with (let conns := all_connections (aggregate (p :: pkts)) in
          match
            activity_parts (sum_bytes conns)
              (sorted_desc snd (PyDict.items (category_totals conns)))
          with
          | [] => py "Minimal activity"
          | _ :: _ =>
              join (py " | ")
                (activity_parts (sum_bytes conns)
                   (sorted_desc snd (PyDict.items (category_totals conns))))
          end).
  cbn zeta. set (conns := all_connections (aggregate (p :: pkts))) in *.
  assert (Et : category_totals conns = [(cat, sum_bytes conns)]).
  { unfold category_totals. destruct conns as [|c conns']; [simpl in Hpos; lia|].
    inversion Hcat; subst. cbn [fold_left]. unfold add_category at 2.
    cbn [PyDict.get PyDict.set].
    rewrite (category_totals_single (category c) conns') by assumption.
    reflexivity. }
  rewrite Et. cbn [PyDict.items sorted_desc insert_desc].
  rewrite activity_parts_shown. cbn [filter]. unfold is_shown. cbn [snd].
  destruct (shown_text_whole cat (sum_bytes conns) Hpos) as [Hs Ht].
  destruct (shown_percent (sum_bytes conns) (sum_bytes conns)); [|contradiction].
  cbn [map join]. exact Ht.
Qed.

Lemma single_category_breakdown_witness :
  activity_summary
    (summarize_traffic (py "2026-01-01T00:00:00")
       [flow "10.66.66.2" "1.1.1.1" 53 "UDP" 64;
        flow "10.66.66.2" "104.16.1.1" 443 "TCP" 7])
  = py "cloud: 100%".
Proof.
  apply (single_category_breakdown (py "2026-01-01T00:00:00")
           (flow "10.66.66.2" "1.1.1.1" 53 "UDP" 64)
           [flow "10.66.66.2" "104.16.1.1" 443 "TCP" 7] (py "cloud")).
  - vm_compute. repeat constructor.
  - vm_compute. reflexivity.
Defined.

(** ** Entry point: the ints of the summary as texts *)

Lemma int_fits_mono (n m : N) :
  n <= m -> int_fits m = true -> int_fits n = true.
Proof.
  unfold int_fits. intros Hle H. apply N.ltb_lt in H. apply N.ltb_lt.
  eapply N.le_lt_trans; eassumption.
Qed.

Lemma int_fits_zero : int_fits 0 = true.
Proof.
  unfold int_fits. apply N.ltb_lt, N.neq_0_lt_0, N.pow_nonzero. discriminate.
Qed.

Lemma digit_value_small (c d : N) : digit_value c = Some d -> d <= 9.
Proof.
  unfold digit_value.
  destruct (find (fun z => (z <=? c) && (c <? z + 10)) Nd_zeros) as [z|] eqn:E;
    [|discriminate].
  intros H. inversion H; subst; clear H.
  apply find_some in E. destruct E as [_ E].
  apply andb_true_iff in E. destruct E as [E1 E2].
  apply N.leb_le in E1. apply N.ltb_lt in E2. lia.
Qed.

Lemma int_digits_bound (s : pystr) :
  forall acc n,
    int_digits acc s = Some n ->
    n < (acc + 1) * 10 ^ N.of_nat (List.length s).
Proof.
  induction s as [|c s IH]; intros acc n H.
  - simpl in H. inversion H; subst. simpl. lia.
  - cbn [int_digits] in H.
    destruct (digit_value c) as [d|] eqn:Ed; [|discriminate].
    apply digit_value_small in Ed. apply IH in H.
    cbn [List.length]. rewrite Nat2N.inj_succ, N.pow_succ_r'.
    clear IH. set (P := 10 ^ N.of_nat (List.length s)) in *. clearbody P.
    apply N.lt_le_trans with ((10 * acc + d + 1) * P); [exact H|].
    replace ((acc + 1) * (10 * P)) with ((10 * acc + 10) * P) by lia.
    apply N.mul_le_mono_r. lia.
Qed.

Lemma py_int_fits (t : pystr) (n : N) : py_int t = Some n -> int_fits n = true.
Proof.
  intros H. pose proof (py_int_length t n H) as Hlen.
  unfold py_int in H. destruct t as [|x t]; [discriminate|].
  destruct (int_max_str_digits <? N.of_nat (List.length (x :: t)));
    [discriminate|].
  apply int_digits_bound in H. unfold int_fits. apply N.ltb_lt.
  eapply N.lt_le_trans; [exact H|].
  rewrite N.mul_1_l. apply N.pow_le_mono_r; [discriminate | exact Hlen].
Qed.

Lemma accepted_port_fits (line : pystr) (r : FlowRecord) :
  parse_line line = Accepted r -> int_fits (dst_port r) = true.
Proof.
  intros H. apply parse_line_accepted in H.
  destruct H as (_ & _ & _ & _ & _ & _ & _ & _ & _ & _ & Hport).
  unfold port_of_line in Hport.
  destruct (search re_port line) as [c|].
  - destruct (group c 1) as [t|]; [|discriminate].
    apply py_int_fits in Hport. exact Hport.
  - inversion Hport. apply int_fits_zero.
Qed.

Lemma captured_accepted (proc : popen_outcome) (r : FlowRecord) :
  In r (captured proc) -> exists line, parse_line line = Accepted r.
Proof.
  destruct proc as [e|out]; [intros []|].
  unfold captured, accepted_records. intros H.
  apply in_flat_map in H. destruct H as (text & _ & H).
  destruct (parse_line text) as [r'| |e] eqn:E; try contradiction.
  destruct H as [<-|[]]. eauto.
Qed.

Lemma length_remember (l : list pystr) :
  forall acc,
    (List.length (fold_left remember l acc)
     <= List.length acc + List.length l)%nat.
Proof.
  induction l as [|k l IH]; intros acc; simpl; [lia|].
  eapply Nat.le_trans; [apply IH|].
  unfold remember. destruct (existsb (str_eqb k) acc); simpl;
    rewrite ?length_app; simpl; lia.
Qed.

Lemma unique_destinations_le (now : pystr) (pkts : list FlowRecord) :
  unique_destinations (summarize_traffic now pkts)
  <= N.of_nat (List.length pkts).
Proof.
  destruct pkts as [|p pkts]; [simpl; lia|].
  change (unique_destinations (summarize_traffic now (p :: pkts)))
    with (N.of_nat (List.length (aggregate (p :: pkts)))).
  destruct (aggregate_sums (p :: pkts)) as (_ & _ & Hk).
  assert (Hl : List.length (aggregate (p :: pkts))
               = List.length (PyDict.keys (aggregate (p :: pkts))))
    by (unfold PyDict.keys; rewrite length_map; reflexivity).
  rewrite Hl, Hk. unfold first_occurrences.
  pose proof (length_remember
                (map dst_ip (filter is_outbound (p :: pkts))) []) as H.
  rewrite length_map in H.
  pose proof (filter_length_le is_outbound (p :: pkts)) as Hf.
  change (List.length (@nil pystr)) with 0%nat in H. lia.
Qed.

Lemma packets_le_sum (c : ConnectionSummary) (l : list ConnectionSummary) :
  In c l -> packets c <= sum_packets l.
Proof.
  induction l as [|x l IH]; simpl; [intros []|].
  intros [->|H]; [lia|]. apply IH in H. lia.
Qed.

Lemma bytes_le_sum (c : ConnectionSummary) (l : list ConnectionSummary) :
  In c l -> bytes c <= sum_bytes l.
Proof.
  induction l as [|x l IH]; simpl; [intros []|].
  intros [->|H]; [lia|]. apply IH in H. lia.
Qed.

Lemma connection_port_of_record
  (now : pystr) (pkts : list FlowRecord) (c : ConnectionSummary) (port : N) :
  In c (connections (summarize_traffic now pkts)) -> In port (ports c) ->
  exists r, In r pkts /\ dst_port r = port.
Proof.
  intros Hin Hport. apply in_connections, in_all_connections in Hin.
  destruct Hin as (k & st & Hin & ->).
  pose proof (get_of_entry _ _ _ (aggregate_keys_NoDup pkts) Hin) as Hget.
  destruct (statistics_of_destination pkts k) as (_ & _ & Hports & _).
  pose proof (ports_distinct_aggregate pkts k) as Hnd.
  assert (Est : stats_of (aggregate pkts) k = st)
    by (unfold stats_of; rewrite Hget; reflexivity).
  rewrite Est in *. cbn [resolve ports] in Hport.
  apply (sorted_asc_spec _ Hnd), Hports in Hport.
  apply in_map_iff in Hport. destruct Hport as (r & <- & Hr).
  unfold to_destination in Hr. apply filter_In in Hr. exists r. tauto.
Qed.

(** With ports that fit, the ints of a summary can all be written as soon
    as the number of packets and the total of bytes can. *)
Lemma summary_ints_fit (now : pystr) (pkts : list FlowRecord) :
  (forall r, In r pkts -> int_fits (dst_port r) = true) ->
  int_fits (N.of_nat (List.length pkts)) = true ->
  forallb int_fits (summary_ints (summarize_traffic now pkts))
  = int_fits (total_bytes (summarize_traffic now pkts)).
Proof.
  intros Hports Hcount.
  destruct (int_fits (total_bytes (summarize_traffic now pkts))) eqn:Hbytes.
  - apply forallb_forall. intros n Hn. unfold summary_ints in Hn.
    apply in_app_or in Hn. destruct Hn as [Hn|Hn].
    + destruct Hn as [<-|[<-|[<-|[]]]].
      * rewrite total_packets_length. exact Hcount.
      * exact Hbytes.
      * eapply int_fits_mono; [apply unique_destinations_le | exact Hcount].
    + apply in_flat_map in Hn. destruct Hn as (c & Hc & Hn).
      apply in_app_or in Hn. destruct Hn as [[<-|[<-|[]]]|Hn].
      * apply int_fits_mono with (N.of_nat (List.length pkts));
          [|exact Hcount].
        apply in_connections in Hc. apply packets_le_sum in Hc.
        rewrite sum_packets_all_connections in Hc.
        destruct (aggregate_sums pkts) as (_ & Hp & _). rewrite Hp in Hc.
        pose proof (filter_length_le is_outbound pkts). lia.
      * apply int_fits_mono with (total_bytes (summarize_traffic now pkts));
          [|exact Hbytes].
        destruct pkts as [|p pkts]; [destruct Hc|].
        apply in_connections in Hc. apply bytes_le_sum in Hc. exact Hc.
      * destruct (connection_port_of_record now pkts c n Hc Hn)
          as (r & Hr & <-).
        apply Hports, Hr.
  - destruct (forallb int_fits (summary_ints (summarize_traffic now pkts)))
      eqn:Hall; [|reflexivity].
    rewrite forallb_forall in Hall. rewrite <- Hbytes. symmetry.
    apply Hall. unfold summary_ints. simpl. auto.
Qed.

(** X5. [main] stops on an exception in four cases only: the directory
    cannot be made, before anything is printed or captured; the file cannot
    be opened or written, after two lines of output; the number of packets
    or the total of bytes has more digits than the limit of a number
    written as a text, which stops the second line of output or
    [json.dump]. No outcome of the capture stops it otherwise: with the
    directory and the file sound and these two numbers within the limit,
    the run completes, the summary written is that of the captured
    packets, its total packet count is the number of records captured, the
    number that the second line of the output announces, and the third
    line gives its activity text. *)
Theorem main_outcome (w : world) :
  let packets := captured (popen w) in
  let summary := summarize_traffic (clock w) packets in
  let count := N.of_nat (List.length packets) in
  match main w with
  | Crashed e stdout stderr =>
      mkdir_error w = Some e /\ stdout = [] /\ stderr = [] \/
      mkdir_error w = None /\ int_fits count = false /\
      e = str_limit_error /\ List.length stdout = 1%nat \/
      mkdir_error w = None /\ int_fits count = true /\
      write_error w = Some e /\ List.length stdout = 2%nat \/
      mkdir_error w = None /\ int_fits count = true /\
      write_error w = None /\ int_fits (total_bytes summary) = false /\
      e = str_limit_error /\ List.length stdout = 2%nat
  | Completed stdout stderr written =>
      mkdir_error w = None /\ write_error w = None /\
      int_fits count = true /\ int_fits (total_bytes summary) = true /\
      written = summary /\
      total_packets written = count /\
      nth_error stdout 1
      = Some (py "Captured " ++ str_of_N count ++ py " packets") /\
      nth_error stdout 2
      = Some (py "Activity: " ++ activity_summary written)
  end.
Proof.
  cbv zeta. unfold main.
  destruct (mkdir_error w) as [e|]; [left; auto|].
  rewrite cap_packets_captured.
  destruct (int_fits (N.of_nat (List.length (captured (popen w))))) eqn:Hcount;
    [|right; left; auto].
  destruct (write_error w) as [e|]; [right; right; left; auto|].
  unfold json_dump_error. rewrite summary_ints_fit; [|
    intros r Hr; apply captured_accepted in Hr; destruct Hr as [line Hr];
    exact (accepted_port_fits line r Hr) | exact Hcount].
  destruct (int_fits
              (total_bytes (summarize_traffic (clock w) (captured (popen w)))))
    eqn:Hbytes.
  - repeat split; try reflexivity. apply total_packets_length.
  - right; right; right. auto 10.
Qed.
